(** * Verification of the node subsystems

    A shallow embedding of the Go sources of the repository and the
    properties of its specification that are settled on them:

    - [Chunk]: swarm/chunk/chunk.go (proximity order, validator store);
    - [Ezp]: pow/ezp/pow.go (the legacy proof-of-work check);
    - [Whisper]: the filter engine (message matching);
    - [Bzz]: the storage wire protocol session (handle cycle, sync);
    - [Signer]: the structured-data signing endpoint;
    - [StateSync]: the state tree synchronizer driven by sync_test.go.

    Bytes are integers ([Z]) with the bit operations of the source written
    out; Go slices are lists; a run-time panic is the result [None]. *)

From stdpp Require Import gmap list strings.
From Stdlib Require Import ZArith Lia Floats.

Local Open Scope Z_scope.

(** ** swarm/chunk/chunk.go *)

Module Chunk.

Definition DefaultSize : Z := 4096.
Definition MaxPO : Z := 16.
Definition AddressLength : Z := 32.

(** [type Address []byte] *)
Abbreviation Address := (list Z).

Inductive error :=
| ErrChunkNotFound
| ErrChunkInvalid
| ErrStore (msg : string).

(** [type chunk struct { addr Address; sdata []byte }] *)
Record chunk := NewChunk { addr : Address; sdata : list Z }.

Definition ZeroAddr : Address := replicate 32 0.

(** The inner loop of [Proximity]:
    [for j := 0; j < m; j++ { if (oxo>>uint8(7-j))&0x01 != 0 { return i*8 + j } }],
    started at [j] with [n] iterations left; [None] when the loop falls
    through without returning. *)
Fixpoint scanBits (oxo : Z) (j : Z) (n : nat) : option Z :=
  match n with
  | O => None
  | S n' =>
      if negb (Z.land (Z.shiftr oxo (7 - j)) 1 =? 0) then Some j
      else scanBits oxo (j + 1) n'
  end.

(** The outer loop [for i := 0; i < b; i++], started at [i] with [n]
    iterations left.  Indexing past the end of a slice panics ([None]). *)
Fixpoint proximityLoop (one other : Address) (i : nat) (n : nat) : option Z :=
  match n with
  | O => Some MaxPO
  | S n' =>
      match one !! i, other !! i with
      | Some x, Some y =>
          match scanBits (Z.lxor x y) 0 8 with
          | Some j => Some (Z.of_nat i * 8 + j)
          | None => proximityLoop one other (S i) n'
          end
      | _, _ => None
      end
  end.

(** [func Proximity(one, other []byte) (ret int)] *)
Definition Proximity (one other : Address) : option Z :=
  let b := (MaxPO - 1) / 8 + 1 in
  let b := if Z.of_nat (length one) <? b then Z.of_nat (length one) else b in
  proximityLoop one other 0 (Z.to_nat b).

(** Flipping the most significant bit of byte 0 of an address. *)
Definition flipTopBit (x : Address) : Address :=
  match x with
  | [] => []
  | b :: rest => Z.lxor b 128 :: rest
  end.

(** [type ModePut int] *)
Inductive ModePut := ModePutRequest | ModePutSync | ModePutUpload.

(** The part of [type Store interface] that [ValidatorStore] overrides:
    [Put(ctx, mode, ch) (err error)], acting on a backend state [S]. *)
Class Store (S : Type) := {
  Put : ModePut -> chunk -> S -> option error * S
}.

(** [type Validator interface { Validate(ch Chunk) bool }] *)
Record Validator := { Validate : chunk -> bool }.

(** [type ValidatorStore struct { Store; validators []Validator }] over a
    wrapped store of state [S]. *)
Record ValidatorStore := NewValidatorStore { validators : list Validator }.

Section ValidatorStorePut.
Context {S : Type} `{Store S}.

(** [for _, v := range s.validators { if v.Validate(ch) { return s.Store.Put(ctx, mode, ch) } }
     return ErrChunkInvalid] *)
Fixpoint putValidated (vs : list Validator) (mode : ModePut) (ch : chunk) (st : S)
  : option error * S :=
  match vs with
  | [] => (Some ErrChunkInvalid, st)
  | v :: vs' =>
      if Validate v ch then Put mode ch st
      else putValidated vs' mode ch st
  end.

(** [func (s *ValidatorStore) Put(ctx, mode, ch) (err error)] *)
Definition ValidatorStore_Put (s : ValidatorStore) (mode : ModePut) (ch : chunk) (st : S)
  : option error * S :=
  putValidated (validators s) mode ch st.

End ValidatorStorePut.

(** A concrete backend used to exercise the store: the list of chunks put so
    far; it refuses chunks with an empty payload. *)
#[export] Instance listStore : Store (list chunk) := {
  Put _ ch st :=
    match sdata ch with
    | [] => (Some (ErrStore "empty"), st)
    | _ => (None, ch :: st)
    end
}.

Definition sampleChunk : chunk := NewChunk [1; 2] [42].

Definition acceptAll : Validator := {| Validate := fun _ => true |}.
Definition rejectAll : Validator := {| Validate := fun _ => false |}.

(** *** Properties of [Proximity] *)

Lemma scanBits_zero j n : scanBits 0 j n = None.
Proof.
  revert j. induction n as [|n IH]; intros j; simpl; [done|].
  rewrite Z.shiftr_0_l. simpl. apply IH.
Qed.

Lemma proximityLoop_S one other i n :
  proximityLoop one other i (Datatypes.S n) =
  match one !! i, other !! i with
  | Some x, Some y =>
      match scanBits (Z.lxor x y) 0 8 with
      | Some j => Some (Z.of_nat i * 8 + j)
      | None => proximityLoop one other (Datatypes.S i) n
      end
  | _, _ => None
  end.
Proof. reflexivity. Qed.

Lemma proximityLoop_self x i n :
  (i + n <= length x)%nat -> proximityLoop x x i n = Some MaxPO.
Proof.
  revert i. induction n as [|n IH]; intros i Hlen; [done|].
  rewrite proximityLoop_S. destruct (x !! i) as [b|] eqn:Hb.
  - rewrite Z.lxor_nilpotent, scanBits_zero. apply IH. lia.
  - apply lookup_ge_None in Hb. lia.
Qed.

Lemma proximityLoop_sym x y i n :
  proximityLoop x y i n = proximityLoop y x i n.
Proof.
  revert i. induction n as [|n IH]; intros i; [done|].
  rewrite !proximityLoop_S.
  destruct (x !! i) as [a|], (y !! i) as [b|]; try done.
  rewrite (Z.lxor_comm b a). destruct (scanBits _ _ _); [done|apply IH].
Qed.

Lemma proximity_bound (x : Address) :
  (0 + Z.to_nat (if (Z.of_nat (length x) <? (MaxPO - 1) / 8 + 1)%Z
                 then Z.of_nat (length x) else ((MaxPO - 1) / 8 + 1)%Z) <= length x)%nat.
Proof.
  change ((MaxPO - 1) / 8 + 1) with 2.
  destruct (Z.ltb_spec (Z.of_nat (length x)) 2); lia.
Qed.

Lemma Proximity_self x : Proximity x x = Some MaxPO.
Proof. unfold Proximity. apply proximityLoop_self, proximity_bound. Qed.

Lemma scanBits_range oxo j n k :
  scanBits oxo j n = Some k -> j <= k < j + Z.of_nat n.
Proof.
  revert j. induction n as [|n IH]; intros j; simpl; [done|].
  destruct (negb _).
  - intros [= <-]. lia.
  - intros Hk. apply IH in Hk. lia.
Qed.

Lemma proximityLoop_range x y i n p :
  (i + n <= 2)%nat -> proximityLoop x y i n = Some p -> 0 <= p <= MaxPO.
Proof.
  revert i. induction n as [|n IH]; intros i Hi.
  - intros [= <-]. unfold MaxPO. lia.
  - rewrite proximityLoop_S. destruct (x !! i) as [a|]; [|done]. destruct (y !! i) as [b|]; [|done].
    destruct (scanBits _ _ _) as [k|] eqn:Hk.
    + intros [= <-]. apply scanBits_range in Hk. unfold MaxPO. lia.
    + apply IH. lia.
Qed.

Lemma Proximity_range x y p : Proximity x y = Some p -> 0 <= p <= MaxPO.
Proof.
  unfold Proximity. apply proximityLoop_range.
  change ((MaxPO - 1) / 8 + 1) with 2.
  destruct (Z.ltb_spec (Z.of_nat (length x)) 2); lia.
Qed.

Lemma Proximity_flip x : x <> [] -> Proximity x (flipTopBit x) = Some 0.
Proof.
  destruct x as [|b rest]; [done|]. intros _.
  unfold Proximity. change ((MaxPO - 1) / 8 + 1) with 2.
  assert (Hfuel : exists k, Z.to_nat (if Z.of_nat (length (b :: rest)) <? 2
                    then Z.of_nat (length (b :: rest)) else 2) = Datatypes.S k).
  { destruct (Z.ltb_spec (Z.of_nat (length (b :: rest))) 2) as [Hlt|Hge].
    - exists O. simpl length in *. lia.
    - exists 1%nat. done. }
  destruct Hfuel as [k ->]. rewrite proximityLoop_S. simpl lookup. simpl flipTopBit.
  cbn [lookup list_lookup].
  replace (Z.lxor b (Z.lxor b 128)) with 128.
  - reflexivity.
  - rewrite <- Z.lxor_assoc, Z.lxor_nilpotent. reflexivity.
Qed.

(** C4, as stated, fails: the proximity of an address to itself is [MaxPO]
    (16), not 256; shown on the zero address. *)
Lemma Proximity_self_not_256 :
  Proximity ZeroAddr ZeroAddr = Some 16 /\ Proximity ZeroAddr ZeroAddr <> Some 256.
Proof. split; [reflexivity | discriminate]. Qed.

(** C4 (amended): for every address [x], [Proximity x x] is [MaxPO = 16], and
    every proximity order the function returns lies in [0, 16]; 16 means that
    the two addresses agree on the whole scanned window. *)
Theorem Proximity_self_is_MaxPO (x : Address) :
  Proximity x x = Some 16 /\
  (forall y p, Proximity x y = Some p -> 0 <= p <= 16).
Proof.
  split; [apply Proximity_self | intros y p; apply Proximity_range].
Qed.

Lemma Proximity_self_is_MaxPO_witness :
  Proximity [7; 9; 250] [7; 9; 250] = Some 16 /\
  (0 <= 13 <= 16).
Proof.
  destruct (Proximity_self_is_MaxPO [7; 9; 250]) as [Hself Hrange].
  split; [exact Hself | apply (Hrange [7; 13; 1] 13); reflexivity].
Defined.

(** C5: for equal-length addresses, [Proximity x y = 16] when [x = y];
    [Proximity] is symmetric; and flipping the most significant bit of byte 0
    of [x] gives proximity 0. *)
Theorem Proximity_equal_symmetric_flip (x y : Address) :
  length x = length y ->
  (x = y -> Proximity x y = Some 16) /\
  Proximity x y = Proximity y x /\
  (x <> [] -> Proximity x (flipTopBit x) = Some 0).
Proof.
  intros Hlen. split; [|split].
  - intros ->. apply Proximity_self.
  - unfold Proximity. rewrite Hlen. apply proximityLoop_sym.
  - apply Proximity_flip.
Qed.

Lemma Proximity_equal_symmetric_flip_witness :
  Proximity [171; 205; 1] [171; 205; 1] = Some 16 /\
  Proximity [171; 205; 1] [171; 77; 3] = Proximity [171; 77; 3] [171; 205; 1] /\
  Proximity [171; 205; 1] (flipTopBit [171; 205; 1]) = Some 0.
Proof.
  destruct (Proximity_equal_symmetric_flip [171; 205; 1] [171; 205; 1] eq_refl)
    as (Heq & _ & Hflip).
  destruct (Proximity_equal_symmetric_flip [171; 205; 1] [171; 77; 3] eq_refl)
    as (_ & Hsym & _).
  split; [exact (Heq eq_refl)|split; [exact Hsym|]].
  apply Hflip. discriminate.
Defined.

(** *** Properties of [ValidatorStore.Put] *)

Section ValidatorStoreProps.
Context {S : Type} `{Store S}.

Lemma putValidated_accept vs mode ch (st : S) :
  (exists v, v ∈ vs /\ Validate v ch = true) ->
  putValidated vs mode ch st = Put mode ch st.
Proof.
  induction vs as [|w vs IH]; intros (v & Hin & Hv).
  - inversion Hin.
  - simpl. destruct (Validate w ch) eqn:Hw; [done|].
    apply IH. exists v. split; [|done].
    apply elem_of_cons in Hin as [->|Hin]; [congruence|done].
Qed.

Lemma putValidated_reject vs mode ch (st : S) :
  (forall v, v ∈ vs -> Validate v ch = false) ->
  putValidated vs mode ch st = (Some ErrChunkInvalid, st).
Proof.
  induction vs as [|w vs IH]; intros Hall; [done|].
  simpl. rewrite (Hall w) by apply list_elem_of_here.
  apply IH. intros v Hv. apply Hall. by apply list_elem_of_further.
Qed.

(** C3: with an empty validator list [Put] returns the invalid-chunk error
    and leaves the wrapped store untouched; if some configured validator
    accepts the chunk, [Put] is the wrapped store's [Put]; if every configured
    validator rejects it, [Put] returns the invalid-chunk error (store
    untouched). *)
Theorem ValidatorStore_Put_validation (s : ValidatorStore) mode ch (st : S) :
  (validators s = [] ->
     ValidatorStore_Put s mode ch st = (Some ErrChunkInvalid, st)) /\
  ((exists v, v ∈ validators s /\ Validate v ch = true) ->
     ValidatorStore_Put s mode ch st = Put mode ch st) /\
  ((forall v, v ∈ validators s -> Validate v ch = false) ->
     ValidatorStore_Put s mode ch st = (Some ErrChunkInvalid, st)).
Proof.
  unfold ValidatorStore_Put. split; [|split].
  - intros ->. reflexivity.
  - apply putValidated_accept.
  - apply putValidated_reject.
Qed.

End ValidatorStoreProps.

Lemma ValidatorStore_Put_validation_witness :
  ValidatorStore_Put (NewValidatorStore []) ModePutUpload sampleChunk [] =
    (Some ErrChunkInvalid, []) /\
  ValidatorStore_Put (NewValidatorStore [rejectAll; acceptAll]) ModePutSync sampleChunk [] =
    (None, [sampleChunk]) /\
  ValidatorStore_Put (NewValidatorStore [rejectAll; rejectAll]) ModePutRequest sampleChunk [] =
    (Some ErrChunkInvalid, []).
Proof.
  destruct (ValidatorStore_Put_validation
              (NewValidatorStore []) ModePutUpload sampleChunk []) as (Hempty & _ & _).
  destruct (ValidatorStore_Put_validation
              (NewValidatorStore [rejectAll; acceptAll]) ModePutSync sampleChunk [])
    as (_ & Hacc & _).
  destruct (ValidatorStore_Put_validation
              (NewValidatorStore [rejectAll; rejectAll]) ModePutRequest sampleChunk [])
    as (_ & _ & Hrej).
  split; [|split].
  - apply Hempty. reflexivity.
  - apply Hacc.
    exists acceptAll. split; [|reflexivity].
    apply list_elem_of_further, list_elem_of_here.
  - apply Hrej.
    intros v Hv. simpl in Hv.
    apply elem_of_cons in Hv as [->|Hv]; [reflexivity|].
    apply elem_of_cons in Hv as [->|Hv]; [reflexivity|].
    inversion Hv.
Defined.

(** *** Further properties of [Proximity] *)

(** Bit [k] of an address, counted from the most significant bit of byte 0. *)
Definition bitAt (x : Address) (k : Z) : option bool :=
  match x !! Z.to_nat (k / 8) with
  | Some b => Some (Z.testbit b (7 - k mod 8))
  | None => None
  end.

(** The two addresses hold the same bit at position [k]. *)
Definition sameBit (x y : Address) (k : Z) : Prop :=
  exists b, bitAt x k = Some b /\ bitAt y k = Some b.

(** The two addresses hold different bits at position [k]. *)
Definition otherBit (x y : Address) (k : Z) : Prop :=
  exists b, bitAt x k = Some b /\ bitAt y k = Some (negb b).

Lemma scanned_bit oxo m :
  0 <= m -> negb (Z.land (Z.shiftr oxo m) 1 =? 0) = Z.testbit oxo m.
Proof.
  intros Hm. change 1 with (Z.ones 1). rewrite Z.land_ones by lia.
  change (2 ^ 1) with 2. rewrite <- Z.bit0_mod, Z.shiftr_spec by lia.
  rewrite Z.add_0_l. by destruct (Z.testbit oxo m).
Qed.

Lemma scanBits_Some oxo j n k :
  0 <= j -> j + Z.of_nat n <= 8 -> scanBits oxo j n = Some k ->
  j <= k < j + Z.of_nat n /\ Z.testbit oxo (7 - k) = true /\
  forall t, j <= t < k -> Z.testbit oxo (7 - t) = false.
Proof.
  revert j. induction n as [|n IH]; intros j Hj Hn; simpl; [done|].
  rewrite scanned_bit by lia. destruct (Z.testbit oxo (7 - j)) eqn:Hbit.
  - intros [= <-]. split; [lia|]. split; [done|]. intros t Ht. lia.
  - intros Hk. destruct (IH (j + 1)) as (Hr & Hset & Hclear); [lia|lia|done|].
    split; [lia|]. split; [done|]. intros t Ht.
    destruct (decide (t = j)) as [->|]; [done|]. apply Hclear. lia.
Qed.

Lemma scanBits_None oxo j n :
  0 <= j -> j + Z.of_nat n <= 8 -> scanBits oxo j n = None ->
  forall t, j <= t < j + Z.of_nat n -> Z.testbit oxo (7 - t) = false.
Proof.
  revert j. induction n as [|n IH]; intros j Hj Hn; simpl; [intros _ t; lia|].
  rewrite scanned_bit by lia. destruct (Z.testbit oxo (7 - j)) eqn:Hbit; [done|].
  intros Hk t Ht. destruct (decide (t = j)) as [->|]; [done|].
  apply (IH (j + 1)); [lia|lia|done|lia].
Qed.

Lemma bitAt_byte x i t b :
  x !! i = Some b -> 0 <= t < 8 ->
  bitAt x (Z.of_nat i * 8 + t) = Some (Z.testbit b (7 - t)).
Proof.
  intros Hb Ht. unfold bitAt.
  replace ((Z.of_nat i * 8 + t) / 8) with (Z.of_nat i)
    by (Z.to_euclidean_division_equations; lia).
  replace ((Z.of_nat i * 8 + t) mod 8) with t
    by (Z.to_euclidean_division_equations; lia).
  by rewrite Nat2Z.id, Hb.
Qed.

Lemma xor_bits a b m :
  Z.testbit (Z.lxor a b) m = false -> Z.testbit a m = Z.testbit b m.
Proof. rewrite Z.lxor_spec. by destruct (Z.testbit a m), (Z.testbit b m). Qed.

Lemma xor_bits_differ a b m :
  Z.testbit (Z.lxor a b) m = true -> Z.testbit b m = negb (Z.testbit a m).
Proof. rewrite Z.lxor_spec. by destruct (Z.testbit a m), (Z.testbit b m). Qed.

Lemma sameBit_byte x y i t a b :
  x !! i = Some a -> y !! i = Some b -> 0 <= t < 8 ->
  Z.testbit (Z.lxor a b) (7 - t) = false -> sameBit x y (Z.of_nat i * 8 + t).
Proof.
  intros Ha Hb Ht Hbit. exists (Z.testbit a (7 - t)).
  rewrite (bitAt_byte x i t a), (bitAt_byte y i t b) by done.
  split; [done|]. f_equal. symmetry. by apply xor_bits.
Qed.

Lemma otherBit_byte x y i t a b :
  x !! i = Some a -> y !! i = Some b -> 0 <= t < 8 ->
  Z.testbit (Z.lxor a b) (7 - t) = true -> otherBit x y (Z.of_nat i * 8 + t).
Proof.
  intros Ha Hb Ht Hbit. exists (Z.testbit a (7 - t)).
  rewrite (bitAt_byte x i t a), (bitAt_byte y i t b) by done.
  split; [done|]. f_equal. by apply xor_bits_differ.
Qed.

Lemma proximityLoop_first_difference x y i n p :
  (i + n <= 2)%nat ->
  proximityLoop x y i n = Some p ->
  (forall k, 0 <= k < Z.of_nat i * 8 -> sameBit x y k) ->
  (p = MaxPO \/ otherBit x y p) /\
  (forall k, 0 <= k < (if decide (p = MaxPO) then Z.of_nat (i + n) * 8 else p) ->
     sameBit x y k) /\
  (p = MaxPO \/ Z.of_nat i * 8 <= p < Z.of_nat (i + n) * 8).
Proof.
  revert i. induction n as [|n IH]; intros i Hin.
  - intros [= <-] Hbefore. split; [by left|]. split; [|by left].
    rewrite decide_True by done. intros k Hk. apply Hbefore. lia.
  - rewrite proximityLoop_S.
    destruct (x !! i) as [a|] eqn:Ha; [|done].
    destruct (y !! i) as [b|] eqn:Hb; [|done].
    destruct (scanBits (Z.lxor a b) 0 8) as [j|] eqn:Hscan.
    + intros [= <-] Hbefore.
      destruct (scanBits_Some (Z.lxor a b) 0 8 j) as (Hj & Hset & Hclear);
        [lia|simpl; lia|done|].
      assert (Hdiff : otherBit x y (Z.of_nat i * 8 + j)).
      { apply (otherBit_byte x y i j a b); [done|done|lia|done]. }
      assert (Hsame : forall k, 0 <= k < Z.of_nat i * 8 + j -> sameBit x y k).
      { intros k Hk. destruct (decide (k < Z.of_nat i * 8)) as [Hlt|Hge]; [apply Hbefore; lia|].
        replace k with (Z.of_nat i * 8 + (k - Z.of_nat i * 8)) by lia.
        apply (sameBit_byte x y i _ a b); [done|done|lia|]. apply Hclear. lia. }
      split; [by right|]. split; [|right; lia].
      destruct (decide (Z.of_nat i * 8 + j = MaxPO)) as [Heq|_]; [|done].
      unfold MaxPO in Heq. lia.
    + intros Hrest Hbefore.
      assert (Hclear : forall t, 0 <= t < 8 -> Z.testbit (Z.lxor a b) (7 - t) = false).
      { intros t Ht. apply (scanBits_None (Z.lxor a b) 0 8); [lia|simpl; lia|done|simpl; lia]. }
      destruct (IH (Datatypes.S i)) as (Hd & Hs & Hr); [lia|done| |].
      { intros k Hk. destruct (decide (k < Z.of_nat i * 8)) as [Hlt|Hge]; [apply Hbefore; lia|].
        replace k with (Z.of_nat i * 8 + (k - Z.of_nat i * 8)) by lia.
        apply (sameBit_byte x y i _ a b); [done|done|lia|]. apply Hclear. lia. }
      split; [done|]. split.
      * intros k Hk. apply Hs. destruct (decide (p = MaxPO)); lia.
      * destruct Hr as [?|?]; [by left|right; lia].
Qed.

(** X2: when [Proximity] returns an order [p] below 16, the two addresses
    differ at bit [p] and agree on every bit before it; when it returns 16,
    they agree on every bit of the bytes it scanned (the first two, or the
    only one of a one-byte address). *)
Theorem Proximity_first_difference (x y : Address) (p : Z) :
  Proximity x y = Some p ->
  (p < 16 -> otherBit x y p /\ forall k, 0 <= k < p -> sameBit x y k) /\
  (p = 16 -> forall k, 0 <= k < 8 * Z.of_nat (length x) -> k < 16 -> sameBit x y k).
Proof.
  unfold Proximity. change ((MaxPO - 1) / 8 + 1) with 2. intros Hp.
  assert (Hb : (0 + Z.to_nat (if (Z.of_nat (length x) <? 2)%Z
                               then Z.of_nat (length x) else 2%Z) <= 2)%nat)
    by (destruct (Z.ltb_spec (Z.of_nat (length x)) 2); lia).
  destruct (proximityLoop_first_difference x y 0 _ p Hb Hp) as (Hd & Hs & Hr);
    [intros k Hk; lia|].
  split.
  - intros Hlt. rewrite decide_False in Hs by (unfold MaxPO; lia).
    split; [|done]. destruct Hd as [->|?]; [unfold MaxPO in Hlt; lia|done].
  - intros -> k Hk Hk16. rewrite decide_True in Hs by done. apply Hs.
    destruct (Z.ltb_spec (Z.of_nat (length x)) 2); lia.
Qed.

Lemma Proximity_first_difference_witness :
  otherBit [171; 205; 1] [171; 77; 3] 8 /\
  (forall k, 0 <= k < 8 -> sameBit [171; 205; 1] [171; 77; 3] k).
Proof.
  destruct (Proximity_first_difference [171; 205; 1] [171; 77; 3] 8 eq_refl) as [Hlt _].
  apply Hlt. lia.
Defined.

Lemma proximityLoop_window x y i n :
  (i + n <= 2)%nat ->
  proximityLoop x y i n = proximityLoop (take 2 x) (take 2 y) i n.
Proof.
  revert i. induction n as [|n IH]; intros i Hi; [done|].
  rewrite !proximityLoop_S, !lookup_take.
  rewrite !decide_True by lia. rewrite IH by lia. done.
Qed.

(** X3: [Proximity] reads only the first two bytes of its arguments, so two
    addresses that share their first two bytes are at the largest order, 16,
    whatever follows. *)
Theorem Proximity_window (x y : Address) :
  Proximity x y = Proximity (take 2 x) (take 2 y) /\
  (take 2 x = take 2 y -> Proximity x y = Some 16).
Proof.
  assert (Hwin : Proximity x y = Proximity (take 2 x) (take 2 y)).
  { unfold Proximity. change ((MaxPO - 1) / 8 + 1) with 2.
    rewrite length_take.
    destruct (Z.ltb_spec (Z.of_nat (length x)) 2) as [Hlt|Hge].
    - rewrite Nat.min_r by lia.
      destruct (Z.ltb_spec (Z.of_nat (length x)) 2); [|lia].
      apply proximityLoop_window. lia.
    - rewrite Nat.min_l by lia. change (Z.of_nat 2 <? 2) with false.
      cbv iota. apply proximityLoop_window. simpl. lia. }
  split; [done|]. intros Heq. rewrite Hwin, Heq. apply Proximity_self.
Qed.

Lemma Proximity_window_witness :
  Proximity [10; 20; 1; 2; 3] [10; 20; 250; 251] = Some 16.
Proof.
  destruct (Proximity_window [10; 20; 1; 2; 3] [10; 20; 250; 251]) as [_ Hsame].
  apply Hsame. reflexivity.
Defined.

(** X4: on arguments of different lengths [Proximity] is not symmetric: the
    empty address is at order 16 from every address, while the order of a
    non-empty address from the empty one is an index out of range. *)
Theorem Proximity_empty_argument (x : Address) :
  Proximity [] x = Some 16 /\ (x <> [] -> Proximity x [] = None).
Proof.
  split; [reflexivity|]. destruct x as [|a rest]; [done|]. intros _.
  unfold Proximity. change ((MaxPO - 1) / 8 + 1) with 2.
  assert (Hfuel : exists k, Z.to_nat (if Z.of_nat (length (a :: rest)) <? 2
                    then Z.of_nat (length (a :: rest)) else 2) = Datatypes.S k).
  { destruct (Z.ltb_spec (Z.of_nat (length (a :: rest))) 2) as [Hlt|Hge].
    - exists O. simpl length in *. lia.
    - exists 1%nat. done. }
  destruct Hfuel as [k ->]. by rewrite proximityLoop_S.
Qed.

Lemma Proximity_empty_argument_witness : Proximity [7; 9] [] = None.
Proof.
  destruct (Proximity_empty_argument [7; 9]) as [_ Hpanic]. by apply Hpanic.
Defined.

(** *** Further properties of [ValidatorStore.Put] *)

Section ValidatorStoreOrder.
Context {S : Type} `{Store S}.

Lemma putValidated_existsb vs mode ch (st : S) :
  putValidated vs mode ch st =
    if existsb (fun v => Validate v ch) vs then Put mode ch st
    else (Some ErrChunkInvalid, st).
Proof.
  induction vs as [|v vs IH]; [done|]. simpl.
  destruct (Validate v ch); [done|apply IH].
Qed.

(** X5: the outcome of [Put] depends only on which validators are
    configured, not on their order or on repetitions: two validator stores
    over the same backend whose lists have the same members answer every
    [Put] alike. *)
Theorem ValidatorStore_Put_members (s s' : ValidatorStore) mode ch (st : S) :
  (forall v, v ∈ validators s <-> v ∈ validators s') ->
  ValidatorStore_Put s mode ch st = ValidatorStore_Put s' mode ch st.
Proof.
  intros Hsame. unfold ValidatorStore_Put. rewrite !putValidated_existsb.
  assert (Heq : existsb (fun v => Validate v ch) (validators s) =
                existsb (fun v => Validate v ch) (validators s')).
  { apply eq_true_iff_eq. rewrite !existsb_exists. split.
    - intros (v & Hin & Hv). exists v. split; [|done].
      apply list_elem_of_In, Hsame, list_elem_of_In, Hin.
    - intros (v & Hin & Hv). exists v. split; [|done].
      apply list_elem_of_In, Hsame, list_elem_of_In, Hin. }
  by rewrite Heq.
Qed.

End ValidatorStoreOrder.

Lemma ValidatorStore_Put_members_witness :
  ValidatorStore_Put (NewValidatorStore [rejectAll; acceptAll]) ModePutSync sampleChunk [] =
  ValidatorStore_Put (NewValidatorStore [acceptAll; rejectAll; acceptAll]) ModePutSync
    sampleChunk [].
Proof.
  apply (ValidatorStore_Put_members
           (NewValidatorStore [rejectAll; acceptAll])
           (NewValidatorStore [acceptAll; rejectAll; acceptAll])).
  intros v. simpl. rewrite !elem_of_cons. rewrite !elem_of_nil. tauto.
Defined.

(** *** The text forms of an address *)

(** The characters of a string are the integers of its bytes. *)
Definition hexDigit (d : Z) : Z := if d <? 10 then 48 + d else 87 + d.

(** A byte under the verb [%x]: two lowercase hexadecimal digits. *)
Definition hexByte (b : Z) : list Z := [hexDigit (b / 16); hexDigit (b mod 16)].

Definition hexString (bs : list Z) : list Z := flat_map hexByte bs.

(** [fmt.Sprintf("%0<width>x", bs)]: the digits, padded on the left with the
    character 0 up to [width]. *)
Definition sprintfHex (width : nat) (bs : list Z) : list Z :=
  replicate (width - length (hexString bs)) 48 ++ hexString bs.

(** [func (a Address) Hex() string] *)
Definition Hex (a : Address) : list Z := sprintfHex 64 a.

(** [func (a Address) String() string] *)
Definition String (a : Address) : list Z := sprintfHex 64 a.

(** [func (a Address) Log() string] *)
Definition Log (a : Address) : list Z :=
  if (length a <? 8)%nat then hexString a else sprintfHex 16 (take 8 a).

(** [func (a Address) MarshalJSON() (out []byte, err error)] *)
Definition MarshalJSON (a : Address) : list Z * option error :=
  ([34] ++ String a ++ [34], None).

Section AddressJSON.

(** [common.Hex2Bytes], of the common package. *)
Variable Hex2Bytes : list Z -> list Z.

(** [func (a *Address) UnmarshalJSON(value []byte) error]: the new address
    and the returned error; slicing [s[1 : len(s)-1]] panics ([None]) on a
    value of fewer than two bytes, and [copy] fills at most the 32 bytes of
    the fresh address. *)
Definition UnmarshalJSON (value : list Z) : option (Address * option error) :=
  let n := length value in
  if (n <? 2)%nat then None
  else
    let h := Hex2Bytes (take (n - 2) (drop 1 value)) in
    Some (take 32 h ++ replicate (32 - length h) 0, None).

End AddressJSON.

(** The decoding behind [common.Hex2Bytes] ([encoding/hex.DecodeString] with
    its error dropped): the bytes decoded before the first character that is
    no hexadecimal digit. *)
Definition fromHexChar (c : Z) : option Z :=
  if (48 <=? c) && (c <=? 57) then Some (c - 48)
  else if (97 <=? c) && (c <=? 102) then Some (c - 87)
  else if (65 <=? c) && (c <=? 70) then Some (c - 55)
  else None.

Fixpoint hexDecode (s : list Z) : list Z :=
  match s with
  | a :: b :: rest =>
      match fromHexChar a, fromHexChar b with
      | Some hi, Some lo => Z.lor (Z.shiftl hi 4) lo :: hexDecode rest
      | _, _ => []
      end
  | _ => []
  end.

Definition isByte (b : Z) : Prop := 0 <= b < 256.

Lemma byte_cases (P : Z -> bool) :
  forallb P (seqZ 0 256) = true -> forall b, isByte b -> P b = true.
Proof.
  intros Hall b Hb. rewrite forallb_forall in Hall. apply Hall.
  apply list_elem_of_In, elem_of_seqZ. unfold isByte in Hb. lia.
Qed.

Lemma hexDecode_hexByte b rest :
  isByte b -> hexDecode (hexByte b ++ rest) = b :: hexDecode rest.
Proof.
  intros Hb.
  pose proof (byte_cases
    (fun b => bool_decide
       (fromHexChar (hexDigit (b / 16)) = Some (b / 16) /\
        fromHexChar (hexDigit (b mod 16)) = Some (b mod 16) /\
        Z.lor (Z.shiftl (b / 16) 4) (b mod 16) = b)) eq_refl b Hb) as Hcase.
  apply bool_decide_eq_true in Hcase as (Hhi & Hlo & Hjoin).
  simpl. by rewrite Hhi, Hlo, Hjoin.
Qed.

Lemma hexDecode_hexString bs :
  Forall isByte bs -> hexDecode (hexString bs) = bs.
Proof.
  induction 1 as [|b bs Hb _ IH]; [done|].
  change (hexString (b :: bs)) with (hexByte b ++ hexString bs).
  rewrite hexDecode_hexByte by done. by rewrite IH.
Qed.

Lemma length_hexString bs : length (hexString bs) = (2 * length bs)%nat.
Proof. induction bs as [|b bs IH]; [done|]. unfold hexString in *. simpl. lia. Qed.

(** X6: a 32-byte address survives the round trip through its JSON form:
    with a [Hex2Bytes] that decodes what [%x] prints, [UnmarshalJSON] applied
    to the output of [MarshalJSON] gives the address back, and neither call
    returns an error. *)
Theorem Address_JSON_round_trip (Hex2Bytes : list Z -> list Z) (a : Address) :
  (forall bs, Forall isByte bs -> Hex2Bytes (hexString bs) = bs) ->
  length a = 32%nat -> Forall isByte a ->
  snd (MarshalJSON a) = None /\
  UnmarshalJSON Hex2Bytes (fst (MarshalJSON a)) = Some (a, None).
Proof.
  intros Hdecode Hlen Hbytes. split; [done|].
  assert (Hh : length (hexString a) = 64%nat) by (rewrite length_hexString; lia).
  assert (Hout : fst (MarshalJSON a) = 34 :: hexString a ++ [34]).
  { unfold MarshalJSON, String, sprintfHex. by rewrite Hh. }
  rewrite Hout. unfold UnmarshalJSON.
  replace (length (34 :: hexString a ++ [34])) with 66%nat
    by (simpl; rewrite length_app, Hh; done).
  change (66 <? 2)%nat with false. change (66 - 2)%nat with 64%nat.
  cbv iota zeta. change (drop 1 (34 :: hexString a ++ [34])) with (hexString a ++ [34]).
  assert (Htake : take 64 (hexString a ++ [34]) = hexString a)
    by (rewrite <- Hh; apply take_app_length).
  rewrite Htake, Hdecode by done. rewrite Hlen. simpl replicate.
  rewrite app_nil_r. rewrite take_ge by lia. done.
Qed.

Lemma Address_JSON_round_trip_witness :
  UnmarshalJSON hexDecode (fst (MarshalJSON (replicate 31 171 ++ [5]))) =
    Some (replicate 31 171 ++ [5], None).
Proof.
  apply (Address_JSON_round_trip hexDecode (replicate 31 171 ++ [5])).
  - apply hexDecode_hexString.
  - reflexivity.
  - apply Forall_forall. intros b Hb. vm_compute in Hb.
    repeat (apply elem_of_cons in Hb as [->|Hb]; [unfold isByte; lia|]).
    by apply elem_of_nil in Hb.
Defined.

(** X7: [UnmarshalJSON] never returns an error: for every value of at least
    two bytes, well-formed or not, it returns nil and sets the address to
    exactly 32 bytes, of which byte [i] is byte [i] of what [Hex2Bytes] made
    of the value without its first and last byte, and 0 where [Hex2Bytes]
    gave no such byte; on a shorter value it panics. *)
Theorem UnmarshalJSON_lenient (Hex2Bytes : list Z -> list Z) (value : list Z) :
  ((length value < 2)%nat -> UnmarshalJSON Hex2Bytes value = None) /\
  ((2 <= length value)%nat ->
     exists a, UnmarshalJSON Hex2Bytes value = Some (a, None) /\ length a = 32%nat /\
       forall i, (i < 32)%nat ->
         a !! i =
           Some (default 0 (Hex2Bytes (take (length value - 2) (drop 1 value)) !! i))).
Proof.
  unfold UnmarshalJSON. split; intros Hlen.
  - by destruct (Nat.ltb_spec (length value) 2); [|lia].
  - destruct (Nat.ltb_spec (length value) 2); [lia|].
    set (h := Hex2Bytes _). eexists. split; [done|]. split.
    + rewrite length_app, length_take, length_replicate. lia.
    + intros i Hi. destruct (decide (i < length h)%nat) as [Hin|Hout].
      * rewrite lookup_app_l by (rewrite length_take; lia).
        rewrite lookup_take_lt by done.
        destruct (lookup_lt_is_Some_2 h i Hin) as [x Hx]. by rewrite Hx.
      * rewrite lookup_app_r by (rewrite length_take; lia).
        rewrite length_take, lookup_replicate_2 by lia.
        by rewrite (lookup_ge_None_2 h i) by lia.
Qed.

Lemma UnmarshalJSON_lenient_witness :
  UnmarshalJSON hexDecode [34] = None /\
  exists a, UnmarshalJSON hexDecode [34; 97; 98; 122; 122; 34] = Some (a, None) /\
    length a = 32%nat /\ a !! 0%nat = Some 171 /\ a !! 1%nat = Some 0.
Proof.
  destruct (UnmarshalJSON_lenient hexDecode [34]) as [Hshort _].
  destruct (UnmarshalJSON_lenient hexDecode [34; 97; 98; 122; 122; 34]) as [_ Hlong].
  split; [apply Hshort; simpl; lia|].
  destruct Hlong as (a & Ha & Hlen & Hbytes); [simpl; lia|]. exists a.
  split; [done|]. split; [done|]. split; [apply (Hbytes 0%nat)|apply (Hbytes 1%nat)]; lia.
Defined.

End Chunk.

(** ** pow/ezp/pow.go *)

Module Ezp.

(** [encoding/binary.PutUvarint(buf, x)]:
    [i := 0; for x >= 0x80 { buf[i] = byte(x) | 0x80; x >>= 7; i++ };
     buf[i] = byte(x); return i + 1].
    A [uint64] has at most ten groups of seven bits, so the loop body runs at
    most nine times ([n] counts the runs left) before the last write.  A write
    past the end of [buf] panics ([None]). *)
Definition store (buf : list Z) (i : nat) (v : Z) : option (list Z) :=
  if (i <? length buf)%nat then Some (<[i := v]> buf) else None.

Fixpoint putUvarintFrom (n : nat) (buf : list Z) (x : Z) (i : nat)
  : option (list Z * Z) :=
  match n with
  | S n' =>
      if 128 <=? x then
        match store buf i (Z.lor (x mod 256) 128) with
        | Some buf' => putUvarintFrom n' buf' (Z.shiftr x 7) (S i)
        | None => None
        end
      else
        match store buf i (x mod 256) with
        | Some buf' => Some (buf', Z.of_nat i + 1)
        | None => None
        end
  | O =>
      match store buf i (x mod 256) with
      | Some buf' => Some (buf', Z.of_nat i + 1)
      | None => None
      end
  end.

Definition PutUvarint (buf : list Z) (x : Z) : option (list Z * Z) :=
  putUvarintFrom 9 buf x 0.

(** [ethutil.BigD(data)]: the bytes read as an unsigned big-endian integer. *)
Definition BigD (data : list Z) : Z :=
  fold_left (fun acc b => acc * 256 + b) data 0.

(** [ethutil.BigPow(a, b)] *)
Definition BigPow (a b : Z) : Z := a ^ b.

(** [new(big.Int).Div(x, y)]: Euclidean division of math/big; it panics on a
    zero divisor ([None]). *)
Definition bigDiv (x y : Z) : option Z :=
  if y =? 0 then None else Some (Z.sgn y * (x / Z.abs y)).

Section Verify.

(** [sha3.NewKeccak256()]: [Write] followed by [Sum(nil)], a digest of 32
    bytes; the primitive itself is outside the repository. *)
Variable Keccak256 : list Z -> list Z.

(** [func verify(hash []byte, diff *big.Int, nonce uint64) bool] *)
Definition verify (hash : list Z) (diff : Z) (nonce : Z) : option bool :=
  let nonce_buf := replicate 8 0 in
  match PutUvarint nonce_buf nonce with
  | None => None
  | Some (nonce_buf, _) =>
      let d := hash ++ nonce_buf in
      match bigDiv (BigPow 2 256) diff with
      | None => None
      | Some verification =>
          let res := BigD (Keccak256 d) in
          Some (res <=? verification)
      end
  end.

End Verify.

(** A stand-in digest used to run [verify] on concrete inputs: 31 zero bytes
    followed by the length of the input modulo 256. *)
Definition lengthDigest (d : list Z) : list Z :=
  replicate 31 0 ++ [Z.of_nat (length d) mod 256].

(** *** The nonce buffer *)

Lemma store_length buf i v buf' :
  store buf i v = Some buf' -> length buf' = length buf.
Proof.
  unfold store. destruct (_ <? _)%nat; [|done].
  intros [= <-]. apply length_insert.
Qed.

Lemma store_Some buf i v : (i < length buf)%nat -> store buf i v = Some (<[i := v]> buf).
Proof.
  intros Hi. unfold store. destruct (Nat.ltb_spec i (length buf)); [done|lia].
Qed.

Lemma store_None buf i v : (length buf <= i)%nat -> store buf i v = None.
Proof.
  intros Hi. unfold store. destruct (Nat.ltb_spec i (length buf)); [lia|done].
Qed.

(** Below [2^56] the encoding fits the eight bytes. *)
Lemma putUvarintFrom_fits n buf x i :
  length buf = 8%nat -> (i < 8)%nat -> 0 <= x < 2 ^ (7 * (8 - Z.of_nat i)) ->
  exists buf' k, putUvarintFrom n buf x i = Some (buf', k) /\ length buf' = 8%nat.
Proof.
  revert buf x i. induction n as [|n IH]; intros buf x i Hlen Hi Hx; simpl.
  - rewrite store_Some by lia. eexists _, _. split; [done|].
    by rewrite length_insert.
  - destruct (Z.leb_spec 128 x) as [Hge|Hlt].
    + rewrite store_Some by lia.
      assert (Hi' : (i < 7)%nat).
      { destruct (decide (i = 7%nat)) as [->|]; [|lia].
        change (2 ^ (7 * (8 - Z.of_nat 7))) with 128 in Hx. lia. }
      apply IH; [by rewrite length_insert|lia|].
      rewrite Z.shiftr_div_pow2 by lia. split.
      * apply Z.div_pos; lia.
      * apply Z.div_lt_upper_bound; [lia|].
        rewrite <- Z.pow_add_r by lia.
        replace (7 + 7 * (8 - Z.of_nat (Datatypes.S i))) with (7 * (8 - Z.of_nat i)) by lia.
        lia.
    + rewrite store_Some by lia. eexists _, _. split; [done|].
      by rewrite length_insert.
Qed.

(** From [2^56] on the ninth byte is written past the end of the buffer. *)
Lemma putUvarintFrom_overflow n buf x i :
  length buf = 8%nat -> (i <= 8)%nat -> (8 - i < n)%nat \/ (8 <= i)%nat ->
  2 ^ (7 * (8 - Z.of_nat i)) <= x ->
  putUvarintFrom n buf x i = None.
Proof.
  revert buf x i. induction n as [|n IH]; intros buf x i Hlen Hi Hn Hx; simpl.
  - rewrite store_None by lia. done.
  - destruct (decide (i = 8%nat)) as [->|Hne].
    + destruct (128 <=? x); by rewrite store_None by lia.
    + assert (Hge : 128 <= x).
      { etrans; [|exact Hx]. change 128 with (2 ^ 7).
        apply Z.pow_le_mono_r; lia. }
      destruct (Z.leb_spec 128 x); [|lia].
      rewrite store_Some by lia.
      apply IH; [by rewrite length_insert|lia|lia|].
      rewrite Z.shiftr_div_pow2 by lia.
      apply Z.div_le_lower_bound; [lia|].
      rewrite <- Z.pow_add_r by lia.
      replace (7 + 7 * (8 - Z.of_nat (Datatypes.S i))) with (7 * (8 - Z.of_nat i)) by lia.
      done.
Qed.

Lemma PutUvarint_small x :
  0 <= x < 2 ^ 56 ->
  exists buf k, PutUvarint (replicate 8 0) x = Some (buf, k) /\ length buf = 8%nat.
Proof. intros Hx. apply putUvarintFrom_fits; [done|lia|done]. Qed.

Lemma PutUvarint_large x :
  2 ^ 56 <= x -> PutUvarint (replicate 8 0) x = None.
Proof. intros Hx. apply putUvarintFrom_overflow; [done|lia|lia|done]. Qed.

(** [verify] panics on every nonce from [2^56] on. *)
Lemma verify_large_nonce Keccak256 hash D nonce :
  2 ^ 56 <= nonce -> verify Keccak256 hash D nonce = None.
Proof. intros Hn. unfold verify. by rewrite PutUvarint_large. Qed.

Lemma BigD_app l b : BigD (l ++ [b]) = BigD l * 256 + b.
Proof. unfold BigD. by rewrite fold_left_app. Qed.

(** A digest of 32 bytes read as an integer is below [2^256]. *)
Lemma BigD_bound l :
  Forall (fun b => 0 <= b < 256) l -> 0 <= BigD l < 256 ^ Z.of_nat (length l).
Proof.
  induction l as [|b l IH] using rev_ind; intros Hall.
  - done.
  - apply Forall_app in Hall as [Hl Hb]. apply Forall_inv in Hb.
    rewrite BigD_app, length_app, Nat2Z.inj_add.
    rewrite Z.pow_add_r; [|lia|simpl; lia].
    specialize (IH Hl). cbv beta in Hb. simpl length.
    change (256 ^ Z.of_nat 1) with 256.
    set (P := 256 ^ Z.of_nat (length l)) in *. clearbody P. lia.
Qed.

(** C2, at the failing input [D = 1], [nonce = 2^56]: the target [2^256 / 1]
    is at least every 32-byte digest, so the check of the claim holds whatever
    the nonce buffer is, yet [verify] does not accept: writing the nonce
    overruns the 8-byte buffer and the call panics. *)
Theorem verify_not_accepting_within_target (Keccak256 : list Z -> list Z) (hash : list Z) :
  verify Keccak256 hash 1 (2 ^ 56) = None /\
  (forall digest, length digest = 32%nat ->
     Forall (fun b => 0 <= b < 256) digest -> BigD digest <= 2 ^ 256 / 1).
Proof.
  split.
  - apply verify_large_nonce. lia.
  - intros digest Hlen Hbytes. apply BigD_bound in Hbytes. rewrite Hlen in Hbytes.
    change (256 ^ Z.of_nat 32) with (2 ^ 256) in Hbytes.
    rewrite Z.div_1_r. lia.
Qed.

(** C9, at the failing input [nonce = 2^56]: [verify] returns no boolean; the
    varint encoding of the nonce takes nine bytes and the ninth write is past
    the end of the 8-byte buffer. *)
Theorem verify_panics_at_2_56 (Keccak256 : list Z -> list Z) (hash : list Z) (diff : Z) :
  verify Keccak256 hash diff (2 ^ 56) = None /\
  PutUvarint (replicate 8 0) (2 ^ 56) = None.
Proof.
  split; [apply verify_large_nonce; lia | reflexivity].
Qed.

(** *** When [verify] returns, and how the difficulty orders its answers *)

(** X8: [verify] returns a boolean exactly when the difficulty is not zero
    and the nonce is below [2^56]; on a zero difficulty the division panics,
    on a larger nonce the write to the nonce buffer does. *)
Theorem verify_returns_iff (Keccak256 : list Z -> list Z) (hash : list Z) (diff nonce : Z) :
  0 <= nonce ->
  is_Some (verify Keccak256 hash diff nonce) <-> diff <> 0 /\ nonce < 2 ^ 56.
Proof.
  intros Hn. split.
  - intros [b Hb]. destruct (Z_lt_le_dec nonce (2 ^ 56)) as [Hlt|Hge].
    + split; [|done]. intros ->. unfold verify in Hb.
      destruct (PutUvarint _ _) as [[buf k]|]; [|done]. done.
    + by rewrite verify_large_nonce in Hb.
  - intros [Hd Hlt]. unfold verify.
    destruct (PutUvarint_small nonce (conj Hn Hlt)) as (buf & k & -> & _).
    unfold bigDiv. by destruct (Z.eqb_spec diff 0).
Qed.

Lemma verify_returns_iff_witness :
  is_Some (verify lengthDigest [1; 2; 3] 1000 300) /\
  ~ is_Some (verify lengthDigest [1; 2; 3] 0 300).
Proof.
  split.
  - apply (verify_returns_iff lengthDigest [1; 2; 3] 1000 300); lia.
  - intros Hs. apply (verify_returns_iff lengthDigest [1; 2; 3] 0 300) in Hs; lia.
Defined.

(** X9: a nonce accepted at a difficulty is accepted at every smaller
    positive difficulty for the same hash. *)
Theorem verify_easier_difficulty (Keccak256 : list Z -> list Z) (hash : list Z)
    (D D' nonce : Z) :
  0 < D' <= D ->
  verify Keccak256 hash D nonce = Some true ->
  verify Keccak256 hash D' nonce = Some true.
Proof.
  intros HD. unfold verify.
  destruct (PutUvarint _ _) as [[buf k]|]; [|done].
  unfold bigDiv, BigPow.
  destruct (Z.eqb_spec D 0); [lia|]. destruct (Z.eqb_spec D' 0); [lia|].
  rewrite !Z.sgn_pos, !Z.abs_eq, !Z.mul_1_l by lia.
  intros [= Hle]. f_equal. apply Z.leb_le in Hle. apply Z.leb_le.
  etrans; [exact Hle|]. apply Z.div_le_compat_l; lia.
Qed.

Lemma verify_easier_difficulty_witness :
  verify lengthDigest [1; 2; 3] 7 300 = Some true.
Proof.
  apply (verify_easier_difficulty lengthDigest [1; 2; 3] 1000 7 300);
    [lia | reflexivity].
Defined.

(** *** The hashed input *)

(** [d := append(hash, nonce_buf...)], the bytes that [verify] hashes. *)
Definition hashed (hash : list Z) (nonce : Z) : option (list Z) :=
  match PutUvarint (replicate 8 0) nonce with
  | Some (nonce_buf, _) => Some (hash ++ nonce_buf)
  | None => None
  end.

Lemma verify_hashed Keccak256 hash diff nonce :
  verify Keccak256 hash diff nonce =
    match hashed hash nonce with
    | None => None
    | Some d =>
        match bigDiv (BigPow 2 256) diff with
        | None => None
        | Some verification => Some (BigD (Keccak256 d) <=? verification)
        end
    end.
Proof.
  unfold verify, hashed. by destruct (PutUvarint _ _) as [[buf k]|].
Qed.

Lemma store_inv buf i v buf' :
  store buf i v = Some buf' -> (i < length buf)%nat /\ buf' = <[i := v]> buf.
Proof.
  unfold store. destruct (Nat.ltb_spec i (length buf)); [|done].
  by intros [= <-].
Qed.

(** The encoding leaves the bytes before its first write alone. *)
Lemma putUvarintFrom_before n buf x i b k j :
  putUvarintFrom n buf x i = Some (b, k) -> (j < i)%nat -> b !! j = buf !! j.
Proof.
  revert buf x i. induction n as [|n IH]; intros buf x i; simpl.
  - destruct (store _ _ _) as [buf'|] eqn:Hst; [|done].
    apply store_inv in Hst as [_ ->]. intros [= <- _] Hj.
    apply list_lookup_insert_ne. lia.
  - destruct (128 <=? x).
    + destruct (store _ _ _) as [buf'|] eqn:Hst; [|done].
      apply store_inv in Hst as [_ ->]. intros Hrec Hj.
      rewrite (IH _ _ _ Hrec) by lia. apply list_lookup_insert_ne. lia.
    + destruct (store _ _ _) as [buf'|] eqn:Hst; [|done].
      apply store_inv in Hst as [_ ->]. intros [= <- _] Hj.
      apply list_lookup_insert_ne. lia.
Qed.

Lemma continuation_byte a : 0 <= a < 256 -> Z.lor a 128 = 128 + a mod 128.
Proof.
  intros Ha.
  assert (Hall : forallb (fun a => Z.lor a 128 =? 128 + a mod 128) (seqZ 0 256) = true)
    by reflexivity.
  rewrite forallb_forall in Hall. apply Z.eqb_eq, Hall.
  apply list_elem_of_In, elem_of_seqZ. lia.
Qed.

(** The byte that the encoding of [x] has at index [j]: seven bits of [x],
    and the continuation bit while higher bits follow. *)
Definition uvarintByte (x : Z) (j : nat) : Z :=
  (x / 128 ^ Z.of_nat j) mod 128 + (if 128 ^ (Z.of_nat j + 1) <=? x then 128 else 0).

Lemma uvarintByte_last x j :
  0 <= x < 128 -> uvarintByte x j = if decide (j = 0%nat) then x else 0.
Proof.
  intros Hx. unfold uvarintByte.
  assert (Hpow : 128 <= 128 ^ (Z.of_nat j + 1)).
  { change 128 with (128 ^ 1) at 1. apply Z.pow_le_mono_r; lia. }
  destruct (Z.leb_spec (128 ^ (Z.of_nat j + 1)) x); [lia|].
  destruct (decide (j = 0%nat)) as [->|Hj].
  - change (128 ^ Z.of_nat 0) with 1. rewrite Z.div_1_r, Z.mod_small by lia. lia.
  - rewrite Z.div_small; [done|]. split; [lia|].
    assert (128 <= 128 ^ Z.of_nat j); [|lia].
    change 128 with (128 ^ 1) at 1. apply Z.pow_le_mono_r; lia.
Qed.

Lemma uvarintByte_shift x j :
  0 <= x -> uvarintByte (Z.shiftr x 7) j = uvarintByte x (Datatypes.S j).
Proof.
  intros Hx. unfold uvarintByte. rewrite Z.shiftr_div_pow2 by lia.
  change (2 ^ 7) with 128.
  replace (Z.of_nat (Datatypes.S j)) with (1 + Z.of_nat j) by lia.
  rewrite (Z.pow_add_r 128 1 (Z.of_nat j)) by lia. change (128 ^ 1) with 128.
  rewrite Z.div_div by lia. f_equal.
  replace (1 + Z.of_nat j + 1) with (1 + (Z.of_nat j + 1)) by lia.
  rewrite (Z.pow_add_r 128 1 (Z.of_nat j + 1)) by lia. change (128 ^ 1) with 128.
  set (P := 128 ^ (Z.of_nat j + 1)).
  assert (HP : 0 < P) by (apply Z.pow_pos_nonneg; lia).
  destruct (Z.leb_spec P (x / 128)) as [Hle|Hlt];
    destruct (Z.leb_spec (128 * P) x) as [Hle'|Hlt']; try done.
  - exfalso. assert (x / 128 < P); [|lia].
    apply Z.div_lt_upper_bound; lia.
  - exfalso. assert (P <= x / 128); [|lia].
    apply Z.div_le_lower_bound; lia.
Qed.

(** The bytes that the encoding writes: from its first index on, a buffer of
    zeros receives the bytes of the encoding, with zeros behind them. *)
Lemma putUvarintFrom_bytes n buf x i buf' k :
  0 <= x < 128 ^ (Z.of_nat n + 1) ->
  (forall j, (i <= j)%nat -> (j < length buf)%nat -> buf !! j = Some 0) ->
  putUvarintFrom n buf x i = Some (buf', k) ->
  forall j, (i <= j)%nat -> (j < length buf)%nat ->
    buf' !! j = Some (uvarintByte x (j - i)).
Proof.
  revert buf x i buf' k.
  assert (Hlast : forall buf x i buf' k,
            0 <= x < 128 ->
            (forall j, (i <= j)%nat -> (j < length buf)%nat -> buf !! j = Some 0) ->
            match store buf i (x mod 256) with
            | Some b1 => Some (b1, Z.of_nat i + 1)
            | None => None
            end = Some (buf', k) ->
            forall j, (i <= j)%nat -> (j < length buf)%nat ->
              buf' !! j = Some (uvarintByte x (j - i))).
  { intros buf x i buf' k Hx Hzero.
    destruct (store buf i (x mod 256)) as [b1|] eqn:Hst; [|done].
    apply store_inv in Hst as [Hi ->]. intros [= <- _] j Hij Hj.
    rewrite uvarintByte_last by done. rewrite Z.mod_small by lia.
    destruct (decide (j - i = 0)%nat) as [Heq|Hne].
    - replace j with i by lia. by rewrite list_lookup_insert_eq.
    - rewrite list_lookup_insert_ne by lia. apply Hzero; lia. }
  induction n as [|n IH]; intros buf x i buf' k Hx Hzero; simpl.
  - apply Hlast; [|done]. by change (128 ^ (Z.of_nat 0 + 1)) with 128 in Hx.
  - destruct (Z.leb_spec 128 x) as [Hge|Hlt]; [|by apply Hlast; [lia|]].
    destruct (store buf i _) as [b1|] eqn:Hst; [|done].
    apply store_inv in Hst as [Hi ->]. intros Hrec j Hij Hj.
    destruct (decide (j = i)) as [->|Hne].
    + rewrite (putUvarintFrom_before _ _ _ _ _ _ i Hrec) by lia.
      rewrite list_lookup_insert_eq by done. f_equal.
      replace (i - i)%nat with 0%nat by lia. unfold uvarintByte.
      change (128 ^ Z.of_nat 0) with 1. change (128 ^ (Z.of_nat 0 + 1)) with 128.
      rewrite Z.div_1_r. destruct (Z.leb_spec 128 x); [|lia].
      rewrite continuation_byte by (apply Z.mod_pos_bound; lia).
      Z.to_euclidean_division_equations. lia.
    + replace (j - i)%nat with (Datatypes.S (j - Datatypes.S i)) by lia.
      rewrite <- uvarintByte_shift by lia.
      apply (IH (<[i := Z.lor (x mod 256) 128]> buf) (Z.shiftr x 7) (Datatypes.S i) buf' k).
      * rewrite Z.shiftr_div_pow2 by lia. change (2 ^ 7) with 128. split.
        -- apply Z.div_pos; lia.
        -- apply Z.div_lt_upper_bound; [lia|].
           replace (Z.of_nat (Datatypes.S n) + 1) with (1 + (Z.of_nat n + 1)) in Hx by lia.
           rewrite (Z.pow_add_r 128 1 (Z.of_nat n + 1)) in Hx by lia.
           change (128 ^ 1) with 128 in Hx. lia.
      * intros j' Hij' Hj'. rewrite length_insert in Hj'.
        rewrite list_lookup_insert_ne by lia. apply Hzero; lia.
      * done.
      * lia.
      * by rewrite length_insert.
Qed.

(** X1: for a difficulty [D > 0] and a nonce below [2^56], [verify] returns
    the comparison of the digest with the target [2^256 / D], where the
    digest is taken of the hash followed by the 8-byte buffer that
    [PutUvarint] filled with the nonce: byte [j] of that buffer holds bits
    [7j .. 7j+6] of the nonce, with the top bit set while higher bits of the
    nonce follow, and 0 behind the encoding. *)
Theorem verify_small_nonce (Keccak256 : list Z -> list Z) (hash : list Z) (D nonce : Z) :
  0 < D -> 0 <= nonce < 2 ^ 56 ->
  exists buf k,
    PutUvarint (replicate 8 0) nonce = Some (buf, k) /\ length buf = 8%nat /\
    (forall j, (j < 8)%nat -> buf !! j = Some (uvarintByte nonce j)) /\
    verify Keccak256 hash D nonce =
      Some (BigD (Keccak256 (hash ++ buf)) <=? 2 ^ 256 / D).
Proof.
  intros HD Hn. destruct (PutUvarint_small nonce Hn) as (buf & k & Hput & Hlen).
  exists buf, k. split; [done|]. split; [done|]. split.
  - intros j Hj.
    rewrite (putUvarintFrom_bytes 9 (replicate 8 0) nonce 0 buf k); [| | |exact Hput|lia|].
    + by replace (j - 0)%nat with j by lia.
    + change (128 ^ (Z.of_nat 9 + 1)) with (2 ^ 70). lia.
    + intros j' _ Hj'. rewrite length_replicate in Hj'. by apply lookup_replicate_2.
    + by rewrite length_replicate.
  - unfold verify. rewrite Hput.
    unfold bigDiv, BigPow. destruct (Z.eqb_spec D 0); [lia|].
    rewrite Z.sgn_pos, Z.abs_eq by lia. by rewrite Z.mul_1_l.
Qed.

Lemma verify_small_nonce_witness :
  exists buf, PutUvarint (replicate 8 0) 300 = Some (buf, 2) /\
    buf !! 0%nat = Some 172 /\ buf !! 1%nat = Some 2 /\ buf !! 2%nat = Some 0 /\
    verify lengthDigest [1; 2; 3] 1000 300 =
      Some (BigD (lengthDigest ([1; 2; 3] ++ buf)) <=? 2 ^ 256 / 1000).
Proof.
  destruct (verify_small_nonce lengthDigest [1; 2; 3] 1000 300)
    as (buf & k & Hput & _ & Hbytes & Hv); [lia|lia|].
  exists buf. split; [|split; [|split; [|split]]].
  - rewrite Hput. f_equal. f_equal. vm_compute in Hput. by injection Hput as _ <-.
  - apply (Hbytes 0%nat). lia.
  - apply (Hbytes 1%nat). lia.
  - apply (Hbytes 2%nat). lia.
  - exact Hv.
Defined.

(** Two values encoded from the same position into the same buffer and
    giving the same bytes are equal. *)
Lemma putUvarintFrom_inj n buf x y i b kx ky :
  0 <= x < 2 ^ (7 * (Z.of_nat n + 1)) -> 0 <= y < 2 ^ (7 * (Z.of_nat n + 1)) ->
  putUvarintFrom n buf x i = Some (b, kx) ->
  putUvarintFrom n buf y i = Some (b, ky) ->
  x = y.
Proof.
  revert buf x y i. induction n as [|n IH]; intros buf x y i Hx Hy; simpl.
  - change (2 ^ (7 * (Z.of_nat 0 + 1))) with 128 in *.
    destruct (store buf i (x mod 256)) as [bx|] eqn:Hsx; [|done].
    destruct (store buf i (y mod 256)) as [by'|] eqn:Hsy; [|done].
    apply store_inv in Hsx as [Hi ->]. apply store_inv in Hsy as [_ ->].
    intros [= <- _] [= Heq _].
    apply (f_equal (fun l => l !! i)) in Heq.
    rewrite !list_lookup_insert_eq in Heq by done.
    injection Heq as Heq. rewrite !Z.mod_small in Heq by lia. done.
  - assert (Hshift : forall z, 0 <= z < 2 ^ (7 * (Z.of_nat (Datatypes.S n) + 1)) ->
               0 <= Z.shiftr z 7 < 2 ^ (7 * (Z.of_nat n + 1))).
    { intros z Hz. rewrite Z.shiftr_div_pow2 by lia. split.
      - apply Z.div_pos; lia.
      - apply Z.div_lt_upper_bound; [lia|]. rewrite <- Z.pow_add_r by lia.
        replace (7 + 7 * (Z.of_nat n + 1)) with (7 * (Z.of_nat (Datatypes.S n) + 1)) by lia.
        lia. }
    destruct (Z.leb_spec 128 x) as [Hxge|Hxlt];
      destruct (Z.leb_spec 128 y) as [Hyge|Hylt].
    + destruct (store buf i _) as [bx|] eqn:Hsx; [|done].
      destruct (store buf i (Z.lor (y mod 256) 128)) as [by'|] eqn:Hsy; [|done].
      apply store_inv in Hsx as [Hi ->]. apply store_inv in Hsy as [_ ->].
      intros Hrx Hry.
      pose proof (putUvarintFrom_before _ _ _ _ _ _ i Hrx (Nat.lt_succ_diag_r i)) as Hbx.
      pose proof (putUvarintFrom_before _ _ _ _ _ _ i Hry (Nat.lt_succ_diag_r i)) as Hby.
      rewrite list_lookup_insert_eq in Hbx by done.
      rewrite list_lookup_insert_eq in Hby by done.
      assert (Hlow : Z.lor (x mod 256) 128 = Z.lor (y mod 256) 128) by congruence.
      rewrite Hlow in Hrx.
      pose proof (IH _ _ _ _ (Hshift x Hx) (Hshift y Hy) Hrx Hry) as Hhigh.
      rewrite !continuation_byte in Hlow by (apply Z.mod_pos_bound; lia).
      rewrite !Z.shiftr_div_pow2 in Hhigh by lia.
      change (2 ^ 7) with 128 in Hhigh.
      revert Hlow Hhigh. Z.to_euclidean_division_equations. lia.
    + destruct (store buf i _) as [bx|] eqn:Hsx; [|done].
      destruct (store buf i (y mod 256)) as [by'|] eqn:Hsy; [|done].
      apply store_inv in Hsx as [Hi ->]. apply store_inv in Hsy as [_ ->].
      intros Hrx [= <- _].
      pose proof (putUvarintFrom_before _ _ _ _ _ _ i Hrx (Nat.lt_succ_diag_r i)) as Hbx.
      rewrite !list_lookup_insert_eq in Hbx by done. injection Hbx as Hbx.
      rewrite continuation_byte in Hbx by (apply Z.mod_pos_bound; lia).
      rewrite (Z.mod_small y) in Hbx by lia.
      revert Hbx. Z.to_euclidean_division_equations. lia.
    + destruct (store buf i (x mod 256)) as [bx|] eqn:Hsx; [|done].
      destruct (store buf i (Z.lor (y mod 256) 128)) as [by'|] eqn:Hsy; [|done].
      apply store_inv in Hsx as [Hi ->]. apply store_inv in Hsy as [_ ->].
      intros [= <- _] Hry.
      pose proof (putUvarintFrom_before _ _ _ _ _ _ i Hry (Nat.lt_succ_diag_r i)) as Hby.
      rewrite !list_lookup_insert_eq in Hby by done. injection Hby as Hby.
      rewrite continuation_byte in Hby by (apply Z.mod_pos_bound; lia).
      rewrite (Z.mod_small x) in Hby by lia.
      revert Hby. Z.to_euclidean_division_equations. lia.
    + destruct (store buf i (x mod 256)) as [bx|] eqn:Hsx; [|done].
      destruct (store buf i (y mod 256)) as [by'|] eqn:Hsy; [|done].
      apply store_inv in Hsx as [Hi ->]. apply store_inv in Hsy as [_ ->].
      intros [= <- _] [= Heq _].
      apply (f_equal (fun l => l !! i)) in Heq.
      rewrite !list_lookup_insert_eq in Heq by done.
      injection Heq as Heq. rewrite !Z.mod_small in Heq by lia. done.
Qed.

(** X10: the bytes that [verify] hashes determine the hash and the nonce:
    two calls whose hashed inputs coincide were made with the same block hash
    and the same nonce, so no two 64-bit nonces of one block share a digest
    by construction. *)
Theorem hashed_injective (h1 h2 : list Z) (x y : Z) (d : list Z) :
  0 <= x < 2 ^ 64 -> 0 <= y < 2 ^ 64 ->
  hashed h1 x = Some d -> hashed h2 y = Some d ->
  h1 = h2 /\ x = y.
Proof.
  intros Hx Hy. unfold hashed.
  destruct (PutUvarint _ x) as [[bx kx]|] eqn:Hpx; [|done].
  destruct (PutUvarint _ y) as [[by' ky]|] eqn:Hpy; [|done].
  intros [= <-] [= Heq].
  assert (Hlx : length bx = 8%nat).
  { destruct (Z_lt_le_dec x (2 ^ 56)) as [Hlt|Hge].
    - destruct (PutUvarint_small x (conj (proj1 Hx) Hlt)) as (b & k & Hb & Hl).
      congruence.
    - by rewrite PutUvarint_large in Hpx. }
  assert (Hly : length by' = 8%nat).
  { destruct (Z_lt_le_dec y (2 ^ 56)) as [Hlt|Hge].
    - destruct (PutUvarint_small y (conj (proj1 Hy) Hlt)) as (b & k & Hb & Hl).
      congruence.
    - by rewrite PutUvarint_large in Hpy. }
  apply app_inj_2 in Heq as [Hh Hb]; [|congruence].
  split; [done|]. subst by'.
  apply (putUvarintFrom_inj 9 (replicate 8 0) x y 0 bx kx ky); [| |done|done].
  - change (2 ^ (7 * (Z.of_nat 9 + 1))) with (2 ^ 70). lia.
  - change (2 ^ (7 * (Z.of_nat 9 + 1))) with (2 ^ 70). lia.
Qed.

Lemma hashed_injective_witness :
  hashed [1; 2; 3] 300 = Some [1; 2; 3; 172; 2; 0; 0; 0; 0; 0; 0] /\
  forall h y, 0 <= y < 2 ^ 64 ->
    hashed h y = Some [1; 2; 3; 172; 2; 0; 0; 0; 0; 0; 0] -> h = [1; 2; 3] /\ y = 300.
Proof.
  split; [reflexivity|]. intros h y Hy Hd.
  destruct (hashed_injective [1; 2; 3] h 300 y [1; 2; 3; 172; 2; 0; 0; 0; 0; 0; 0])
    as [Hh Hn]; [lia|done|reflexivity|done|]. by split.
Defined.

(** *** The search *)

(** [pow.Block], as far as the package reads it. *)
Record Block := { HashNoNonce : list Z; Difficulty : Z; Nonce : Z }.

Definition withNonce (block : Block) (nonce : Z) : Block :=
  {| HashNoNonce := HashNoNonce block; Difficulty := Difficulty block; Nonce := nonce |}.

(** [type EasyPow struct]; the field [hash] is never read or written. *)
Record EasyPow := { HashRate : Z; turbo : bool }.

(** [func New() *EasyPow] *)
Definition New : EasyPow := {| HashRate := 0; turbo := false |}.

(** [func (pow *EasyPow) GetHashrate() int64] *)
Definition GetHashrate (pow : EasyPow) : Z := HashRate pow.

(** [func (pow *EasyPow) Turbo(on bool)] *)
Definition Turbo (on : bool) (pow : EasyPow) : EasyPow :=
  {| HashRate := HashRate pow; turbo := on |}.

Definition setHashRate (rate : Z) (pow : EasyPow) : EasyPow :=
  {| HashRate := rate; turbo := turbo pow |}.

(** One pass of the main loop of [Search], as its surroundings decide it:
    either the stop channel delivers, or the [default] branch runs with the
    rate computed from the clock and the value drawn from [r.Int63()]. *)
Inductive pass :=
  | Stop
  | Draw (rate : Z) (nonce : Z).

(** How a run of [Search] over finitely many passes ends: it returns
    [(nonce, nil, nil)], it panics, or it is still searching. *)
Inductive outcome :=
  | Returned (nonce : Z)
  | Panicked
  | Searching.

(** What happened on the way: every rejected nonce is followed by a sleep of
    20 microseconds unless [turbo] is set. *)
Record run := { result : outcome; after : EasyPow; sleeps : nat }.

Section Search.

Variable Keccak256 : list Z -> list Z.

(** [func Verify(block pow.Block) bool] *)
Definition Verify (block : Block) : option bool :=
  verify Keccak256 (HashNoNonce block) (Difficulty block) (Nonce block).

(** [func (pow *EasyPow) Verify(block pow.Block) bool] *)
Definition EasyPow_Verify (pow : EasyPow) (block : Block) : option bool := Verify block.

(** The loop [for { select { case <-stop: ... default: ... }; sleep }]. *)
Fixpoint searchLoop (hash : list Z) (diff : Z) (pow : EasyPow) (slept : nat)
    (passes : list pass) : run :=
  match passes with
  | [] => {| result := Searching; after := pow; sleeps := slept |}
  | Stop :: _ => {| result := Returned 0; after := pow; sleeps := slept |}
  | Draw rate nonce :: rest =>
      let pow := setHashRate rate pow in
      match verify Keccak256 hash diff nonce with
      | None => {| result := Panicked; after := pow; sleeps := slept |}
      | Some true => {| result := Returned nonce; after := pow; sleeps := slept |}
      | Some false =>
          searchLoop hash diff pow (if turbo pow then slept else Datatypes.S slept) rest
      end
  end.

(** [func (pow *EasyPow) Search(block pow.Block, stop <-chan struct{})
    (uint64, []byte, []byte)].  The [pending] signals already waiting on the
    stop channel are received and dropped by the first loop; the deferred
    function clears [HashRate] however the call ends. *)
Definition Search (pow : EasyPow) (block : Block) (pending : nat) (passes : list pass)
  : run :=
  let r := searchLoop (HashNoNonce block) (Difficulty block) pow 0 passes in
  match result r with
  | Searching => r
  | _ => {| result := result r; after := setHashRate 0 (after r); sleeps := sleeps r |}
  end.

Definition rejected (block : Block) (p : pass) : Prop :=
  match p with
  | Stop => False
  | Draw _ nonce => Verify (withNonce block nonce) = Some false
  end.

Lemma searchLoop_turbo hash diff pow slept passes :
  turbo (after (searchLoop hash diff pow slept passes)) = turbo pow.
Proof.
  revert pow slept. induction passes as [|[|rate nonce] rest IH]; intros pow slept;
    simpl; [done|done|].
  destruct (verify _ _ _ _) as [[|]|]; [done| |done].
  by rewrite IH.
Qed.

Lemma searchLoop_returned hash diff pow slept passes nonce :
  result (searchLoop hash diff pow slept passes) = Returned nonce ->
  nonce = 0 \/ verify Keccak256 hash diff nonce = Some true.
Proof.
  revert pow slept. induction passes as [|[|rate n] rest IH]; intros pow slept; simpl.
  - done.
  - intros [= <-]. by left.
  - destruct (verify _ _ _ n) as [[|]|] eqn:Hv.
    + intros [= <-]. by right.
    + apply IH.
    + done.
Qed.

Lemma searchLoop_rejected hash diff pow slept pre rest :
  Forall (fun p => match p with
                   | Stop => False
                   | Draw _ nonce => verify Keccak256 hash diff nonce = Some false
                   end) pre ->
  exists pow' slept',
    searchLoop hash diff pow slept (pre ++ rest) = searchLoop hash diff pow' slept' rest /\
    turbo pow' = turbo pow /\
    slept' = (if turbo pow then slept else slept + length pre)%nat.
Proof.
  intros Hpre. revert pow slept.
  induction Hpre as [|[|rate n] pre Hp _ IH]; intros pow slept.
  - exists pow, slept. split; [done|]. split; [done|]. destruct (turbo pow); simpl; lia.
  - done.
  - simpl. rewrite Hp.
    destruct (IH (setHashRate rate pow) (if turbo pow then slept else Datatypes.S slept))
      as (pow' & slept' & Heq & Ht & Hs).
    exists pow', slept'. split; [done|]. split; [done|].
    rewrite Hs. simpl. destruct (turbo pow); lia.
Qed.

End Search.

(** X11: a nonce returned by [Search], unless it is 0, makes the block pass
    [Verify]; the value 0 is also what a stopped search returns, so it tells
    nothing.  Whenever the call returns, the hash rate reads 0 afterwards and
    the turbo setting is as before. *)
Theorem Search_returns_verified (Keccak256 : list Z -> list Z) (pow : EasyPow)
    (block : Block) (pending : nat) (passes : list pass) (nonce : Z) :
  result (Search Keccak256 pow block pending passes) = Returned nonce ->
  (nonce <> 0 -> Verify Keccak256 (withNonce block nonce) = Some true) /\
  GetHashrate (after (Search Keccak256 pow block pending passes)) = 0 /\
  turbo (after (Search Keccak256 pow block pending passes)) = turbo pow.
Proof.
  unfold Search.
  pose proof (searchLoop_returned Keccak256 (HashNoNonce block) (Difficulty block)
                pow 0%nat passes) as Hret.
  pose proof (searchLoop_turbo Keccak256 (HashNoNonce block) (Difficulty block)
                pow 0%nat passes) as Hturbo.
  destruct (searchLoop _ _ _ _ _ _) as [[n| |] pow' slept]; simpl in *; [|done|done].
  intros [= ->]. split; [|done].
  intros Hne. destruct (Hret nonce eq_refl) as [->|Hv]; done.
Qed.

Lemma Search_returns_verified_witness :
  Verify lengthDigest (withNonce {| HashNoNonce := [1; 2; 3]; Difficulty := 1000; Nonce := 0 |} 300)
    = Some true.
Proof.
  apply (Search_returns_verified lengthDigest New
           {| HashNoNonce := [1; 2; 3]; Difficulty := 1000; Nonce := 0 |}
           2 [Draw 10 300; Stop] 300); [reflexivity | lia].
Defined.

(** X12: a search stops at the first signal on the stop channel or the
    first accepted nonce, and it panics as soon as a drawn value reaches
    [2^56] before either: after any number of rejected nonces such a draw
    ends the call in a panic, with the hash rate cleared and one sleep per
    rejected nonce unless turbo is set. *)
Theorem Search_panics_on_wide_nonce (Keccak256 : list Z -> list Z) (pow : EasyPow)
    (block : Block) (pending : nat) (pre rest : list pass) (rate nonce : Z) :
  Forall (rejected Keccak256 block) pre -> 2 ^ 56 <= nonce ->
  Search Keccak256 pow block pending (pre ++ Draw rate nonce :: rest) =
    {| result := Panicked;
       after := {| HashRate := 0; turbo := turbo pow |};
       sleeps := if turbo pow then 0%nat else length pre |}.
Proof.
  intros Hpre Hn. unfold Search.
  destruct (searchLoop_rejected Keccak256 (HashNoNonce block) (Difficulty block)
              pow 0%nat pre (Draw rate nonce :: rest)) as (pow' & slept' & -> & Ht & ->).
  { eapply Forall_impl; [exact Hpre|]. by intros [|r n]. }
  simpl. rewrite verify_large_nonce by done. simpl.
  unfold setHashRate. simpl. by rewrite Ht.
Qed.

Lemma Search_panics_on_wide_nonce_witness :
  Search lengthDigest New
    {| HashNoNonce := [1; 2; 3]; Difficulty := 2 ^ 256; Nonce := 0 |}
    0 ([Draw 10 300] ++ Draw 12 (2 ^ 60) :: [Stop]) =
  {| result := Panicked; after := New; sleeps := 1 |}.
Proof.
  apply (Search_panics_on_wide_nonce lengthDigest New
           {| HashNoNonce := [1; 2; 3]; Difficulty := 2 ^ 256; Nonce := 0 |}
           0 [Draw 10 300] [Stop] 12 (2 ^ 60)).
  - repeat constructor.
  - lia.
Defined.

End Ezp.

(** ** The filter engine (package whisper05, filter.go) *)

Module Whisper.

(** [*ecdsa.PublicKey]: a pointer ([None] is nil) to the point [(X, Y)]. *)
Record PublicKey := { X : Z; Y : Z }.

(** [TopicType] (four bytes) and [common.Hash] (32 bytes) are byte arrays
    compared by value. *)
Abbreviation TopicType := (list Z).
Abbreviation Hash := (list Z).

(** The fields of [ReceivedMessage] that the filter reads. *)
Record ReceivedMessage := {
  msgPoW : float;
  msgSrc : option PublicKey;
  msgDst : option PublicKey;
  Topic : TopicType;
  msgTopicKeyHash : Hash;
  EnvelopeHash : Hash
}.

(** [type Filter struct]: the matching criteria (the mailbox and its mutex
    play no part in matching). *)
Record Filter := {
  Src : option PublicKey;
  Dst : option PublicKey;
  KeyAsym : option Z;
  Topics : list TopicType;
  KeySym : option (list Z);
  TopicKeyHash : Hash;
  PoW : float
}.

Section Matching.

(** Declared in files of the package that are not part of the sources at
    hand: the key check used by [isEqual] and the two encryption tests of a
    received message. *)
Variable validatePublicKey : option PublicKey -> bool.
Variable isSymmetricEncryption : ReceivedMessage -> bool.
Variable isAsymmetricEncryption : ReceivedMessage -> bool.

(** [func (self *Filter) expectsAsymmetricEncryption() bool] *)
Definition expectsAsymmetricEncryption (self : Filter) : bool :=
  bool_decide (KeyAsym self <> None).

(** [func (self *Filter) expectsSymmetricEncryption() bool] *)
Definition expectsSymmetricEncryption (self : Filter) : bool :=
  bool_decide (KeySym self <> None).

(** [func isEqual(a, b *ecdsa.PublicKey) bool]; reading [a.X] through a nil
    pointer that passed the check panics ([None]). *)
Definition isEqual (a b : option PublicKey) : option bool :=
  if negb (validatePublicKey a) then Some false
  else if negb (validatePublicKey b) then Some false
  else
    match a, b with
    | Some a, Some b => Some ((X a =? X b) && (Y a =? Y b))
    | _, _ => None
    end.

(** [for _, t := range self.Topics { if t == msg.Topic { return true } }
     return false] *)
Fixpoint topicListed (topics : list TopicType) (topic : TopicType) : bool :=
  match topics with
  | [] => false
  | t :: rest => if bool_decide (t = topic) then true else topicListed rest topic
  end.

(** [func (self *Filter) MatchMessage(msg *ReceivedMessage) bool] *)
Definition MatchMessage (self : Filter) (msg : ReceivedMessage) : option bool :=
  if PrimFloat.ltb 0 (PoW self) && PrimFloat.ltb (msgPoW msg) (PoW self) then Some false
  else
    let sender :=
      match Src self with
      | None => Some true
      | Some _ => isEqual (msgSrc msg) (Src self)
      end in
    match sender with
    | None => None
    | Some false => Some false
    | Some true =>
        if expectsAsymmetricEncryption self && isAsymmetricEncryption msg then
          isEqual (Dst self) (msgDst msg)
        else if expectsSymmetricEncryption self && isSymmetricEncryption msg then
          if bool_decide (TopicKeyHash self = msgTopicKeyHash msg) then
            Some (topicListed (Topics self) (Topic msg))
          else Some false
        else Some false
    end.






End Matching.

(** The helpers as whisper defines them, to run the filter on concrete
    messages: a key is valid when it is present with non-zero coordinates, a
    message is symmetric when it carries a topic-key hash and asymmetric when
    it carries a recipient. *)
Definition validKey (k : option PublicKey) : bool :=
  match k with
  | Some k => negb (X k =? 0) && negb (Y k =? 0)
  | None => false
  end.

Definition hasKeyHash (msg : ReceivedMessage) : bool :=
  bool_decide (msgTopicKeyHash msg <> replicate 32 0).

Definition hasRecipient (msg : ReceivedMessage) : bool :=
  bool_decide (msgDst msg <> None).

Definition sampleHash : Hash := replicate 31 0 ++ [7].

Definition sampleFilter : Filter := {|
  Src := None; Dst := None; KeyAsym := None;
  Topics := [[1; 2; 3; 4]; [5; 6; 7; 8]];
  KeySym := Some [9; 9]; TopicKeyHash := sampleHash; PoW := 0.5%float
|}.

Definition sampleMessage (topic : TopicType) : ReceivedMessage := {|
  msgPoW := 1.5%float; msgSrc := None; msgDst := None;
  Topic := topic; msgTopicKeyHash := sampleHash; EnvelopeHash := replicate 32 1
|}.





(** *** The mailbox of a filter *)

(** [messages map[common.Hash]*ReceivedMessage]; [None] is the nil map of a
    [Filter] whose mailbox was never made. *)
Abbreviation mailbox := (gmap Hash ReceivedMessage).

(** [func (self *Filter) Trigger(msg *ReceivedMessage)], on the field
    [messages]: the new value of the field, or a panic ([None]) on the
    assignment to an entry of a nil map. *)
Definition Trigger (msg : ReceivedMessage) (messages : option mailbox)
  : option (option mailbox) :=
  match messages with
  | None => None
  | Some held =>
      match held !! EnvelopeHash msg with
      | Some _ => Some (Some held)
      | None => Some (Some (<[EnvelopeHash msg := msg]> held))
      end
  end.

(** [func (self *Filter) retrieve() (all []*ReceivedMessage)]: the messages
    held, in the order in which [range] visits the map (which Go leaves
    open), and the new value of the field. *)
Definition retrieve (messages : option mailbox)
  : list ReceivedMessage * option mailbox :=
  ((map_to_list (default ∅ messages)).*2, Some ∅).

(** A run of calls of [Trigger] on one filter. *)
Definition triggers (msgs : list ReceivedMessage) (messages : option mailbox)
  : option (option mailbox) :=
  foldl (fun acc msg => acc ≫= Trigger msg) (Some messages) msgs.

Definition firstWithHash (msgs : list ReceivedMessage) (msg : ReceivedMessage) : Prop :=
  exists i, msgs !! i = Some msg /\
    forall j other, msgs !! j = Some other -> (j < i)%nat ->
      EnvelopeHash other <> EnvelopeHash msg.

Lemma Trigger_idempotent msg messages messages' :
  Trigger msg messages = Some messages' -> Trigger msg messages' = Some messages'.
Proof.
  unfold Trigger. destruct messages as [held|]; [|done].
  destruct (held !! EnvelopeHash msg) as [old|] eqn:Hold.
  - intros [= <-]. by rewrite Hold.
  - intros [= <-]. by rewrite lookup_insert_eq.
Qed.

Lemma triggers_panic msgs : foldl (fun acc msg => acc ≫= Trigger msg) None msgs = None.
Proof. by induction msgs. Qed.

Lemma triggers_cons msg msgs messages :
  triggers (msg :: msgs) messages =
    match Trigger msg messages with
    | Some messages' => triggers msgs messages'
    | None => None
    end.
Proof.
  unfold triggers. simpl. destruct (Trigger msg messages); [done|apply triggers_panic].
Qed.

Lemma triggers_held msgs held :
  exists held', triggers msgs (Some held) = Some (Some held') /\
    forall h, held' !! h =
      match held !! h with
      | Some msg => Some msg
      | None => snd <$> list_find (fun msg => EnvelopeHash msg = h) msgs
      end.
Proof.
  revert held. induction msgs as [|msg msgs IH]; intros held.
  - exists held. split; [done|]. intros h. by destruct (held !! h).
  - rewrite triggers_cons. simpl Trigger.
    destruct (held !! EnvelopeHash msg) as [old|] eqn:Hold.
    + destruct (IH held) as (held' & -> & Hheld'). exists held'. split; [done|].
      intros h. rewrite Hheld'. destruct (held !! h) as [m|] eqn:Hh; [done|].
      simpl. destruct (decide (EnvelopeHash msg = h)) as [Heq|Hne]; [congruence|].
      by destruct (list_find _ msgs) as [[i m]|].
    + destruct (IH (<[EnvelopeHash msg := msg]> held)) as (held' & -> & Hheld').
      exists held'. split; [done|]. intros h. rewrite Hheld'.
      destruct (decide (EnvelopeHash msg = h)) as [Heq|Hne].
      * subst h. rewrite lookup_insert_eq, Hold. simpl.
        by destruct (decide (EnvelopeHash msg = EnvelopeHash msg)).
      * rewrite lookup_insert_ne by done.
        destruct (held !! h) as [m|]; [done|]. simpl.
        destruct (decide (EnvelopeHash msg = h)); [done|].
        by destruct (list_find _ msgs) as [[i m]|].
Qed.

(** X13: a mailbox keeps one message for each envelope hash, the first
    that was triggered: after any run of [Trigger] on an empty mailbox,
    [retrieve] hands out exactly the messages that were the first of their
    envelope hash in the run, and leaves the mailbox empty; on a filter whose
    map was never made the first [Trigger] panics. *)
Theorem retrieve_first_of_each_hash (msgs : list ReceivedMessage) :
  (exists held, triggers msgs (Some ∅) = Some (Some held) /\
     (forall msg, msg ∈ fst (retrieve (Some held)) <-> firstWithHash msgs msg) /\
     snd (retrieve (Some held)) = Some ∅ /\
     fst (retrieve (snd (retrieve (Some held)))) = []) /\
  (forall msg, triggers (msg :: msgs) None = None).
Proof.
  split.
  - destruct (triggers_held msgs ∅) as (held & Hrun & Hheld).
    exists held. split; [done|]. split; [|split; [done|]].
    + intros msg. unfold retrieve. simpl. rewrite list_elem_of_fmap. split.
      * intros ([h m] & -> & Hin). apply elem_of_map_to_list in Hin.
        rewrite Hheld, lookup_empty in Hin. simpl in *.
        destruct (list_find _ msgs) as [[i m']|] eqn:Hfind; [|done].
        injection Hin as ->. apply list_find_Some in Hfind as (Hi & Hh & Hfirst).
        exists i. split; [done|]. intros j other Hj Hlt. rewrite Hh.
        by apply (Hfirst j).
      * intros (i & Hi & Hfirst). exists (EnvelopeHash msg, msg). split; [done|].
        apply elem_of_map_to_list. rewrite Hheld, lookup_empty.
        assert (Hfind : list_find (fun m => EnvelopeHash m = EnvelopeHash msg) msgs
                        = Some (i, msg)).
        { apply list_find_Some. split; [done|]. split; [done|].
          intros j other Hj Hlt. by apply (Hfirst j). }
        by rewrite Hfind.
    + unfold retrieve. simpl. by rewrite map_to_list_empty.
  - intros msg. rewrite triggers_cons. done.
Qed.

(** *** The registry of watchers *)

(** A [*Filter] is the address of a filter; [None] is the nil pointer. *)
Abbreviation pointer := (option nat).

(** [type Filters struct], without its channels and its back reference. *)
Record Filters := { id : Z; watchers : gmap Z pointer }.

(** [func NewFilters(w *Whisper) *Filters] *)
Definition NewFilters : Filters := {| id := 0; watchers := ∅ |}.

(** [self.id++] on an [int] of 64 bits. *)
Definition increment (i : Z) : Z := (i + 1 + 2 ^ 63) mod 2 ^ 64 - 2 ^ 63.

(** [func (self *Filters) Install(watcher *Filter) int] *)
Definition Install (watcher : pointer) (self : Filters) : Z * Filters :=
  let self' := {| id := id self; watchers := <[id self := watcher]> (watchers self) |} in
  let ret := id self' in
  (ret, {| id := increment (id self'); watchers := watchers self' |}).

(** [func (self *Filters) Uninstall(id int)] *)
Definition Uninstall (i : Z) (self : Filters) : Filters :=
  {| id := id self; watchers := delete i (watchers self) |}.

(** [func (self *Filters) Get(i int) *Filter]: a missing entry reads as the
    nil pointer. *)
Definition Get (i : Z) (self : Filters) : pointer :=
  default None (watchers self !! i).

Inductive call :=
  | CallInstall (watcher : pointer)
  | CallUninstall (i : Z).

Definition perform (self : Filters) (c : call) : Filters :=
  match c with
  | CallInstall watcher => snd (Install watcher self)
  | CallUninstall i => Uninstall i self
  end.

Definition isInstall (c : call) : bool :=
  match c with CallInstall _ => true | CallUninstall _ => false end.

Definition installs (calls : list call) : nat := length (List.filter isInstall calls).

Lemma installs_snoc calls c :
  installs (calls ++ [c]) = (installs calls + if isInstall c then 1 else 0)%nat.
Proof.
  unfold installs. rewrite List.filter_app, length_app. simpl.
  by destruct (isInstall c).
Qed.

Lemma installs_le calls : (installs calls <= length calls)%nat.
Proof. apply List.filter_length_le. Qed.

Lemma increment_small i : 0 <= i < 2 ^ 63 - 1 -> increment i = i + 1.
Proof.
  intros Hi. unfold increment.
  replace (i + 1 + 2 ^ 63) with (i + 1 + 2 ^ 63 + 0 * 2 ^ 64) by lia.
  rewrite Z.mod_small by lia. lia.
Qed.

Lemma performed_ids calls :
  Z.of_nat (length calls) < 2 ^ 63 ->
  id (foldl perform NewFilters calls) = Z.of_nat (installs calls) /\
  forall k, is_Some (watchers (foldl perform NewFilters calls) !! k) ->
    0 <= k < Z.of_nat (installs calls).
Proof.
  induction calls as [|c calls IH] using rev_ind; intros Hlen.
  - split; [done|]. intros k [w Hw]. simpl in Hw. by rewrite lookup_empty in Hw.
  - rewrite length_app in Hlen. simpl in Hlen.
    destruct IH as [Hid Hkeys]; [lia|].
    pose proof (installs_le calls) as Hle.
    rewrite foldl_app, installs_snoc. simpl.
    destruct c as [watcher|i]; simpl.
    + rewrite Hid. split.
      * rewrite increment_small by lia. lia.
      * intros k. rewrite lookup_insert_is_Some'. intros [<-|Hk]; [lia|].
        apply Hkeys in Hk. lia.
    + rewrite Hid. split; [lia|]. intros k [w Hw].
      apply lookup_delete_Some in Hw as [_ Hw].
      assert (Hk : is_Some (watchers (foldl perform NewFilters calls) !! k)) by eauto.
      apply Hkeys in Hk. lia.
Qed.

(** X14: identifiers handed out by [Install] are fresh: after any run of
    fewer than [2^63] calls of [Install] and [Uninstall] on a new registry,
    the next [Install] returns the number of installs made so far, an
    identifier under which nothing is registered, [Get] then returns the
    installed watcher under it, and every other identifier reads as before. *)
Theorem Install_fresh_identifier (calls : list call) (watcher : pointer) :
  Z.of_nat (length calls) < 2 ^ 63 ->
  let self := foldl perform NewFilters calls in
  fst (Install watcher self) = Z.of_nat (installs calls) /\
  watchers self !! fst (Install watcher self) = None /\
  Get (fst (Install watcher self)) (snd (Install watcher self)) = watcher /\
  forall j, j <> fst (Install watcher self) ->
    Get j (snd (Install watcher self)) = Get j self.
Proof.
  intros Hlen self. destruct (performed_ids calls Hlen) as [Hid Hkeys].
  change (foldl perform NewFilters calls) with self in Hid, Hkeys.
  clearbody self. simpl. split; [exact Hid|]. split.
  - destruct (watchers self !! id self) as [w|] eqn:Hw; [|done].
    assert (Hk : is_Some (watchers self !! id self)) by eauto.
    apply Hkeys in Hk. lia.
  - unfold Get. simpl. split.
    + by rewrite lookup_insert_eq.
    + intros j Hj. by rewrite lookup_insert_ne.
Qed.

Lemma Install_fresh_identifier_witness :
  fst (Install (Some 7%nat)
         (foldl perform NewFilters
            [CallInstall (Some 3%nat); CallUninstall 0; CallInstall (Some 5%nat)])) = 2.
Proof.
  apply (Install_fresh_identifier
           [CallInstall (Some 3%nat); CallUninstall 0; CallInstall (Some 5%nat)]
           (Some 7%nat)).
  simpl. lia.
Defined.

(** *** Matching an envelope and handing it to the watchers *)

(** The fields of [Envelope] that the filter reads. *)
Record Envelope := { pow : float; envTopic : TopicType }.

(** A filter as the registry reaches it: the criteria, whether [Topics] is
    the nil slice (which the list of topics does not tell from an empty one),
    and the mailbox. *)
Record watcher := {
  criteria : Filter;
  topicsNil : bool;
  messages : option mailbox
}.

Definition setMessages (ms : option mailbox) (w : watcher) : watcher :=
  {| criteria := criteria w; topicsNil := topicsNil w; messages := ms |}.

Section Envelopes.

Variable validatePublicKey : option PublicKey -> bool.
Variable isSymmetricEncryption : ReceivedMessage -> bool.
Variable isAsymmetricEncryption : ReceivedMessage -> bool.

(** Methods of [Envelope] declared outside the sources at hand:
    [isSymmetric], [isAsymmetric] and [Open], which returns nil ([None]) when
    the watcher cannot decrypt the envelope. *)
Variable isSymmetric : Envelope -> bool.
Variable isAsymmetric : Envelope -> bool.
Variable Open : Envelope -> Filter -> option ReceivedMessage.

(** [func (self *Filter) MatchEnvelope(envelope *Envelope) bool] *)
Definition MatchEnvelope (self : watcher) (envelope : Envelope) : bool :=
  if PrimFloat.ltb 0 (PoW (criteria self)) &&
     PrimFloat.ltb (pow envelope) (PoW (criteria self)) then false
  else if expectsAsymmetricEncryption (criteria self) && isAsymmetric envelope then
    if topicsNil self then true
    else topicListed (Topics (criteria self)) (envTopic envelope)
  else if expectsSymmetricEncryption (criteria self) && isSymmetric envelope then
    topicListed (Topics (criteria self)) (envTopic envelope)
  else false.

Abbreviation heap := (gmap nat watcher).

(** The body of [for _, watcher := range self.watchers] in [processEnvelope],
    over the watchers in the order [range] visits them: the message opened so
    far and the filters.  Calling a method that reads a field through a nil
    watcher panics ([None]), and so does a panic of [MatchMessage] or of
    [Trigger]. *)
Fixpoint processWatchers (envelope : Envelope) (order : list pointer)
    (msg : option ReceivedMessage) (filters : heap)
  : option (option ReceivedMessage * heap) :=
  match order with
  | [] => Some (msg, filters)
  | p :: rest =>
      match p with
      | None => None
      | Some a =>
          match filters !! a with
          | None => None
          | Some w =>
              match msg with
              | Some m =>
                  match MatchMessage validatePublicKey isSymmetricEncryption
                          isAsymmetricEncryption (criteria w) m with
                  | None => None
                  | Some true =>
                      match Trigger m (messages w) with
                      | None => None
                      | Some ms =>
                          processWatchers envelope rest msg (<[a := setMessages ms w]> filters)
                      end
                  | Some false => processWatchers envelope rest msg filters
                  end
              | None =>
                  if MatchEnvelope w envelope then
                    match Open envelope (criteria w) with
                    | Some m =>
                        match Trigger m (messages w) with
                        | None => None
                        | Some ms =>
                            processWatchers envelope rest (Some m)
                              (<[a := setMessages ms w]> filters)
                        end
                    | None => processWatchers envelope rest None filters
                    end
                  else processWatchers envelope rest None filters
              end
          end
      end
  end.

(** [func (self *Filters) processEnvelope(envelope *Envelope)]: [order] lists
    the entries of [self.watchers] as [range] visits them; the result is the
    message handed to [whisper.addDecryptedMessage], if any, and the
    filters. *)
Definition processEnvelope (self : Filters) (order : list (Z * pointer))
    (envelope : Envelope) (filters : heap)
  : option (option ReceivedMessage * heap) :=
  processWatchers envelope order.*2 None filters.

(** What a watcher saw of an envelope that it accepted as the message [m]. *)
Definition accepted (envelope : Envelope) (w : watcher) (m : ReceivedMessage) : Prop :=
  MatchMessage validatePublicKey isSymmetricEncryption isAsymmetricEncryption
    (criteria w) m = Some true \/
  (MatchEnvelope w envelope = true /\ Open envelope (criteria w) = Some m).

(** How the filter at one address may differ after an envelope was
    processed. *)
Definition delivery (envelope : Envelope) (msg : option ReceivedMessage)
    (before after : option watcher) : Prop :=
  match before, after with
  | None, None => True
  | Some w, Some w' =>
      criteria w' = criteria w /\ topicsNil w' = topicsNil w /\
      (messages w' = messages w \/
       exists m, msg = Some m /\ Trigger m (messages w) = Some (messages w') /\
                 accepted envelope w m)
  | _, _ => False
  end.

Lemma delivery_refl envelope msg w : delivery envelope msg w w.
Proof. destruct w as [w|]; simpl; [|done]. split; [done|]. split; [done|by left]. Qed.

Lemma accepted_ext envelope w w' m :
  criteria w' = criteria w -> topicsNil w' = topicsNil w ->
  accepted envelope w' m -> accepted envelope w m.
Proof.
  intros Hc Ht. unfold accepted, MatchEnvelope. by rewrite Hc, Ht.
Qed.

Lemma delivery_step envelope m (a : nat) w ms (filters after : heap) :
  filters !! a = Some w ->
  Trigger m (messages w) = Some ms ->
  accepted envelope w m ->
  (forall b, delivery envelope (Some m) (<[a := setMessages ms w]> filters !! b) (after !! b)) ->
  forall b, delivery envelope (Some m) (filters !! b) (after !! b).
Proof.
  intros Hw Htrig Hacc Hrest b. specialize (Hrest b).
  destruct (decide (a = b)) as [<-|Hne].
  - rewrite lookup_insert_eq in Hrest. rewrite Hw.
    unfold delivery in *. destruct (after !! a) as [w'|]; [|done].
    destruct Hrest as (Hc & Ht & Hm). simpl in Hc, Ht.
    split; [done|]. split; [done|]. right. exists m. split; [done|].
    split; [|done]. destruct Hm as [Hm|(m' & [= <-] & Htrig' & _)].
    + simpl in Hm. by rewrite Hm.
    + simpl in Htrig'. rewrite (Trigger_idempotent _ _ _ Htrig) in Htrig'. congruence.
  - by rewrite lookup_insert_ne in Hrest.
Qed.

Lemma processWatchers_delivery envelope order msg (filters : heap) msg' (after : heap) :
  processWatchers envelope order msg filters = Some (msg', after) ->
  (forall m, msg = Some m -> msg' = Some m) /\
  (forall b, delivery envelope msg' (filters !! b) (after !! b)).
Proof.
  revert msg filters. induction order as [|p rest IH]; intros msg filters; simpl.
  - intros [= <- <-]. split; [done|]. intros b. apply delivery_refl.
  - destruct p as [a|]; [|done].
    destruct (filters !! a) as [w|] eqn:Hw; [|done].
    destruct msg as [m|].
    + destruct (MatchMessage _ _ _ _ _) as [[|]|] eqn:Hmatch; [| |done].
      * destruct (Trigger m (messages w)) as [ms|] eqn:Htrig; [|done].
        intros Hrun. destruct (IH _ _ Hrun) as [Hmsg Hdel].
        pose proof (Hmsg m eq_refl) as ->. split; [by intros ? [= <-]|].
        eapply delivery_step; [done|done| |done]. by left.
      * intros Hrun. destruct (IH _ _ Hrun) as [Hmsg Hdel].
        split; [done|done].
    + destruct (MatchEnvelope w envelope) eqn:Hmatch.
      * destruct (Open envelope (criteria w)) as [m|] eqn:Hopen.
        -- destruct (Trigger m (messages w)) as [ms|] eqn:Htrig; [|done].
           intros Hrun. destruct (IH _ _ Hrun) as [Hmsg Hdel].
           pose proof (Hmsg m eq_refl) as ->. split; [done|].
           eapply delivery_step; [done|done| |done]. by right.
        -- intros Hrun. destruct (IH _ _ Hrun) as [Hmsg Hdel]. by split.
      * intros Hrun. destruct (IH _ _ Hrun) as [Hmsg Hdel]. by split.
Qed.

Lemma processWatchers_unopened envelope order (filters after : heap) :
  processWatchers envelope order None filters = Some (None, after) -> after = filters.
Proof.
  revert filters. induction order as [|p rest IH]; intros filters; simpl.
  - by intros [= <-].
  - destruct p as [a|]; [|done].
    destruct (filters !! a) as [w|]; [|done].
    destruct (MatchEnvelope w envelope).
    + destruct (Open envelope (criteria w)) as [m|].
      * destruct (Trigger m (messages w)) as [ms|]; [|done].
        intros Hrun. apply processWatchers_delivery in Hrun as [Hmsg _].
        by specialize (Hmsg m eq_refl).
      * apply IH.
    + apply IH.
Qed.

End Envelopes.

(** X15: an envelope reaches the mailboxes as one message only, and only
    where it was accepted: when [processEnvelope] returns, in whatever order
    the watchers were visited, the criteria of every filter are as before and
    its mailbox is either untouched or the result of one [Trigger] of the
    message handed on to whisper, in which case the filter matched that
    message or was the one that matched and opened the envelope; when no
    message is handed on nothing has changed. *)
Theorem processEnvelope_delivers_one_message
    (validatePublicKey : option PublicKey -> bool)
    (isSymmetricEncryption isAsymmetricEncryption : ReceivedMessage -> bool)
    (isSymmetric isAsymmetric : Envelope -> bool)
    (Open : Envelope -> Filter -> option ReceivedMessage)
    (self : Filters) (order : list (Z * pointer)) (envelope : Envelope)
    (filters after : gmap nat watcher) (msg : option ReceivedMessage) :
  processEnvelope validatePublicKey isSymmetricEncryption isAsymmetricEncryption
    isSymmetric isAsymmetric Open self order envelope filters = Some (msg, after) ->
  (forall a, delivery validatePublicKey isSymmetricEncryption isAsymmetricEncryption
               isSymmetric isAsymmetric Open envelope msg (filters !! a) (after !! a)) /\
  (msg = None -> after = filters).
Proof.
  unfold processEnvelope. intros Hrun. split.
  - by apply processWatchers_delivery in Hrun as [_ Hdel].
  - intros ->. by apply processWatchers_unopened in Hrun.
Qed.

(** X16: for a message that is not matched through the asymmetric branch,
    an envelope with the same proof of work, topic and kind of encryption
    passes [MatchEnvelope] whenever the message passes [MatchMessage]:
    [MatchMessage] only adds the checks of the sender and of the topic-key
    hash. *)
Theorem MatchMessage_implies_MatchEnvelope
    (validatePublicKey : option PublicKey -> bool)
    (isSymmetricEncryption isAsymmetricEncryption : ReceivedMessage -> bool)
    (isSymmetric isAsymmetric : Envelope -> bool)
    (self : watcher) (envelope : Envelope) (msg : ReceivedMessage) :
  pow envelope = msgPoW msg -> envTopic envelope = Topic msg ->
  isSymmetric envelope = isSymmetricEncryption msg ->
  isAsymmetric envelope = isAsymmetricEncryption msg ->
  expectsAsymmetricEncryption (criteria self) && isAsymmetricEncryption msg = false ->
  MatchMessage validatePublicKey isSymmetricEncryption isAsymmetricEncryption
    (criteria self) msg = Some true ->
  MatchEnvelope isSymmetric isAsymmetric self envelope = true.
Proof.
  intros Hpow Htopic Hsym Hasym Hbranch. unfold MatchMessage, MatchEnvelope.
  rewrite Hpow, Htopic, Hsym, Hasym, Hbranch.
  destruct (_ && PrimFloat.ltb _ _); [done|].
  destruct (match Src (criteria self) with Some _ => _ | None => _ end) as [[|]|];
    [|done|done].
  destruct (_ && isSymmetricEncryption msg); [|done].
  case_bool_decide; [|done]. by intros [= ->].
Qed.

(** Helpers to run the engine on concrete envelopes: an envelope is
    symmetric when its topic does not start with a zero byte, and a filter
    with a symmetric key opens every envelope as the sample message of the
    envelope's topic. *)
Definition symmetricTopic (envelope : Envelope) : bool :=
  negb (bool_decide (head (envTopic envelope) = Some 0)).

Definition openWithKey (envelope : Envelope) (f : Filter) : option ReceivedMessage :=
  match KeySym f with
  | Some _ => Some (sampleMessage (envTopic envelope))
  | None => None
  end.

Definition sampleEnvelope : Envelope := {| pow := 1.5%float; envTopic := [5; 6; 7; 8] |}.

Definition sampleWatcher : watcher :=
  {| criteria := sampleFilter; topicsNil := false; messages := Some ∅ |}.

Definition sampleFilters : gmap nat watcher :=
  <[1%nat := sampleWatcher]> (<[2%nat := sampleWatcher]> ∅).

Lemma processEnvelope_delivers_one_message_witness :
  exists after,
    processEnvelope validKey hasKeyHash hasRecipient symmetricTopic
      (fun _ => false) openWithKey NewFilters [(0, Some 2%nat); (1, Some 1%nat)]
      sampleEnvelope sampleFilters = Some (Some (sampleMessage [5; 6; 7; 8]), after) /\
    forall a, delivery validKey hasKeyHash hasRecipient symmetricTopic
                (fun _ => false) openWithKey sampleEnvelope
                (Some (sampleMessage [5; 6; 7; 8])) (sampleFilters !! a) (after !! a).
Proof.
  eexists. split; [reflexivity|].
  apply (processEnvelope_delivers_one_message validKey hasKeyHash hasRecipient
           symmetricTopic (fun _ => false) openWithKey NewFilters
           [(0, Some 2%nat); (1, Some 1%nat)] sampleEnvelope sampleFilters).
  reflexivity.
Defined.

Lemma MatchMessage_implies_MatchEnvelope_witness :
  MatchEnvelope symmetricTopic (fun _ => false) sampleWatcher sampleEnvelope = true.
Proof.
  apply (MatchMessage_implies_MatchEnvelope validKey hasKeyHash hasRecipient
           symmetricTopic (fun _ => false) sampleWatcher sampleEnvelope
           (sampleMessage [5; 6; 7; 8])); reflexivity.
Defined.

End Whisper.

(** ** The storage wire protocol (package network, protocol.go) *)

Module Bzz.

Definition Version : Z := 0.
Definition ProtocolLength : Z := 8.
Definition ProtocolMaxMsgSize : Z := 10 * 1024 * 1024.
Definition NetworkId : Z := 3.

Abbreviation Key := (list Z).

(** The message codes of the protocol; their numbering lives in a file that
    is not part of the sources at hand. *)
Inductive msgCode :=
| statusMsg | storeRequestMsg | retrieveRequestMsg | peersMsg
| syncRequestMsg | unsyncedKeysMsg | deliveryRequestMsg | paymentMsg.

(** [syncState]: the fields that [sync] reads and writes. *)
Record syncState := {
  Start : Key;
  Stop : Key;
  SessionAt : Z;
  Synced : bool
}.

(** The decoded message bodies, with the fields that [handle] reads. *)
Record storeRequestMsgData := { storeKey : Key; SData : list Z }.
Record retrieveRequestMsgData := { retrieveKey : option Key; isLookup : bool }.
Record peersMsgData := { Peers : list Key }.
Record syncRequestMsgData := { SyncState : option syncState }.
Record unsyncedKeysMsgData := { Unsynced : list Key }.
Record deliveryRequestMsgData := { Deliver : list Key }.
Record paymentMsgData := { Units : Z; Promise : Z }.

(** What [msg.Decode] can produce from the payload: decoding into a request
    type succeeds when the payload holds a body of that type. *)
Inductive body :=
| Undecodable
| StoreRequestBody (req : storeRequestMsgData)
| RetrieveRequestBody (req : retrieveRequestMsgData)
| PeersBody (req : peersMsgData)
| SyncRequestBody (req : syncRequestMsgData)
| UnsyncedKeysBody (req : unsyncedKeysMsgData)
| DeliveryRequestBody (req : deliveryRequestMsgData)
| PaymentBody (req : paymentMsgData).

(** [p2p.Msg] *)
Record Msg := { Code : Z; Size : Z; Payload : body }.

Inductive error :=
| ErrRead (reason : string)
| ErrMessageTooLong (size limit : Z)
| ErrExtraStatus
| ErrDecode (code : Z)
| ErrDataTooShort (n : Z)
| ErrNilKey
| ErrHandler (reason : string)
| ErrInvalidCode (code : Z)
| ErrSyncOnce.

(** [syncer]: the sub-session built by [newSyncer], known by the state it was
    started with. *)
Record syncer := { syncerKey : Key; syncerState : syncState; syncerEnabled : bool }.

(** Calls that leave the session: to the storage handler, the hive, the swap
    sub-session and the message itself. *)
Inductive event :=
| HandleStoreRequestMsg (req : storeRequestMsgData)
| HandleRetrieveRequestMsg (req : retrieveRequestMsgData)
| HandleUnsyncedKeysMsg (req : unsyncedKeysMsgData)
| HandleDeliveryRequestMsg (req : deliveryRequestMsgData)
| HivePeers (req : retrieveRequestMsgData)
| HiveHandlePeersMsg (req : peersMsgData)
| SwapReceive (units : Z) (promise : Z)
| Discard
| HiveRemovePeer
| SyncerStop
| SwapStop.

(** [type bzz struct]: the fields of the session that change while messages
    are handled. *)
Record bzz := {
  remoteAddr : Key;
  lastActive : Z;
  swapEnabled : bool;
  syncEnabled : bool;
  swapActive : bool;
  syncerOf : option syncer
}.

Definition setLastActive (b : bzz) (now : Z) : bzz :=
  {| remoteAddr := remoteAddr b; lastActive := now; swapEnabled := swapEnabled b;
     syncEnabled := syncEnabled b; swapActive := swapActive b; syncerOf := syncerOf b |}.

Definition setSyncEnabled (b : bzz) (on : bool) : bzz :=
  {| remoteAddr := remoteAddr b; lastActive := lastActive b; swapEnabled := swapEnabled b;
     syncEnabled := on; swapActive := swapActive b; syncerOf := syncerOf b |}.

Definition setSyncer (b : bzz) (s : option syncer) : bzz :=
  {| remoteAddr := remoteAddr b; lastActive := lastActive b; swapEnabled := swapEnabled b;
     syncEnabled := syncEnabled b; swapActive := swapActive b; syncerOf := s |}.

Definition setStart (st : syncState) (start stop : Key) : syncState :=
  {| Start := start; Stop := stop; SessionAt := SessionAt st; Synced := Synced st |}.

Definition setSessionAt (st : syncState) (cnt : Z) : syncState :=
  {| Start := Start st; Stop := Stop st; SessionAt := cnt; Synced := Synced st |}.

Section Session.

(** The collaborators of the session, declared outside the sources at hand:
    the numbering of the message codes, the storage handler's verdicts, the
    database counter, the key range of the routing table, the zero-key test
    and the constructor of the syncer (a Go pair: syncer pointer and error). *)
Variable codeOf : Z -> option msgCode.
Variable storageUnsyncedKeys : unsyncedKeysMsgData -> option string.
Variable storageDeliveryRequest : deliveryRequestMsgData -> option string.
Variable counter : Z.
Variable KeyRange : Key -> Key * Key.
Variable IsZeroKey : Key -> bool.
Variable newSyncer : Key -> syncState -> bool -> option syncer * option string.

(** The state that [sync] hands to [newSyncer], and the session after the
    synchronisation switch was set:
    a nil state disables synchronisation and is replaced by an empty, synced
    one; otherwise the session counter is stamped and an unset, synced range
    is replaced by the key range of the remote address. *)
Definition syncSetup (b : bzz) (state : option syncState) : bzz * syncState :=
  let cnt := counter in
  let '(start, stop) := KeyRange (remoteAddr b) in
  match state with
  | None =>
      (setSyncEnabled b false,
       {| Start := []; Stop := []; SessionAt := 0; Synced := true |})
  | Some state =>
      let state := setSessionAt state cnt in
      let state :=
        if IsZeroKey (Stop state) && Synced state then setStart state start stop
        else state in
      (b, state)
  end.

(** [func (bzz *bzz) sync(state *syncState) error] *)
Definition sync (b : bzz) (state : option syncState) : option error * bzz :=
  match syncerOf b with
  | Some _ => (Some ErrSyncOnce, b)
  | None =>
      let '(b, state) := syncSetup b state in
      let '(s, err) := newSyncer (remoteAddr b) state (syncEnabled b) in
      let b := setSyncer b s in
      match err with
      | Some _ => (None, b)
      | None => (None, b)
      end
  end.

(** The dispatch of [handle] once the size check has passed; every return
    runs the deferred [msg.Discard()]. *)
Definition dispatch (b : bzz) (now : Z) (msg : Msg) : option error * bzz * list event :=
  match codeOf (Code msg) with
  | Some statusMsg => (Some ErrExtraStatus, b, [])
  | Some storeRequestMsg =>
      match Payload msg with
      | StoreRequestBody req =>
          let n := Z.of_nat (length (SData req)) in
          if n <? 9 then (Some (ErrDataTooShort n), b, [])
          else (None, setLastActive b now, [HandleStoreRequestMsg req])
      | _ => (Some (ErrDecode (Code msg)), b, [])
      end
  | Some retrieveRequestMsg =>
      match Payload msg with
      | RetrieveRequestBody req =>
          if isLookup req then (None, b, [HivePeers req])
          else
            match retrieveKey req with
            | None => (Some ErrNilKey, b, [])
            | Some _ => (None, b, [HandleRetrieveRequestMsg req; HivePeers req])
            end
      | _ => (Some (ErrDecode (Code msg)), b, [])
      end
  | Some peersMsg =>
      match Payload msg with
      | PeersBody req => (None, b, [HiveHandlePeersMsg req])
      | _ => (Some (ErrDecode (Code msg)), b, [])
      end
  | Some syncRequestMsg =>
      match Payload msg with
      | SyncRequestBody req =>
          let b := setLastActive b now in
          let '(_, b) := sync b (SyncState req) in
          (None, b, [])
      | _ => (Some (ErrDecode (Code msg)), b, [])
      end
  | Some unsyncedKeysMsg =>
      match Payload msg with
      | UnsyncedKeysBody req =>
          let err := storageUnsyncedKeys req in
          let b := setLastActive b now in
          match err with
          | Some reason => (Some (ErrHandler reason), b, [HandleUnsyncedKeysMsg req])
          | None => (None, b, [HandleUnsyncedKeysMsg req])
          end
      | _ => (Some (ErrDecode (Code msg)), b, [])
      end
  | Some deliveryRequestMsg =>
      match Payload msg with
      | DeliveryRequestBody req =>
          let err := storageDeliveryRequest req in
          let b := setLastActive b now in
          match err with
          | Some reason => (Some (ErrHandler reason), b, [HandleDeliveryRequestMsg req])
          | None => (None, b, [HandleDeliveryRequestMsg req])
          end
      | _ => (Some (ErrDecode (Code msg)), b, [])
      end
  | Some paymentMsg =>
      if swapEnabled b then
        match Payload msg with
        | PaymentBody req => (None, b, [SwapReceive (Units req) (Promise req)])
        | _ => (Some (ErrDecode (Code msg)), b, [])
        end
      else (None, b, [])
  | None => (Some (ErrInvalidCode (Code msg)), b, [])
  end.

(** [func (bzz *bzz) handle() error]: one cycle on the outcome of
    [bzz.rw.ReadMsg()]. *)
Definition handle (b : bzz) (now : Z) (read : Msg + string)
  : option error * bzz * list event :=
  match read with
  | inr reason => (Some (ErrRead reason), b, [])
  | inl msg =>
      if ProtocolMaxMsgSize <? Size msg then
        (Some (ErrMessageTooLong (Size msg) ProtocolMaxMsgSize), b, [])
      else
        let '(err, b, evs) := dispatch b now msg in
        (err, b, evs ++ [Discard])
  end.

(** What the session meets at each turn of the loop of [run]: reading is
    blocked ([hive.blockRead]; the loop sleeps and goes on), or a read returns
    at some time. *)
Inductive turn :=
| Blocked
| Incoming (now : Z) (read : Msg + string).

(** The deferred clean-up of [run]. *)
Definition cleanup (b : bzz) : list event :=
  [HiveRemovePeer] ++
  match syncerOf b with Some _ => [SyncerStop] | None => [] end ++
  (if swapActive b then [SwapStop] else []).

(** The loop of [run] after the handshake, over the turns the session meets:
    the error that ended the session (if it ended), the session, the calls
    made, and the turns that were not looked at. *)
Fixpoint serve (b : bzz) (turns : list turn)
  : option error * bzz * list event * list turn :=
  match turns with
  | [] => (None, b, [], [])
  | Blocked :: rest => serve b rest
  | Incoming now read :: rest =>
      match handle b now read with
      | (Some err, b, evs) => (Some err, b, evs ++ cleanup b, rest)
      | (None, b, evs) =>
          let '(err, b', evs', unread) := serve b rest in
          (err, b', evs ++ evs', unread)
      end
  end.

(** Calls into one of the four handlers: storage, hive, syncer or swap. *)
Definition isHandlerCall (e : event) : bool :=
  match e with
  | HandleStoreRequestMsg _ | HandleRetrieveRequestMsg _
  | HandleUnsyncedKeysMsg _ | HandleDeliveryRequestMsg _
  | HivePeers _ | HiveHandlePeersMsg _ | SwapReceive _ _ => true
  | Discard | HiveRemovePeer | SyncerStop | SwapStop => false
  end.


(** *** The handle cycle *)

Lemma handle_too_long b now msg :
  ProtocolMaxMsgSize < Size msg ->
  handle b now (inl msg) =
    (Some (ErrMessageTooLong (Size msg) ProtocolMaxMsgSize), b, []).
Proof.
  intros Hsize. unfold handle.
  destruct (Z.ltb_spec ProtocolMaxMsgSize (Size msg)); [done|lia].
Qed.

Lemma serve_too_long b now msg rest :
  ProtocolMaxMsgSize < Size msg ->
  serve b (Incoming now (inl msg) :: rest) =
    (Some (ErrMessageTooLong (Size msg) ProtocolMaxMsgSize), b, cleanup b, rest).
Proof.
  intros Hsize.
  change (serve b (Incoming now (inl msg) :: rest)) with
    (match handle b now (inl msg) with
     | (Some err, b, evs) => (Some err, b, evs ++ cleanup b, rest)
     | (None, b, evs) =>
         let '(err, b', evs', unread) := serve b rest in
         (err, b', evs ++ evs', unread)
     end).
  by rewrite handle_too_long.
Qed.

Lemma serve_running b turns b' evs unread :
  serve b turns = (None, b', evs, unread) -> unread = [].
Proof.
  revert b b' evs. induction turns as [|t turns IH]; intros b b' evs; simpl.
  - by intros [= _ _ <-].
  - destruct t as [|now read]; [apply IH|].
    destruct (handle b now read) as [[[err|] b1] evs1]; [done|].
    destruct (serve b1 turns) as [[[err2 b2] evs2] un2] eqn:Hrest.
    intros [= -> _ _ <-]. by eapply IH.
Qed.

Lemma serve_app b turns more b1 evs :
  serve b turns = (None, b1, evs, []) ->
  serve b (turns ++ more) =
    let '(err, b2, evs2, unread) := serve b1 more in (err, b2, evs ++ evs2, unread).
Proof.
  revert b b1 evs. induction turns as [|t turns IH]; intros b b1 evs; simpl.
  - intros [= <- <-]. by destruct (serve b more) as [[[? ?] ?] ?].
  - destruct t as [|now read]; [apply IH|].
    destruct (handle b now read) as [[[err|] b0] evs0]; [done|].
    destruct (serve b0 turns) as [[[err2 b2] evs2] un2] eqn:Hrest.
    intros [= -> -> <- ->].
    rewrite (IH _ _ _ Hrest).
    destruct (serve b1 more) as [[[? ?] ?] ?]. by rewrite app_assoc.
Qed.

Lemma cleanup_no_handler b : Forall (fun e => isHandlerCall e = false) (cleanup b).
Proof.
  unfold cleanup. destruct (syncerOf b), (swapActive b); simpl; repeat constructor.
Qed.

(** C7: in a session past its handshake, whatever was handled before, a
    message whose declared size exceeds 10 MiB makes the handle cycle return
    the message-too-long error with the session untouched and no call made (no
    handler of the storage, the hive, the syncer or the swap, not even the
    discard of the payload); the loop of the session ends with that error,
    runs only its clean-up and reads nothing further. *)
Theorem oversized_message_ends_session
    (b b1 : bzz) (before rest : list turn) (evs : list event) (now : Z) (msg : Msg) :
  serve b before = (None, b1, evs, []) ->
  10 * 1024 * 1024 < Size msg ->
  handle b1 now (inl msg) =
    (Some (ErrMessageTooLong (Size msg) ProtocolMaxMsgSize), b1, []) /\
  serve b (before ++ Incoming now (inl msg) :: rest) =
    (Some (ErrMessageTooLong (Size msg) ProtocolMaxMsgSize), b1,
     evs ++ cleanup b1, rest) /\
  Forall (fun e => isHandlerCall e = false) (cleanup b1).
Proof.
  intros Hbefore Hsize. split; [|split].
  - by apply handle_too_long.
  - rewrite (serve_app _ _ _ _ _ Hbefore).
    by rewrite serve_too_long.
  - apply cleanup_no_handler.
Qed.

(** *** Starting the syncer *)


End Session.

(** Concrete collaborators to run a session: the codes numbered in the order
    of their declaration, a storage handler that accepts everything, and a
    syncer constructor that fails when the start key is empty. *)
Definition codeNumbering (code : Z) : option msgCode :=
  if code =? 0 then Some statusMsg
  else if code =? 1 then Some storeRequestMsg
  else if code =? 2 then Some retrieveRequestMsg
  else if code =? 3 then Some peersMsg
  else if code =? 4 then Some syncRequestMsg
  else if code =? 5 then Some unsyncedKeysMsg
  else if code =? 6 then Some deliveryRequestMsg
  else if code =? 7 then Some paymentMsg
  else None.

Definition acceptKeys (_ : unsyncedKeysMsgData) : option string := None.
Definition acceptDelivery (_ : deliveryRequestMsgData) : option string := None.
Definition wholeRange (_ : Key) : Key * Key := (replicate 32 0, replicate 32 255).
Definition emptyKey (k : Key) : bool := bool_decide (k = []).

Definition syncerUnlessEmpty (key : Key) (st : syncState) (enabled : bool)
  : option syncer * option string :=
  match Start st with
  | [] => (None, Some "no key range")
  | _ => (Some {| syncerKey := key; syncerState := st; syncerEnabled := enabled |}, None)
  end.

Definition freshSession : bzz := {|
  remoteAddr := replicate 32 9; lastActive := 0; swapEnabled := false;
  syncEnabled := true; swapActive := false; syncerOf := None
|}.

Definition sampleStore : storeRequestMsgData :=
  {| storeKey := replicate 32 1; SData := replicate 12 7 |}.

Definition storeMessage : Msg :=
  {| Code := 1; Size := 44; Payload := StoreRequestBody sampleStore |}.

Definition oversizedMessage : Msg :=
  {| Code := 1; Size := 10 * 1024 * 1024 + 1; Payload := StoreRequestBody sampleStore |}.

Lemma oversized_message_ends_session_witness :
  serve codeNumbering acceptKeys acceptDelivery 3 wholeRange emptyKey syncerUnlessEmpty
    freshSession
    ([Blocked; Incoming 5 (inl storeMessage)] ++
     Incoming 6 (inl oversizedMessage) :: [Incoming 7 (inl storeMessage)]) =
  (Some (ErrMessageTooLong (10 * 1024 * 1024 + 1) ProtocolMaxMsgSize),
   setLastActive freshSession 5,
   [HandleStoreRequestMsg sampleStore; Discard] ++ [HiveRemovePeer],
   [Incoming 7 (inl storeMessage)]).
Proof.
  destruct (oversized_message_ends_session
              codeNumbering acceptKeys acceptDelivery 3 wholeRange emptyKey syncerUnlessEmpty
              freshSession (setLastActive freshSession 5)
              [Blocked; Incoming 5 (inl storeMessage)] [Incoming 7 (inl storeMessage)]
              [HandleStoreRequestMsg sampleStore; Discard] 6 oversizedMessage
              eq_refl eq_refl) as (_ & Hserve & _).
  exact Hserve.
Defined.




(** *** What the loop keeps, and how it ends *)

(** The parts of a session that handling a message leaves alone: the remote
    address, the swap settings and, once there is a syncer, the syncer and
    the synchronisation switch. *)
Definition kept (b b' : bzz) : Prop :=
  remoteAddr b' = remoteAddr b /\ swapEnabled b' = swapEnabled b /\
  swapActive b' = swapActive b /\
  forall s, syncerOf b = Some s -> syncerOf b' = Some s /\ syncEnabled b' = syncEnabled b.

Definition isDiscard (e : event) : bool :=
  match e with Discard => true | _ => false end.

(** The calls of the deferred clean-up of [run]. *)
Definition isCleanup (e : event) : bool :=
  match e with HiveRemovePeer | SyncerStop | SwapStop => true | _ => false end.

Definition isSwapReceive (e : event) : bool :=
  match e with SwapReceive _ _ => true | _ => false end.

(** A turn whose message passes the size check of [handle]. *)
Definition admitted (t : turn) : bool :=
  match t with
  | Incoming _ (inl msg) => negb (ProtocolMaxMsgSize <? Size msg)
  | _ => false
  end.

Lemma kept_refl b : kept b b.
Proof. unfold kept. naive_solver. Qed.

Lemma kept_trans b1 b2 b3 : kept b1 b2 -> kept b2 b3 -> kept b1 b3.
Proof.
  intros (Ha & Hs & Hw & Hy) (Ha' & Hs' & Hw' & Hy'). unfold kept.
  split; [congruence|]. split; [congruence|]. split; [congruence|].
  intros s Hsome. destruct (Hy s Hsome) as [H1 H2].
  destruct (Hy' s H1) as [H3 H4]. split; [done|congruence].
Qed.

Section SessionProps.

Variable codeOf : Z -> option msgCode.
Variable storageUnsyncedKeys : unsyncedKeysMsgData -> option string.
Variable storageDeliveryRequest : deliveryRequestMsgData -> option string.
Variable counter : Z.
Variable KeyRange : Key -> Key * Key.
Variable IsZeroKey : Key -> bool.
Variable newSyncer : Key -> syncState -> bool -> option syncer * option string.

Local Abbreviation syncS := (sync counter KeyRange IsZeroKey newSyncer).
Local Abbreviation dispatchS :=
  (dispatch codeOf storageUnsyncedKeys storageDeliveryRequest counter KeyRange IsZeroKey
     newSyncer).
Local Abbreviation handleS :=
  (handle codeOf storageUnsyncedKeys storageDeliveryRequest counter KeyRange IsZeroKey
     newSyncer).
Local Abbreviation serveS :=
  (serve codeOf storageUnsyncedKeys storageDeliveryRequest counter KeyRange IsZeroKey
     newSyncer).

Lemma sync_kept b state : kept b (snd (syncS b state)).
Proof.
  unfold sync, syncSetup. destruct (syncerOf b) as [s|] eqn:Hs.
  - apply kept_refl.
  - destruct (KeyRange (remoteAddr b)) as [start stop].
    destruct state as [state|].
    + destruct (newSyncer _ _ _) as [s' [reason|]]; simpl;
        (split; [done|]; split; [done|]; split; [done|]; intros s0 Hs0; congruence).
    + simpl. destruct (newSyncer _ _ _) as [s' [reason|]]; simpl;
        (split; [done|]; split; [done|]; split; [done|]; intros s0 Hs0; congruence).
Qed.

Lemma kept_setLastActive b now : kept b (setLastActive b now).
Proof. unfold kept. simpl. naive_solver. Qed.

Ltac dispatch_cases b msg :=
  unfold dispatch;
  destruct (codeOf (Code msg)) as [[]|]; cbn beta iota;
  try destruct (swapEnabled b) eqn:?; cbn beta iota;
  try destruct (Payload msg) as [|req|req|req|req|req|req|req]; cbn beta iota zeta;
  repeat match goal with
  | |- context [if ?c then _ else _] => destruct c; cbn beta iota zeta
  | |- context [match retrieveKey ?r with _ => _ end] =>
      destruct (retrieveKey r); cbn beta iota zeta
  | |- context [match storageUnsyncedKeys ?r with _ => _ end] =>
      destruct (storageUnsyncedKeys r); cbn beta iota zeta
  | |- context [match storageDeliveryRequest ?r with _ => _ end] =>
      destruct (storageDeliveryRequest r); cbn beta iota zeta
  | |- context [let '(_, _) := sync _ _ _ _ ?b ?st in _] =>
      pose proof (sync_kept b st);
      destruct (sync counter KeyRange IsZeroKey newSyncer b st); cbn beta iota zeta
  end; cbn [fst snd] in *.

Lemma dispatch_kept b now msg : kept b (snd (fst (dispatchS b now msg))).
Proof.
  dispatch_cases b msg;
    try apply kept_refl; try apply kept_setLastActive.
  all: eapply kept_trans; [apply kept_setLastActive|done].
Qed.

Lemma dispatch_handlers b now msg :
  Forall (fun e => isHandlerCall e = true) (snd (dispatchS b now msg)).
Proof. dispatch_cases b msg; repeat constructor. Qed.

Lemma dispatch_no_swap b now msg :
  swapEnabled b = false ->
  Forall (fun e => isSwapReceive e = false) (snd (dispatchS b now msg)).
Proof.
  intros Hswap. dispatch_cases b msg; try congruence; repeat constructor.
Qed.

Lemma handle_cases b now read :
  (exists reason, read = inr reason /\ handleS b now read = (Some (ErrRead reason), b, [])) \/
  (exists msg, read = inl msg /\ admitted (Incoming now read) = false /\
     handleS b now read = (Some (ErrMessageTooLong (Size msg) ProtocolMaxMsgSize), b, [])) \/
  (exists msg, read = inl msg /\ admitted (Incoming now read) = true /\
     handleS b now read =
       (fst (fst (dispatchS b now msg)), snd (fst (dispatchS b now msg)),
        snd (dispatchS b now msg) ++ [Discard])).
Proof.
  destruct read as [msg|reason].
  - right. unfold handle, admitted.
    destruct (ProtocolMaxMsgSize <? Size msg).
    + left. by exists msg.
    + right. exists msg. split; [done|]. split; [done|].
      by destruct (dispatchS b now msg) as [[err b'] evs].
  - left. by exists reason.
Qed.

Lemma handle_kept b now read : kept b (snd (fst (handleS b now read))).
Proof.
  destruct (handle_cases b now read) as
    [(reason & -> & ->)|[(msg & -> & _ & ->)|(msg & -> & _ & ->)]]; simpl;
    [apply kept_refl|apply kept_refl|apply dispatch_kept].
Qed.

Lemma handle_events b now read :
  exists calls, Forall (fun e => isHandlerCall e = true) calls /\
    snd (handleS b now read) =
      calls ++ (if admitted (Incoming now read) then [Discard] else []).
Proof.
  destruct (handle_cases b now read) as
    [(reason & -> & ->)|[(msg & -> & Hadm & ->)|(msg & -> & Hadm & ->)]].
  - exists []. by split.
  - exists []. rewrite Hadm. by split.
  - exists (snd (dispatchS b now msg)). rewrite Hadm. split; [|done].
    apply dispatch_handlers.
Qed.

Lemma handle_no_swap b now read :
  swapEnabled b = false ->
  Forall (fun e => isSwapReceive e = false) (snd (handleS b now read)).
Proof.
  intros Hswap. destruct (handle_cases b now read) as
    [(reason & -> & ->)|[(msg & -> & _ & ->)|(msg & -> & _ & ->)]]; simpl;
    [constructor|constructor|].
  apply Forall_app. split; [by apply dispatch_no_swap|repeat constructor].
Qed.

Lemma serve_cons b now read rest :
  serveS b (Incoming now read :: rest) =
    match handleS b now read with
    | (Some err, b, evs) => (Some err, b, evs ++ cleanup b, rest)
    | (None, b, evs) =>
        let '(err, b', evs', unread) := serveS b rest in
        (err, b', evs ++ evs', unread)
    end.
Proof. done. Qed.

Lemma count_app (f : event -> bool) l1 l2 :
  length (List.filter f (l1 ++ l2)) =
    (length (List.filter f l1) + length (List.filter f l2))%nat.
Proof. by rewrite List.filter_app, length_app. Qed.

Lemma count_none (f : event -> bool) l :
  Forall (fun e => f e = false) l -> List.filter f l = [].
Proof.
  induction 1 as [|e l He _ IH]; [done|]. simpl. by rewrite He.
Qed.

Lemma handlers_not (f : event -> bool) l :
  (forall e, isHandlerCall e = true -> f e = false) ->
  Forall (fun e => isHandlerCall e = true) l -> Forall (fun e => f e = false) l.
Proof. intros Hf Hall. eapply Forall_impl; [exact Hall|exact Hf]. Qed.

Lemma serve_kept (b b' : bzz) (turns unread : list turn)
    (err : option error) (evs : list event) :
  serveS b turns = (err, b', evs, unread) -> kept b b'.
Proof.
  revert b b' err evs unread.
  induction turns as [|[|now read] rest IH]; intros b b' err evs unread.
  - simpl. intros [= _ <- _ _]. apply kept_refl.
  - apply IH.
  - rewrite serve_cons. pose proof (handle_kept b now read) as Hk.
    destruct (handleS b now read) as [[[e|] b1] evs1]; simpl in Hk.
    + by intros [= _ <- _ _].
    + destruct (serveS b1 rest) as [[[err2 b2] evs2] un2] eqn:Hrest.
      intros [= _ <- _ _]. eapply kept_trans; [exact Hk|]. by eapply IH.
Qed.

(** X17: handling messages never changes the remote address or the swap
    settings of a session, and once the session has a syncer no message
    replaces it or touches the synchronisation switch: a second sync request
    is refused by [sync] and the refusal is dropped by [handle]. *)
Theorem serve_keeps_syncer (b b' : bzz) (turns unread : list turn)
    (err : option error) (evs : list event) :
  serveS b turns = (err, b', evs, unread) ->
  remoteAddr b' = remoteAddr b /\ swapEnabled b' = swapEnabled b /\
  swapActive b' = swapActive b /\
  forall s, syncerOf b = Some s -> syncerOf b' = Some s /\ syncEnabled b' = syncEnabled b.
Proof. apply serve_kept. Qed.

(** X18: every message that passes the size check has its payload discarded
    exactly once, whatever its code and however handling it ends: the number
    of discards made by the loop is the number of such messages among the
    turns it looked at, and the turns it did not look at are the rest of its
    input. *)
Theorem serve_discards_each_message (b b' : bzz) (turns unread : list turn)
    (err : option error) (evs : list event) :
  serveS b turns = (err, b', evs, unread) ->
  exists seen, turns = seen ++ unread /\
    length (List.filter isDiscard evs) = length (List.filter admitted seen).
Proof.
  revert b b' err evs unread.
  induction turns as [|[|now read] rest IH]; intros b b' err evs unread.
  - simpl. intros [= _ _ <- <-]. by exists [].
  - simpl. intros Hrun. destruct (IH _ _ _ _ _ Hrun) as (seen & -> & Hcount).
    exists (Blocked :: seen). by split.
  - rewrite serve_cons.
    destruct (handle_events b now read) as (calls & Hcalls & Hevs).
    assert (Hone : length (List.filter isDiscard (snd (handleS b now read))) =
                   length (List.filter admitted [Incoming now read])).
    { rewrite Hevs, count_app.
      rewrite (count_none isDiscard calls)
        by (eapply handlers_not; [|exact Hcalls]; by intros []).
      change (List.filter admitted [Incoming now read]) with
        (if admitted (Incoming now read) then [Incoming now read] else []).
      by destruct (admitted (Incoming now read)). }
    destruct (handleS b now read) as [[[e|] b1] evs1]; simpl in Hone.
    + intros [= _ <- <- <-]. exists [Incoming now read]. split; [done|].
      rewrite count_app, Hone.
      rewrite (count_none isDiscard (cleanup b1)); [simpl; lia|].
      unfold cleanup. destruct (syncerOf b1), (swapActive b1); repeat constructor.
    + destruct (serveS b1 rest) as [[[err2 b2] evs2] un2] eqn:Hrest.
      intros [= _ _ <- <-]. destruct (IH _ _ _ _ _ Hrest) as (seen & -> & Hcount).
      exists (Incoming now read :: seen). split; [done|].
      rewrite count_app, Hone, Hcount.
      change (Incoming now read :: seen) with ([Incoming now read] ++ seen).
      by rewrite List.filter_app, length_app.
Qed.

(** X19: the clean-up of a session runs when the loop ends, and only
    then: while the loop is still reading, the hive, the syncer and the swap
    have not been told to let go of the peer; when a message ends the loop
    with an error, the calls made end with the clean-up for the final state of
    the session, and no clean-up call was made before. *)
Theorem serve_cleans_up_at_the_end (b b' : bzz) (turns unread : list turn)
    (err : option error) (evs : list event) :
  serveS b turns = (err, b', evs, unread) ->
  match err with
  | None => Forall (fun e => isCleanup e = false) evs /\ unread = []
  | Some _ =>
      exists calls, evs = calls ++ cleanup b' /\
        Forall (fun e => isCleanup e = false) calls
  end.
Proof.
  revert b b' err evs unread.
  induction turns as [|[|now read] rest IH]; intros b b' err evs unread.
  - simpl. intros [= <- _ <- <-]. by split.
  - apply IH.
  - rewrite serve_cons.
    destruct (handle_events b now read) as (calls & Hcalls & Hevs).
    assert (Hclean : Forall (fun e => isCleanup e = false) (snd (handleS b now read))).
    { rewrite Hevs. apply Forall_app. split.
      - eapply handlers_not; [|exact Hcalls]. by intros [].
      - destruct (admitted _); repeat constructor. }
    destruct (handleS b now read) as [[[e|] b1] evs1]; simpl in Hclean.
    + intros [= <- <- <- <-]. by exists evs1.
    + destruct (serveS b1 rest) as [[[err2 b2] evs2] un2] eqn:Hrest.
      intros [= <- <- <- <-]. specialize (IH _ _ _ _ _ Hrest).
      destruct err2 as [e2|].
      * destruct IH as (calls2 & -> & Hcalls2). exists (evs1 ++ calls2).
        split; [by rewrite app_assoc|]. by apply Forall_app.
      * destruct IH as [Hall ->]. split; [|done]. by apply Forall_app.
Qed.

(** X20: a session whose swap is not enabled never hands a payment to the
    swap, whatever it is sent; payment messages are read and dropped. *)
Theorem serve_without_swap_takes_no_payment (b b' : bzz) (turns unread : list turn)
    (err : option error) (evs : list event) :
  swapEnabled b = false ->
  serveS b turns = (err, b', evs, unread) ->
  Forall (fun e => isSwapReceive e = false) evs.
Proof.
  revert b b' err evs unread.
  induction turns as [|[|now read] rest IH]; intros b b' err evs unread Hswap.
  - simpl. by intros [= _ _ <- _].
  - by apply IH.
  - rewrite serve_cons.
    pose proof (handle_no_swap b now read Hswap) as Hno.
    pose proof (handle_kept b now read) as (_ & Hsw & _).
    destruct (handleS b now read) as [[[e|] b1] evs1]; simpl in Hno, Hsw.
    + intros [= _ <- <- _]. apply Forall_app. split; [done|].
      unfold cleanup. destruct (syncerOf b1), (swapActive b1); repeat constructor.
    + destruct (serveS b1 rest) as [[[err2 b2] evs2] un2] eqn:Hrest.
      intros [= _ _ <- _]. apply Forall_app. split; [done|].
      eapply IH; [|exact Hrest]. congruence.
Qed.

End SessionProps.

Definition sampleSyncState : syncState :=
  {| Start := replicate 32 1; Stop := replicate 32 2; SessionAt := 0; Synced := false |}.

Definition syncMessage (state : option syncState) : Msg :=
  {| Code := 4; Size := 80; Payload := SyncRequestBody {| SyncState := state |} |}.

Definition paymentMessage : Msg :=
  {| Code := 7; Size := 40; Payload := PaymentBody {| Units := 3; Promise := 11 |} |}.

Definition sessionTurns : list turn :=
  [Incoming 4 (inl (syncMessage (Some sampleSyncState)));
   Blocked;
   Incoming 5 (inl (syncMessage None));
   Incoming 6 (inl paymentMessage);
   Incoming 7 (inl oversizedMessage);
   Incoming 8 (inl storeMessage)].

Definition sessionRun : option error * bzz * list event * list turn :=
  serve codeNumbering acceptKeys acceptDelivery 3 wholeRange emptyKey syncerUnlessEmpty
    freshSession sessionTurns.

Definition syncedSession : bzz :=
  snd (fst (fst
    (serve codeNumbering acceptKeys acceptDelivery 3 wholeRange emptyKey syncerUnlessEmpty
       freshSession [Incoming 4 (inl (syncMessage (Some sampleSyncState)))]))).

Definition laterTurns : list turn :=
  [Incoming 5 (inl (syncMessage None)); Incoming 6 (inl paymentMessage);
   Incoming 7 (inl storeMessage)].

Lemma serve_keeps_syncer_witness :
  syncerOf syncedSession <> None /\
  syncerOf (snd (fst (fst
    (serve codeNumbering acceptKeys acceptDelivery 3 wholeRange emptyKey syncerUnlessEmpty
       syncedSession laterTurns)))) = syncerOf syncedSession /\
  syncEnabled (snd (fst (fst
    (serve codeNumbering acceptKeys acceptDelivery 3 wholeRange emptyKey syncerUnlessEmpty
       syncedSession laterTurns)))) = true.
Proof.
  split; [done|].
  destruct (serve_keeps_syncer codeNumbering acceptKeys acceptDelivery 3 wholeRange emptyKey
              syncerUnlessEmpty syncedSession _ laterTurns _ _ _ eq_refl)
    as (_ & _ & _ & Hsyncer).
  destruct (Hsyncer _ eq_refl) as [Hs He]. split; [exact Hs|exact He].
Defined.

Lemma serve_discards_each_message_witness :
  exists seen, sessionTurns = seen ++ snd sessionRun /\
    length (List.filter isDiscard (snd (fst sessionRun))) =
      length (List.filter admitted seen).
Proof.
  apply (serve_discards_each_message codeNumbering acceptKeys acceptDelivery 3 wholeRange
           emptyKey syncerUnlessEmpty freshSession (snd (fst (fst sessionRun))) sessionTurns
           (snd sessionRun) (fst (fst (fst sessionRun))) (snd (fst sessionRun))).
  reflexivity.
Defined.

Lemma serve_cleans_up_at_the_end_witness :
  exists calls, snd (fst sessionRun) = calls ++ cleanup (snd (fst (fst sessionRun))) /\
    Forall (fun e => isCleanup e = false) calls.
Proof.
  apply (serve_cleans_up_at_the_end codeNumbering acceptKeys acceptDelivery 3 wholeRange
           emptyKey syncerUnlessEmpty freshSession (snd (fst (fst sessionRun))) sessionTurns
           (snd sessionRun) (Some (ErrMessageTooLong (10 * 1024 * 1024 + 1) ProtocolMaxMsgSize))
           (snd (fst sessionRun))).
  reflexivity.
Defined.

Lemma serve_without_swap_takes_no_payment_witness :
  Forall (fun e => isSwapReceive e = false) (snd (fst sessionRun)).
Proof.
  apply (serve_without_swap_takes_no_payment codeNumbering acceptKeys acceptDelivery 3
           wholeRange emptyKey syncerUnlessEmpty freshSession (snd (fst (fst sessionRun)))
           sessionTurns (snd sessionRun) (fst (fst (fst sessionRun))) (snd (fst sessionRun)));
    reflexivity.
Defined.

(** *** Outgoing messages and the handshake *)

(** The switches of the hive that a session reads. *)
Record hiveSwitches := {
  hiveSwapEnabled : bool;
  hiveSyncEnabled : bool;
  blockWrite : bool
}.

(** Calls on the connection: [p2p.Send(bzz.rw, msg, data)] and
    [bzz.Drop()]. *)
Inductive wire :=
| P2pSend (msg : msgCode) (data : body)
| Drop.

Inductive sendError :=
| ErrWriteBlocked
| ErrSend (reason : string).

(** [statusMsgData], with the fields that the handshake reads. *)
Record statusMsgData := {
  statusVersion : Z;
  statusNetworkId : Z;
  statusAddr : Key
}.

(** The first message read from the peer: its code, its size and what
    [msg.Decode(&status)] makes of its payload. *)
Record firstMsg := {
  firstCode : Z;
  firstSize : Z;
  firstStatus : option statusMsgData
}.

Inductive handshakeError :=
| ErrSendStatus (reason : string)
| ErrFirstRead (reason : string)
| ErrFirstCode (code : Z)
| ErrFirstTooLong (size limit : Z)
| ErrStatusDecode (code : Z)
| ErrNetworkId (theirs ours : Z)
| ErrVersion (theirs ours : Z)
| ErrNewSwap (reason : string)
| ErrAddPeer (reason : string).

(** Calls made during the handshake. *)
Inductive step :=
| SendStatus (networkId : Z)
| NewSwap
| HiveAddPeer
| OnWire (w : wire).

(** What the surroundings answer during the handshake: the error of sending
    the status, the first read, the swap and error returned by
    [bzzswap.NewSwap] (whether the swap is non-nil), and the outgoing sync
    state that [hive.addPeer] leaves in the session with its error. *)
Record surroundings := {
  statusSent : option string;
  firstRead : firstMsg + string;
  swapMade : bool * option string;
  peerAdded : option syncState * option string
}.

Definition setRemoteAddr (b : bzz) (addr : Key) : bzz :=
  {| remoteAddr := addr; lastActive := lastActive b; swapEnabled := swapEnabled b;
     syncEnabled := syncEnabled b; swapActive := swapActive b; syncerOf := syncerOf b |}.

Definition setSwapActive (b : bzz) (on : bool) : bzz :=
  {| remoteAddr := remoteAddr b; lastActive := lastActive b; swapEnabled := swapEnabled b;
     syncEnabled := syncEnabled b; swapActive := on; syncerOf := syncerOf b |}.

Section Outgoing.

Variable codeOf : Z -> option msgCode.
Variable storageUnsyncedKeys : unsyncedKeysMsgData -> option string.
Variable storageDeliveryRequest : deliveryRequestMsgData -> option string.
Variable counter : Z.
Variable KeyRange : Key -> Key * Key.
Variable IsZeroKey : Key -> bool.
Variable newSyncer : Key -> syncState -> bool -> option syncer * option string.

(** The error of [p2p.Send], of the p2p package. *)
Variable p2pSend : msgCode -> body -> option string.

(** [func (bzz *bzz) send(msg uint64, data interface{}) error] *)
Definition send (hive : hiveSwitches) (msg : msgCode) (data : body)
  : option sendError * list wire :=
  if blockWrite hive then (Some ErrWriteBlocked, [])
  else
    match p2pSend msg data with
    | Some reason => (Some (ErrSend reason), [P2pSend msg data; Drop])
    | None => (None, [P2pSend msg data])
    end.

(** [func (bzz *bzz) syncRequest() error]; [outgoing] is [bzz.syncState]. *)
Definition syncRequest (hive : hiveSwitches) (outgoing : option syncState)
  : option sendError * list wire :=
  let req := {| SyncState := if hiveSyncEnabled hive then outgoing else None |} in
  send hive syncRequestMsg (SyncRequestBody req).

(** [func (bzz *bzz) store(req *storeRequestMsgData) error] *)
Definition store (hive : hiveSwitches) (req : storeRequestMsgData)
  : option sendError * list wire :=
  send hive storeRequestMsg (StoreRequestBody req).

(** [func (bzz *bzz) retrieve(req *retrieveRequestMsgData) error] *)
Definition retrieve (hive : hiveSwitches) (req : retrieveRequestMsgData)
  : option sendError * list wire :=
  send hive retrieveRequestMsg (RetrieveRequestBody req).

(** [func (bzz *bzz) handleStatus() (err error)] *)
Definition handleStatus (networkId : Z) (hive : hiveSwitches) (env : surroundings)
    (b : bzz) : option handshakeError * bzz * list step :=
  match statusSent env with
  | Some reason => (Some (ErrSendStatus reason), b, [SendStatus networkId])
  | None =>
      match firstRead env with
      | inr reason => (Some (ErrFirstRead reason), b, [SendStatus networkId])
      | inl msg =>
          match codeOf (firstCode msg) with
          | Some statusMsg =>
              if ProtocolMaxMsgSize <? firstSize msg then
                (Some (ErrFirstTooLong (firstSize msg) ProtocolMaxMsgSize), b,
                 [SendStatus networkId])
              else
                match firstStatus msg with
                | None => (Some (ErrStatusDecode (firstCode msg)), b, [SendStatus networkId])
                | Some status =>
                    if negb (statusNetworkId status =? networkId) then
                      (Some (ErrNetworkId (statusNetworkId status) networkId), b,
                       [SendStatus networkId])
                    else if negb (Version =? statusVersion status) then
                      (Some (ErrVersion (statusVersion status) Version), b,
                       [SendStatus networkId])
                    else
                      let b := setRemoteAddr b (statusAddr status) in
                      let '(swapErr, b, swapSteps) :=
                        if swapEnabled b then
                          (snd (swapMade env), setSwapActive b (fst (swapMade env)), [NewSwap])
                        else (None, b, []) in
                      match swapErr with
                      | Some reason =>
                          (Some (ErrNewSwap reason), b, [SendStatus networkId] ++ swapSteps)
                      | None =>
                          match snd (peerAdded env) with
                          | Some reason =>
                              (Some (ErrAddPeer reason), b,
                               [SendStatus networkId] ++ swapSteps ++ [HiveAddPeer])
                          | None =>
                              let '(_, sent) := syncRequest hive (fst (peerAdded env)) in
                              (None, b,
                               [SendStatus networkId] ++ swapSteps ++ [HiveAddPeer] ++
                               map OnWire sent)
                          end
                      end
                end
          | _ => (Some (ErrFirstCode (firstCode msg)), b, [SendStatus networkId])
          end
      end
  end.

(** [func run(...) (err error)]: the session is made, the handshake done,
    and only then is the clean-up deferred and the loop entered. *)
Definition run (networkId : Z) (hive : hiveSwitches) (env : surroundings)
    (turns : list turn)
  : option (handshakeError + error) * bzz * list step * list event * list turn :=
  let self := {| remoteAddr := []; lastActive := 0; swapEnabled := hiveSwapEnabled hive;
                 syncEnabled := true; swapActive := false; syncerOf := None |} in
  match handleStatus networkId hive env self with
  | (Some err, b, steps) => (Some (inl err), b, steps, [], turns)
  | (None, b, steps) =>
      let '(err, b', evs, unread) :=
        serve codeOf storageUnsyncedKeys storageDeliveryRequest counter KeyRange IsZeroKey
          newSyncer b turns in
      (inr <$> err, b', steps, evs, unread)
  end.

(** A status that the handshake accepts. *)
Definition accepts (networkId : Z) (env : surroundings) (status : statusMsgData) : Prop :=
  statusSent env = None /\
  (exists msg, firstRead env = inl msg /\ codeOf (firstCode msg) = Some statusMsg /\
     firstSize msg <= ProtocolMaxMsgSize /\ firstStatus msg = Some status) /\
  statusNetworkId status = networkId /\ statusVersion status = Version /\
  snd (peerAdded env) = None.

Lemma handleStatus_ok networkId hive env b b' steps :
  handleStatus networkId hive env b = (None, b', steps) ->
  exists status, accepts networkId env status /\
    remoteAddr b' = statusAddr status /\ swapEnabled b' = swapEnabled b /\
    syncerOf b' = syncerOf b /\
    HiveAddPeer ∈ steps /\
    (swapEnabled b = true -> snd (swapMade env) = None /\ NewSwap ∈ steps).
Proof.
  unfold handleStatus, accepts.
  destruct (statusSent env) as [reason|]; [done|].
  destruct (firstRead env) as [msg|reason]; [|done].
  destruct (codeOf (firstCode msg)) as [[]|] eqn:Hcode; try done.
  destruct (Z.ltb_spec ProtocolMaxMsgSize (firstSize msg)); [done|].
  destruct (firstStatus msg) as [status|] eqn:Hstatus; [|done].
  destruct (Z.eqb_spec (statusNetworkId status) networkId); [|done].
  destruct (Z.eqb_spec Version (statusVersion status)); [|done].
  cbn [negb]. cbn beta iota zeta.
  change (swapEnabled (setRemoteAddr b (statusAddr status))) with (swapEnabled b).
  destruct (swapEnabled b) eqn:Hswap.
  - destruct (swapMade env) as [made [reason|]]; [done|]. cbn [fst snd].
    destruct (snd (peerAdded env)) as [reason|] eqn:Hadd; [done|].
    destruct (syncRequest hive _) as [sendErr sent]. intros [= <- <-].
    exists status. split; [|split; [done|split; [done|split; [done|split]]]].
    + split; [done|]. split; [by exists msg|]. done.
    + simpl. rewrite !elem_of_cons. tauto.
    + intros _. split; [done|]. simpl. rewrite !elem_of_cons. tauto.
  - destruct (snd (peerAdded env)) as [reason|] eqn:Hadd; [done|].
    destruct (syncRequest hive _) as [sendErr sent]. intros [= <- <-].
    exists status. split; [|split; [done|split; [done|split; [done|split]]]].
    + split; [done|]. split; [by exists msg|]. done.
    + simpl. rewrite !elem_of_cons. tauto.
    + done.
Qed.

Lemma handleStatus_failed networkId hive env b err b' steps :
  handleStatus networkId hive env b = (Some err, b', steps) ->
  (forall reason, err = ErrAddPeer reason ->
     swapEnabled b = true -> swapActive b' = fst (swapMade env) /\ NewSwap ∈ steps).
Proof.
  unfold handleStatus.
  destruct (statusSent env) as [reason|]; [by intros [= <- _ _]|].
  destruct (firstRead env) as [msg|reason]; [|by intros [= <- _ _]].
  destruct (codeOf (firstCode msg)) as [[]|] eqn:Hcode; try by intros [= <- _ _].
  destruct (Z.ltb_spec ProtocolMaxMsgSize (firstSize msg)); [by intros [= <- _ _]|].
  destruct (firstStatus msg) as [status|] eqn:Hstatus; [|by intros [= <- _ _]].
  destruct (Z.eqb_spec (statusNetworkId status) networkId); [|by intros [= <- _ _]].
  destruct (Z.eqb_spec Version (statusVersion status)); [|by intros [= <- _ _]].
  cbn [negb]. cbn beta iota zeta.
  change (swapEnabled (setRemoteAddr b (statusAddr status))) with (swapEnabled b).
  destruct (swapEnabled b) eqn:Hswap.
  - destruct (swapMade env) as [made [reason|]]; [by intros [= <- _ _]|]. cbn [fst snd].
    destruct (snd (peerAdded env)) as [reason|] eqn:Hadd.
    + intros [= <- <- <-]. intros reason' _ _. split; [done|].
      simpl. rewrite !elem_of_cons. tauto.
    + by destruct (syncRequest hive _) as [sendErr sent].
  - destruct (snd (peerAdded env)) as [reason|] eqn:Hadd.
    + intros [= <- <- <-]. intros reason' _ [=].
    + by destruct (syncRequest hive _) as [sendErr sent].
Qed.

(** X21: a request for synchronisation that carries no state switches
    synchronisation off at the peer that receives it: when the hive of the
    sender has synchronisation disabled (or the session has no outgoing
    state) and the request goes out, a receiving session without a syncer
    that reads it returns no error, marks itself active, clears its
    synchronisation switch and keeps the syncer that [newSyncer] builds for
    the empty, synced state. *)
Theorem syncRequest_without_state_disables_sync
    (hive : hiveSwitches) (outgoing : option syncState) (result : option sendError)
    (code : msgCode) (data : body) (more : list wire)
    (remote : bzz) (now : Z) (msg : Msg) :
  hiveSyncEnabled hive = false \/ outgoing = None ->
  syncRequest hive outgoing = (result, P2pSend code data :: more) ->
  codeOf (Code msg) = Some code -> Payload msg = data ->
  Size msg <= ProtocolMaxMsgSize ->
  syncerOf remote = None ->
  handle codeOf storageUnsyncedKeys storageDeliveryRequest counter KeyRange IsZeroKey
    newSyncer remote now (inl msg) =
  (None,
   setSyncer (setSyncEnabled (setLastActive remote now) false)
     (fst (newSyncer (remoteAddr remote)
             {| Start := []; Stop := []; SessionAt := 0; Synced := true |} false)),
   [Discard]).
Proof.
  intros Hnone Hsent Hcode Hdata Hsize Hsyncer.
  assert (Hreq : code = syncRequestMsg /\
                 data = SyncRequestBody {| SyncState := None |}).
  { unfold syncRequest, send in Hsent.
    assert (Hstate : (if hiveSyncEnabled hive then outgoing else None) = None).
    { destruct Hnone as [-> | ->]; [done|by destruct (hiveSyncEnabled hive)]. }
    rewrite Hstate in Hsent.
    destruct (blockWrite hive); [done|].
    destruct (p2pSend _ _); by injection Hsent as _ <- <- _. }
  destruct Hreq as [-> ->]. unfold handle.
  destruct (Z.ltb_spec ProtocolMaxMsgSize (Size msg)); [lia|].
  unfold dispatch. rewrite Hcode, Hdata. cbn beta iota zeta.
  unfold sync. change (syncerOf (setLastActive remote now)) with (syncerOf remote).
  rewrite Hsyncer. unfold syncSetup. cbn [SyncState].
  change (remoteAddr (setLastActive remote now)) with (remoteAddr remote).
  destruct (KeyRange (remoteAddr remote)) as [start stop].
  cbn [remoteAddr setSyncEnabled syncEnabled].
  destruct (newSyncer _ _ _) as [s [reason|]]; done.
Qed.

(** X22: the loop of a session only ever runs after a complete handshake:
    when [run] serves any turn at all, the status was sent, the first message
    read was a status of admissible size with the node's network id and the
    protocol version, the hive accepted the peer, and the session keeps the
    address advertised in that status to its end.  When the handshake fails,
    [run] returns before the clean-up is deferred: no turn is read and no
    clean-up call is made -- also when the failure comes from the hive after
    the swap was made, which is then not stopped. *)
Theorem run_serves_after_handshake (networkId : Z) (hive : hiveSwitches)
    (env : surroundings) (turns unread : list turn)
    (err : option (handshakeError + error)) (b : bzz)
    (steps : list step) (evs : list event) :
  run networkId hive env turns = (err, b, steps, evs, unread) ->
  ((evs <> [] \/ unread <> turns) ->
     exists status, accepts networkId env status /\ HiveAddPeer ∈ steps /\
       remoteAddr b = statusAddr status /\ swapEnabled b = hiveSwapEnabled hive) /\
  (forall e, err = Some (inl e) ->
     evs = [] /\ unread = turns /\
     (forall reason, e = ErrAddPeer reason -> hiveSwapEnabled hive = true ->
        NewSwap ∈ steps /\ swapActive b = fst (swapMade env))).
Proof.
  unfold run.
  destruct (handleStatus _ _ _ _) as [[[e|] b0] steps0] eqn:Hhs.
  - intros [= <- <- <- <- <-]. split.
    + intros [Hevs|Hun]; done.
    + intros e' [= <-]. split; [done|]. split; [done|].
      intros reason -> Hswap.
      destruct (handleStatus_failed _ _ _ _ _ _ _ Hhs reason eq_refl Hswap) as [H1 H2].
      done.
  - destruct (serve _ _ _ _ _ _ _ b0 turns) as [[[err2 b2] evs2] un2] eqn:Hserve.
    intros [= <- <- <- <- <-]. split.
    + intros _. apply handleStatus_ok in Hhs as (status & Hacc & Haddr & Hsw & _ & Hadd & _).
      apply serve_kept in Hserve as (Ha & Hs & _).
      simpl in Hsw. exists status. split; [done|]. split; [done|].
      split; congruence.
    + intros e'. by destruct err2.
Qed.

End Outgoing.

Definition sendsFine (_ : msgCode) (_ : body) : option string := None.

Definition quietHive : hiveSwitches :=
  {| hiveSwapEnabled := true; hiveSyncEnabled := false; blockWrite := false |}.

Definition sampleStatus : statusMsgData :=
  {| statusVersion := 0; statusNetworkId := 3; statusAddr := replicate 32 9 |}.

Definition goodHandshake : surroundings :=
  {| statusSent := None;
     firstRead := inl {| firstCode := 0; firstSize := 100; firstStatus := Some sampleStatus |};
     swapMade := (true, None);
     peerAdded := (Some sampleSyncState, None) |}.

Definition refusedByHive : surroundings :=
  {| statusSent := None;
     firstRead := inl {| firstCode := 0; firstSize := 100; firstStatus := Some sampleStatus |};
     swapMade := (true, None);
     peerAdded := (None, Some "peer not wanted") |}.

Lemma syncRequest_without_state_disables_sync_witness :
  handle codeNumbering acceptKeys acceptDelivery 3 wholeRange emptyKey syncerUnlessEmpty
    freshSession 9 (inl (syncMessage None)) =
  (None, setSyncer (setSyncEnabled (setLastActive freshSession 9) false) None, [Discard]).
Proof.
  apply (syncRequest_without_state_disables_sync codeNumbering acceptKeys acceptDelivery 3
           wholeRange emptyKey syncerUnlessEmpty sendsFine quietHive (Some sampleSyncState)
           None syncRequestMsg (SyncRequestBody {| SyncState := None |}) []
           freshSession 9 (syncMessage None)); try reflexivity.
  - by left.
  - simpl. unfold ProtocolMaxMsgSize. lia.
Defined.

Lemma run_serves_after_handshake_witness :
  (exists status, accepts codeNumbering 3 goodHandshake status /\
     remoteAddr (snd (fst (fst (fst
       (run codeNumbering acceptKeys acceptDelivery 3 wholeRange emptyKey
          syncerUnlessEmpty sendsFine 3 quietHive goodHandshake sessionTurns)))))
       = statusAddr status) /\
  snd (fst (run codeNumbering acceptKeys acceptDelivery 3 wholeRange emptyKey
              syncerUnlessEmpty sendsFine 3 quietHive refusedByHive sessionTurns)) = [].
Proof.
  split.
  - destruct (run_serves_after_handshake codeNumbering acceptKeys acceptDelivery 3
                wholeRange emptyKey syncerUnlessEmpty sendsFine 3 quietHive goodHandshake
                sessionTurns _ _ _ _ _ eq_refl) as [Hserved _].
    destruct Hserved as (status & Hacc & _ & Haddr & _); [by left|].
    by exists status.
  - destruct (run_serves_after_handshake codeNumbering acceptKeys acceptDelivery 3
                wholeRange emptyKey syncerUnlessEmpty sendsFine 3 quietHive refusedByHive
                sessionTurns _ _ _ _ _ eq_refl) as [_ Hfailed].
    by destruct (Hfailed (ErrAddPeer "peer not wanted") eq_refl) as (Hevs & _).
Defined.

End Bzz.

(** ** The structured-data signing endpoint (package core) *)

Module Signer.

(** [type TypedData ethereum.TypedData]: the request, of which only the
    optional hash is decoded. *)
Record TypedData := { Hash : option (list Z) }.

(** [common.MixedcaseAddress]: the address and the string it was given as. *)
Record MixedcaseAddress := { addr : list Z; original : string }.

(** What a call can do besides returning: print a line, hash a message, or
    ask the key store for a signature. *)
Inductive printed :=
| ShownData (data : TypedData)
| ShownHash (hash : option (list Z)).

Inductive effect :=
| Println (label : string) (value : printed)
| HashStruct (message : list Z)
| SignHash (account : list Z) (hash : list Z).

Definition isPrintln (e : effect) : bool :=
  match e with
  | Println _ _ => true
  | _ => false
  end.

Section Endpoint.

(** [common.Hex2Bytes], of the common package. *)
Variable Hex2Bytes : string -> list Z.

(** [func (api *SignerAPI) SignStructuredData(ctx, addr, data) (hexutil.Bytes, error)]:
    the returned pair and the effects of the call. *)
Definition SignStructuredData (addr : MixedcaseAddress) (data : TypedData)
  : (list Z * option string) * list effect :=
  ((Hex2Bytes "0xdeadbeef", None),
   [Println "data" (ShownData data); Println "data.Hash" (ShownHash (Hash data))]).

(** C8: for every address and every typed-data input, [SignStructuredData]
    returns the same placeholder bytes with a nil error, whatever the
    arguments, and does nothing but print: it neither hashes nor signs. *)
Theorem SignStructuredData_placeholder
    (addr addr' : MixedcaseAddress) (data data' : TypedData) :
  fst (SignStructuredData addr data) = (Hex2Bytes "0xdeadbeef", None) /\
  fst (SignStructuredData addr data) = fst (SignStructuredData addr' data') /\
  Forall (fun e => isPrintln e = true) (snd (SignStructuredData addr data)).
Proof.
  split; [reflexivity|split; [reflexivity|]].
  repeat constructor.
Qed.

End Endpoint.

(** *** Decoding the request *)

Section Decoding.

(** [json.Unmarshal(data, &raw)] for [raw] of the type
    [struct { Hash *common.Hash }]: the decoded pointer ([None] when the
    document has no hash), or the error. *)
Variable jsonUnmarshal : list Z -> option (list Z) + string.

(** [func (args *TypedData) UnmarshalJSON(data []byte) error]: the error and
    [*args] after the call. *)
Definition UnmarshalJSON (args : TypedData) (data : list Z) : option string * TypedData :=
  match jsonUnmarshal data with
  | inr reason => (Some reason, args)
  | inl raw =>
      match raw with
      | Some hash => (None, {| Hash := Some hash |})
      | None => (None, args)
      end
  end.

(** The hash that a document carries, if it decodes and has one. *)
Definition hashOf (data : list Z) : option (list Z) :=
  match jsonUnmarshal data with
  | inl (Some hash) => Some hash
  | _ => None
  end.

(** X23: decoding never clears a hash: after any run of [UnmarshalJSON]
    on the same request, its hash is the one of the last document that
    decoded and carried a hash, and the hash it started with when there was
    none; documents that fail to decode or have no hash leave it alone. *)
Theorem UnmarshalJSON_keeps_last_hash (args : TypedData) (docs : list (list Z)) :
  Hash (foldl (fun a data => snd (UnmarshalJSON a data)) args docs) =
    match last (omap hashOf docs) with
    | Some hash => Some hash
    | None => Hash args
    end.
Proof.
  induction docs as [|data docs IH] using rev_ind; [done|].
  rewrite foldl_app, omap_app. simpl. unfold UnmarshalJSON, hashOf.
  destruct (jsonUnmarshal data) as [[hash|]|reason]; simpl.
  - by rewrite last_snoc.
  - by rewrite app_nil_r.
  - by rewrite app_nil_r.
Qed.

End Decoding.

End Signer.

(** ** The state tree synchronizer (core/state/sync_test.go and its scheduler) *)

Module StateSync.

(** The hash of the empty tree, as [testEmptyStateSync] spells it. *)
Definition emptyRoot : Z :=
  0x56e81f171bcc55a6ff8345e692c0f86e5b48e01b996cadc001622fb5e363b421.

(** [ethdb.Database] as the synchronizer and the tests use it: node data by
    hash, and the parent-reference index entries (the keys under
    [trie.ParentReferenceIndexPrefix]) as pairs (parent, child).  A hash is
    the integer of its 32 bytes; [common.Hash{}] is 0. *)
Record Database := {
  nodes : gmap Z (list Z);
  refs : gset (Z * Z)
}.

(** [ethdb.NewMemDatabase()] *)
Definition NewMemDatabase : Database := {| nodes := ∅; refs := ∅ |}.

(** A state read back from a store: the empty state, or the tree of the
    nodes below a root. *)
#[local] Unset Elimination Schemes.
Inductive tree :=
| EmptyTree
| Node (data : list Z) (kids : list tree).
#[local] Set Elimination Schemes.

(** [testAccount]: what [checkStateAccounts] compares. *)
Record testAccount := { balance : Z; nonce : Z; code : list Z }.

Inductive error :=
| NotRequested (hash : Z)
| HashMismatch (hash : Z).

Section Scheduler.

(** Outside the repository: the hash of a node's data, and the decoding of
    node data into the hashes it refers to (none for a leaf without code or
    storage). *)
Variable Keccak256 : list Z -> Z.
Variable references : list Z -> list Z.

(** Outside the sources at hand as well: the reading of the account at an
    address off a state ([GetBalance], [GetNonce] and [GetCode] of
    [checkStateAccounts]). *)
Variable accountOf : tree -> Z -> option testAccount.

(** The child hashes of a node: its references that are not the empty hash. *)
Definition children (data : list Z) : list Z :=
  filter (fun c => c <> 0) (references data).

(** Modelled from the spec: the scheduler behind [NewStateSync], [Missing] and
    [Process] ([state.StateSync] over [trie.TrieSync]) is not part of the
    sources at hand.  [requests] are the hashes known to be missing, of which
    [queue] lists those that [Missing] has not handed out yet.  A result that
    was received is kept in [held], in memory, and reaches the destination
    store [database] only once every node below it is there: the store never
    holds an incomplete sub-tree.  [target] and [referrer] are the root to
    reconstruct and the origin it hangs under. *)
Record StateSync := {
  database : Database;
  held : gmap Z (list Z);
  requests : gset Z;
  queue : list Z;
  target : Z;
  referrer : Z
}.

(** Modelled from the spec: the index entries that record [kids] under
    [parent]; the empty hash is no parent. *)
Definition parentReferences (parent : Z) (kids : list Z) : list (Z * Z) :=
  if decide (parent = 0) then [] else (fun c => (parent, c)) <$> kids.

(** Modelled from the spec: [NewStateSync(root, database, origin)].  For the
    empty tree nothing is pending: it is complete as it stands, and the
    reference of the root under a non-empty origin, which the spec asks for
    whatever the tree, is recorded at once.  Otherwise the root is the one
    pending request. *)
Definition NewStateSync (root : Z) (db : Database) (origin : Z) : StateSync :=
  if decide (root = emptyRoot) then
    {| database := {| nodes := nodes db;
                      refs := refs db ∪ list_to_set (parentReferences origin [root]) |};
       held := ∅; requests := ∅; queue := []; target := root; referrer := origin |}
  else
    {| database := db; held := ∅; requests := {[ root ]}; queue := [root];
       target := root; referrer := origin |}.

(** Modelled from the spec: [Missing(max)] hands out up to [max] of the
    missing hashes, all of them when [max] is 0. *)
Definition Missing (max : nat) (s : StateSync) : list Z * StateSync :=
  let n := match max with O => length (queue s) | _ => max end in
  (take n (queue s),
   {| database := database s; held := held s; requests := requests s;
      queue := drop n (queue s); target := target s; referrer := referrer s |}).

(** Modelled from the spec: the nodes received so far, those in the store
    and those held back. *)
Definition received (s : StateSync) : gmap Z (list Z) :=
  held s ∪ nodes (database s).

(** Modelled from the spec: a child [c] revealed by a node that was just
    received is enqueued unless it is resolved or in flight already. *)
Definition discover (s : StateSync) (c : Z) : StateSync :=
  if decide (is_Some (received s !! c) \/ c ∈ requests s) then s
  else
    {| database := database s; held := held s;
       requests := {[ c ]} ∪ requests s; queue := queue s ++ [c];
       target := target s; referrer := referrer s |}.

(** Modelled from the spec: a node is complete in a store when all its
    children are there. *)
Definition complete (db : gmap Z (list Z)) (data : list Z) : bool :=
  forallb (fun c => bool_decide (is_Some (db !! c))) (children data).

(** Modelled from the spec: the held nodes that are complete in the store,
    and the others. *)
Definition ready (s : StateSync) : gmap Z (list Z) :=
  filter (fun e => complete (nodes (database s)) e.2 = true) (held s).

Definition waiting (s : StateSync) : gmap Z (list Z) :=
  filter (fun e => complete (nodes (database s)) e.2 = false) (held s).

(** Modelled from the spec: the index entries written with a node, its
    references to its children and, for the root, its own reference under the
    origin. *)
Definition entriesOf (s : StateSync) (e : Z * list Z) : list (Z * Z) :=
  parentReferences e.1 (children e.2) ++
  (if decide (e.1 = target s) then parentReferences (referrer s) [e.1] else []).

(** Modelled from the spec: the held nodes that have become complete are
    written to the store, each with its index entries. *)
Definition commit (s : StateSync) : StateSync :=
  {| database :=
       {| nodes := ready s ∪ nodes (database s);
          refs := refs (database s) ∪ list_to_set (map_to_list (ready s) ≫= entriesOf s) |};
     held := waiting s; requests := requests s; queue := queue s;
     target := target s; referrer := referrer s |}.

(** Modelled from the spec: committing a node may complete the nodes that
    refer to it, so [commit] is repeated until no held node is complete;
    [fuel] bounds the repetitions. *)
Fixpoint settle (fuel : nat) (s : StateSync) : StateSync :=
  match fuel with
  | O => s
  | S fuel' => if decide (ready s = ∅) then s else settle fuel' (commit s)
  end.

(** Modelled from the spec: one result of a batch.  It must have been
    requested and its data must hash to the requested hash; it is taken off
    the requests and kept, its children are discovered, and what has become
    complete is committed. *)
Definition processOne (h : Z) (data : list Z) (s : StateSync) : error + StateSync :=
  if decide (h ∈ requests s) then
    if decide (Keccak256 data = h) then
      let s1 := {| database := database s; held := <[h := data]> (held s);
                   requests := requests s ∖ {[ h ]}; queue := queue s;
                   target := target s; referrer := referrer s |} in
      let s2 := foldl discover s1 (children data) in
      inr (settle (size (held s2)) s2)
    else inl (HashMismatch h)
  else inl (NotRequested h).

(** Modelled from the spec: [Process(results)], from index [i] on; on a bad
    result it returns its index and the error, and what was processed before
    stays committed. *)
Fixpoint ProcessFrom (i : nat) (results : list (Z * list Z)) (s : StateSync)
  : option (nat * error) * StateSync :=
  match results with
  | [] => (None, s)
  | (h, data) :: rest =>
      match processOne h data s with
      | inl err => (Some (i, err), s)
      | inr s' => ProcessFrom (S i) rest s'
      end
  end.

(** Modelled from the spec: [Process(results)]. *)
Definition Process (results : list (Z * list Z)) (s : StateSync)
  : option (nat * error) * StateSync :=
  ProcessFrom 0 results s.

(** Modelled from the spec: the full offline iteration of the nodes below
    [h] ([NewNodeIterator] and [Next]), as the list of (parent, hash) of the
    nodes met; it fails on a missing node.  [fuel] bounds the depth. *)
Fixpoint nodeIterator (fuel : nat) (db : gmap Z (list Z)) (parent h : Z)
  : option (list (Z * Z)) :=
  match fuel with
  | O => None
  | S fuel' =>
      match db !! h with
      | None => None
      | Some data =>
          match mapM (nodeIterator fuel' db h) (children data) with
          | None => None
          | Some below => Some ((parent, h) :: concat below)
          end
      end
  end.

(** Modelled from the spec: the iteration of the state at [root]; the state
    at the hash of the empty tree has no node, whatever the store holds. *)
Definition iteration (fuel : nat) (db : gmap Z (list Z)) (root : Z)
  : option (list (Z * Z)) :=
  if decide (root = emptyRoot) then Some [] else nodeIterator fuel db 0 root.

(** Modelled from the spec: the nodes below [h] read back from a store. *)
Fixpoint reconstruct (fuel : nat) (db : gmap Z (list Z)) (h : Z) : option tree :=
  match fuel with
  | O => None
  | S fuel' =>
      match db !! h with
      | None => None
      | Some data =>
          match mapM (reconstruct fuel' db) (children data) with
          | None => None
          | Some kids => Some (Node data kids)
          end
      end
  end.

(** Modelled from the spec: [state.New(root, db)] followed by reads, which
    walk the nodes below the root; the state at the hash of the empty tree is
    empty. *)
Definition stateAt (fuel : nat) (db : gmap Z (list Z)) (root : Z) : option tree :=
  if decide (root = emptyRoot) then Some EmptyTree else reconstruct fuel db root.

(** The account at [address] in the state at [root] of a store. *)
Definition stateAccount (fuel : nat) (db : gmap Z (list Z)) (root address : Z)
  : option testAccount :=
  match stateAt fuel db root with
  | Some state => accountOf state address
  | None => None
  end.

(** [func checkStateIndex(db, root, parent) error]: the entries that the
    iteration reports, and the one under [parent] if it is set, are exactly
    the index entries of the database; the root itself must be stored. *)
Definition expectedIndex (entries : list (Z * Z)) (root parent : Z) : gset (Z * Z) :=
  list_to_set (filter (fun e => e.2 <> 0 /\ e.1 <> 0) entries) ∪
  (if decide (parent = 0) then ∅ else {[ (parent, root) ]}).

Definition checkStateIndex (fuel : nat) (db : Database) (root parent : Z) : bool :=
  match nodes db !! root with
  | None => false
  | Some _ =>
      match iteration fuel (nodes db) root with
      | None => false
      | Some entries =>
          let indexes := expectedIndex entries root parent in
          bool_decide (indexes ⊆ refs db) && bool_decide (refs db ⊆ indexes)
      end
  end.

(** The driver of the tests: [pending] is their [queue], the hashes handed
    out by [Missing] and not delivered yet. *)
Record driver := {
  sched : StateSync;
  pending : gset Z
}.

(** [sched := NewStateSync(srcRoot, dstDb, origin)] on a fresh destination,
    then [queue := sched.Missing(max)]. *)
Definition start (root origin : Z) (max : nat) : driver :=
  let '(hashes, s) := Missing max (NewStateSync root NewMemDatabase origin) in
  {| sched := s; pending := list_to_set hashes |}.

(** [data, err := srcDb.Get(hash.Bytes())] for each hash of a batch; a failed
    read aborts the test. *)
Definition fetch (srcDb : gmap Z (list Z)) (batch : list Z) : option (list (Z * list Z)) :=
  mapM (fun h => match srcDb !! h with Some data => Some (h, data) | None => None end) batch.

(** One turn of the loop of a test: the hashes of [batch], in that order, are
    taken off the queue, read from the source and processed; then
    [Missing(max)] is added to the queue.  [None] is a failed test
    ([t.Fatalf]). *)
Definition round (srcDb : gmap Z (list Z)) (batch : list Z) (max : nat) (d : driver)
  : option driver :=
  match fetch srcDb batch with
  | None => None
  | Some results =>
      match Process results (sched d) with
      | (Some _, _) => None
      | (None, s) =>
          let '(hashes, s') := Missing max s in
          Some {| sched := s';
                  pending := (pending d ∖ list_to_set batch) ∪ list_to_set hashes |}
      end
  end.

Fixpoint rounds (srcDb : gmap Z (list Z)) (turns : list (list Z * nat)) (d : driver)
  : option driver :=
  match turns with
  | [] => Some d
  | (batch, max) :: rest =>
      match round srcDb batch max d with
      | None => None
      | Some d' => rounds srcDb rest d'
      end
  end.

(** The loop of a test, [for len(queue) > 0 { ... }]: at each turn [choose]
    picks, from the number of turns left and the state, the batch to deliver
    and the argument of [Missing]; [fuel] bounds the number of turns. *)
Fixpoint loop (srcDb : gmap Z (list Z)) (choose : nat -> driver -> list Z * nat)
    (fuel : nat) (d : driver) : option driver :=
  if decide (pending d = ∅) then Some d
  else
    match fuel with
    | O => None
    | S fuel' =>
        match round srcDb (choose fuel d).1 (choose fuel d).2 d with
        | None => None
        | Some d' => loop srcDb choose fuel' d'
        end
    end.

(** The outcome that [checkStateAccounts] checks on the destination [dst]:
    the accounts and the state of the source, and the index of the offline
    iteration with the entry of the root under [parent]. *)
Definition synced (srcDb : gmap Z (list Z)) (root parent : Z) (dst : Database) : Prop :=
  (forall fuel address,
     stateAccount fuel (nodes dst) root address = stateAccount fuel srcDb root address) /\
  (forall fuel,
     stateAt fuel (nodes dst) root = stateAt fuel srcDb root /\
     iteration fuel (nodes dst) root = iteration fuel srcDb root) /\
  (forall fuel entries,
     iteration fuel (nodes dst) root = Some entries ->
     refs dst = expectedIndex entries root parent /\
     (root <> emptyRoot -> checkStateIndex fuel dst root parent = true)).
(** *** The graph of a node store *)

(** [p] is stored and its data names [c] as a child. *)
Definition refersTo (db : gmap Z (list Z)) (p c : Z) : Prop :=
  exists data, db !! p = Some data /\ c ∈ children data.

(** [p] is met when the stored tree is walked down from [h]. *)
Inductive Reach (db : gmap Z (list Z)) : Z -> Z -> Prop :=
| Reach_refl h : Reach db h h
| Reach_step h c p : refersTo db h c -> Reach db c p -> Reach db h p.

Lemma Reach_right db a b c : Reach db a b -> refersTo db b c -> Reach db a c.
Proof.
  induction 1 as [h|h c' p Hedge _ IH]; intros Hbc.
  - eapply Reach_step; [exact Hbc|apply Reach_refl].
  - eapply Reach_step; [exact Hedge|by apply IH].
Qed.

Lemma Reach_inv db h p :
  Reach db h p -> p = h \/ exists c, refersTo db h c /\ Reach db c p.
Proof. destruct 1 as [h|h c p Hedge Hrest]; [by left|right; by exists c]. Qed.

Lemma refersTo_mono db db' p c : db ⊆ db' -> refersTo db p c -> refersTo db' p c.
Proof.
  intros Hsub (data & Hp & Hc). exists data. split; [|done].
  by eapply lookup_weaken.
Qed.

Lemma Reach_mono db db' a b : db ⊆ db' -> Reach db a b -> Reach db' a b.
Proof.
  intros Hsub. induction 1 as [h|h c p Hedge _ IH]; [apply Reach_refl|].
  eapply Reach_step; [by eapply refersTo_mono|done].
Qed.

Lemma children_nonzero data c : c ∈ children data -> c <> 0.
Proof. unfold children. rewrite list_elem_of_filter. tauto. Qed.

Lemma elem_of_concat_iff {A} (x : A) (ls : list (list A)) :
  x ∈ concat ls <-> exists l, l ∈ ls /\ x ∈ l.
Proof.
  induction ls as [|l ls IH]; simpl.
  - split; [by intros ?%elem_of_nil|]. by intros (l & ?%elem_of_nil & _).
  - rewrite elem_of_app, IH. split.
    + intros [Hx|(l' & Hl' & Hx)].
      * exists l. split; [apply list_elem_of_here|done].
      * exists l'. split; [by apply list_elem_of_further|done].
    + intros (l' & Hl' & Hx). apply elem_of_cons in Hl' as [->|Hl']; [by left|].
      right. by exists l'.
Qed.

(** What the offline iteration reports: the node it starts from, and every
    reference of a node met below it. *)
Lemma nodeIterator_entries fuel db parent h entries p c :
  nodeIterator fuel db parent h = Some entries ->
  (p, c) ∈ entries <->
  (p = parent /\ c = h) \/ (Reach db h p /\ refersTo db p c).
Proof.
  revert parent h entries p c.
  induction fuel as [|fuel IH]; intros parent h entries p c; simpl; [done|].
  destruct (db !! h) as [data|] eqn:Hh; [|done].
  destruct (mapM _ _) as [below|] eqn:Hbelow; [|done].
  intros [= <-]. apply mapM_Some_1 in Hbelow.
  rewrite elem_of_cons, elem_of_concat_iff. split.
  - intros [[= -> ->]|(es & Hes & Hin)]; [by left|]. right.
    apply list_elem_of_lookup in Hes as [i Hi].
    destruct (Forall2_lookup_r _ _ _ _ _ Hbelow Hi) as (c0 & Hc0 & Hit).
    assert (Hedge : refersTo db h c0).
    { exists data. split; [done|]. by eapply list_elem_of_lookup_2. }
    destruct (proj1 (IH _ _ _ p c Hit) Hin) as [[Hp Hc]|[Hreach Hpc]].
    + rewrite Hp, Hc. split; [apply Reach_refl|done].
    + split; [by eapply Reach_step|done].
  - intros [[-> ->]|[Hreach Hpc]]; [by left|]. right.
    assert (Hchild : forall c0, refersTo db h c0 ->
              exists es, es ∈ below /\ nodeIterator fuel db h c0 = Some es).
    { intros c0 (data' & Hd' & Hc0). rewrite Hh in Hd'. injection Hd' as <-.
      apply list_elem_of_lookup in Hc0 as [i Hi].
      destruct (Forall2_lookup_l _ _ _ _ _ Hbelow Hi) as (es & Hes & Hit).
      exists es. split; [by eapply list_elem_of_lookup_2|done]. }
    destruct (Reach_inv _ _ _ Hreach) as [Heq|(c1 & Hedge & Hrest)].
    + subst p. destruct (Hchild c Hpc) as (es & Hes & Hit). exists es. split; [done|].
      apply (IH _ _ _ h c Hit). by left.
    + destruct (Hchild c1 Hedge) as (es & Hes & Hit). exists es. split; [done|].
      apply (IH _ _ _ p c Hit). by right.
Qed.

Lemma mapM_agree {A B} (f g : A -> option B) l :
  (forall x, x ∈ l -> f x = g x) -> mapM f l = mapM g l.
Proof.
  induction l as [|x l IH]; intros Hfg; [done|]. simpl.
  rewrite (Hfg x) by apply list_elem_of_here.
  rewrite IH; [done|]. intros y Hy. apply Hfg. by apply list_elem_of_further.
Qed.

Lemma nodeIterator_agree fuel db db' parent h :
  (forall p data, db !! p = Some data -> db' !! p = Some data) ->
  (forall p c, refersTo db p c -> is_Some (db !! c)) ->
  is_Some (db !! h) ->
  nodeIterator fuel db parent h = nodeIterator fuel db' parent h.
Proof.
  intros Hsub Hclosed. revert parent h.
  induction fuel as [|fuel IH]; intros parent h [data Hh]; simpl; [done|].
  rewrite Hh, (Hsub _ _ Hh).
  rewrite (mapM_agree (nodeIterator fuel db h) (nodeIterator fuel db' h)); [done|].
  intros c Hc. apply IH. apply (Hclosed h c). by exists data.
Qed.

(** Two stores that agree on a set of nodes closed under children give the
    same state below each of them. *)
Lemma reconstruct_agree fuel db db' h :
  (forall p data, db !! p = Some data -> db' !! p = Some data) ->
  (forall p c, refersTo db p c -> is_Some (db !! c)) ->
  is_Some (db !! h) ->
  reconstruct fuel db h = reconstruct fuel db' h.
Proof.
  intros Hsub Hclosed. revert h.
  induction fuel as [|fuel IH]; intros h [data Hh]; simpl; [done|].
  rewrite Hh, (Hsub _ _ Hh).
  rewrite (mapM_agree (reconstruct fuel db) (reconstruct fuel db')); [done|].
  intros c Hc. apply IH. apply (Hclosed h c). by exists data.
Qed.

(** *** The invariant of a synchronisation *)

Lemma complete_spec db data :
  complete db data = true <-> forall c, c ∈ children data -> is_Some (db !! c).
Proof.
  unfold complete. rewrite forallb_forall. split.
  - intros Hall c Hc. apply list_elem_of_In, Hall in Hc.
    by apply bool_decide_eq_true in Hc.
  - intros Hall c Hc. apply bool_decide_eq_true, Hall. by apply list_elem_of_In.
Qed.

Lemma lookup_ready s h data :
  ready s !! h = Some data <->
  held s !! h = Some data /\ complete (nodes (database s)) data = true.
Proof. unfold ready. by rewrite map_lookup_filter_Some. Qed.

Lemma lookup_waiting s h data :
  waiting s !! h = Some data <->
  held s !! h = Some data /\ complete (nodes (database s)) data = false.
Proof. unfold waiting. by rewrite map_lookup_filter_Some. Qed.

Lemma ready_or_waiting s h :
  match held s !! h with
  | None => ready s !! h = None /\ waiting s !! h = None
  | Some data =>
      if complete (nodes (database s)) data
      then ready s !! h = Some data /\ waiting s !! h = None
      else ready s !! h = None /\ waiting s !! h = Some data
  end.
Proof.
  destruct (held s !! h) as [data|] eqn:Hh.
  - destruct (complete _ data) eqn:Hc; split.
    + by apply lookup_ready.
    + destruct (waiting s !! h) as [d|] eqn:Hw; [|done].
      apply lookup_waiting in Hw as [Hd Hw]. congruence.
    + destruct (ready s !! h) as [d|] eqn:Hr; [|done].
      apply lookup_ready in Hr as [Hd Hr]. congruence.
    + by apply lookup_waiting.
  - split.
    + destruct (ready s !! h) as [d|] eqn:Hr; [|done].
      apply lookup_ready in Hr as [Hd Hr]. congruence.
    + destruct (waiting s !! h) as [d|] eqn:Hw; [|done].
      apply lookup_waiting in Hw as [Hd Hw]. congruence.
Qed.

(** Committing moves nodes from memory to the store: what was received stays
    the same. *)
Lemma received_commit s : received (commit s) = received s.
Proof.
  unfold received. simpl. apply map_eq. intros h. rewrite !lookup_union.
  pose proof (ready_or_waiting s h) as Hcase.
  destruct (held s !! h) as [data|].
  - destruct (complete _ data); destruct Hcase as [-> ->]; simpl.
    + by destruct (nodes (database s) !! h).
    + by destruct (nodes (database s) !! h).
  - destruct Hcase as [-> ->]. by destruct (nodes (database s) !! h).
Qed.

Lemma received_settle fuel s : received (settle fuel s) = received s.
Proof.
  revert s. induction fuel as [|fuel IH]; intros s; simpl; [done|].
  destruct (decide (ready s = ∅)); [done|]. by rewrite IH, received_commit.
Qed.

Lemma requests_settle fuel s : requests (settle fuel s) = requests s.
Proof.
  revert s. induction fuel as [|fuel IH]; intros s; simpl; [done|].
  destruct (decide (ready s = ∅)); [done|]. by rewrite IH.
Qed.

Lemma queue_settle fuel s : queue (settle fuel s) = queue s.
Proof.
  revert s. induction fuel as [|fuel IH]; intros s; simpl; [done|].
  destruct (decide (ready s = ∅)); [done|]. by rewrite IH.
Qed.

Lemma received_discover s c : received (discover s c) = received s.
Proof. unfold discover. by destruct (decide _). Qed.

Lemma received_discovers s l : received (foldl discover s l) = received s.
Proof.
  revert s. induction l as [|c l IH]; intros s; simpl; [done|].
  by rewrite IH, received_discover.
Qed.

Lemma elem_of_parentReferences parent kids p c :
  (p, c) ∈ parentReferences parent kids <-> parent <> 0 /\ p = parent /\ c ∈ kids.
Proof.
  unfold parentReferences. destruct (decide (parent = 0)) as [Hz|Hnz].
  - rewrite elem_of_nil. tauto.
  - rewrite list_elem_of_fmap. split.
    + intros (k & [= -> ->] & Hk). done.
    + intros (_ & -> & Hc). by exists c.
Qed.

Lemma elem_of_entries s p c :
  (p, c) ∈ map_to_list (ready s) ≫= entriesOf s <->
  exists h data, ready s !! h = Some data /\
    ((h <> 0 /\ p = h /\ c ∈ children data) \/
     (h = target s /\ referrer s <> 0 /\ p = referrer s /\ c = h)).
Proof.
  rewrite list_elem_of_bind. split.
  - intros ([h data] & Hin & Hmap). apply elem_of_map_to_list in Hmap.
    exists h, data. split; [done|]. unfold entriesOf in Hin. simpl in Hin.
    apply elem_of_app in Hin as [Hin|Hin].
    + left. by apply elem_of_parentReferences in Hin.
    + right. destruct (decide (h = target s)) as [Ht|]; [|by apply elem_of_nil in Hin].
      apply elem_of_parentReferences in Hin as (Hnz & -> & Hc).
      apply list_elem_of_singleton in Hc. done.
  - intros (h & data & Hr & Hcase). exists (h, data).
    split; [|by apply elem_of_map_to_list].
    unfold entriesOf. simpl. apply elem_of_app.
    destruct Hcase as [(Hnz & -> & Hc)|(Ht & Hnz & -> & ->)].
    + left. by apply elem_of_parentReferences.
    + right. rewrite decide_True by done. apply elem_of_parentReferences.
      split; [done|]. split; [done|]. by apply list_elem_of_singleton.
Qed.

Section Invariant.

Variable srcDb : gmap Z (list Z).
Variables root origin : Z.

(** The scheduler between two steps; [open] are the children of a node just
    received that have not been looked at yet. *)
Record Safe (open : Z -> Prop) (s : StateSync) : Prop := {
  sf_target : target s = root /\ referrer s = origin;
  sf_apart : forall h, is_Some (held s !! h) -> nodes (database s) !! h = None;
  sf_req : forall h, h ∈ requests s -> received s !! h = None;
  sf_src : forall h data, received s !! h = Some data -> srcDb !! h = Some data;
  sf_known : forall p c,
    refersTo (received s) p c -> open c \/ is_Some (received s !! c) \/ c ∈ requests s;
  sf_open : forall c, open c -> Reach srcDb root c /\ root <> emptyRoot;
  sf_closed : forall p c,
    refersTo (nodes (database s)) p c -> is_Some (nodes (database s) !! c);
  sf_reach : forall h,
    is_Some (received s !! h) \/ h ∈ requests s -> Reach srcDb root h;
  sf_refs : forall p c,
    (p, c) ∈ refs (database s) <->
    (p <> 0 /\ refersTo (nodes (database s)) p c) \/
    (p = origin /\ c = root /\ origin <> 0 /\
     (root = emptyRoot \/ is_Some (nodes (database s) !! root)));
  sf_root : root = emptyRoot \/ is_Some (received s !! root) \/ root ∈ requests s;
  sf_empty : root = emptyRoot -> requests s = ∅ /\ received s = ∅
}.

Definition safe : StateSync -> Prop := Safe (fun _ => False).

(** No held node is complete: whatever could be committed has been. *)
Definition settled (s : StateSync) : Prop :=
  forall h data, held s !! h = Some data -> complete (nodes (database s)) data = false.

Lemma settled_ready s : settled s <-> ready s = ∅.
Proof.
  split.
  - intros Hs. apply map_empty. intros h.
    destruct (ready s !! h) as [data|] eqn:Hr; [|done].
    apply lookup_ready in Hr as [Hh Hc]. rewrite (Hs _ _ Hh) in Hc. done.
  - intros Hr h data Hh. destruct (complete _ data) eqn:Hc; [|done].
    assert (Hin : ready s !! h = Some data) by by apply lookup_ready.
    rewrite Hr, lookup_empty in Hin. done.
Qed.

Lemma NewStateSync_safe :
  safe (NewStateSync root NewMemDatabase origin) /\
  settled (NewStateSync root NewMemDatabase origin).
Proof.
  unfold NewStateSync. destruct (decide (root = emptyRoot)) as [He|Hne].
  - split; [|by intros h data; simpl; rewrite lookup_empty].
    split; simpl; unfold received; simpl.
    + done.
    + intros h [x Hx]. by rewrite lookup_empty in Hx.
    + intros h Hh. by apply not_elem_of_empty in Hh.
    + intros h data. rewrite lookup_union, !lookup_empty. done.
    + intros p c (data & Hp & _). rewrite lookup_union, !lookup_empty in Hp. done.
    + done.
    + intros p c (data & Hp & _). by rewrite lookup_empty in Hp.
    + intros h [[x Hx]|Hh].
      * rewrite lookup_union, !lookup_empty in Hx. done.
      * by apply not_elem_of_empty in Hh.
    + intros p c. rewrite elem_of_union, elem_of_list_to_set, elem_of_parentReferences.
      rewrite list_elem_of_singleton. split.
      * intros [Hin|(Hnz & -> & ->)]; [by apply not_elem_of_empty in Hin|].
        right. split; [done|]. split; [done|]. split; [done|by left].
      * intros [(_ & data & Hp & _)|(-> & -> & Hnz & _)].
        -- by rewrite lookup_empty in Hp.
        -- by right.
    + by left.
    + intros _. split; [done|]. apply map_empty. intros h.
      by rewrite lookup_union, !lookup_empty.
  - split; [|by intros h data; simpl; rewrite lookup_empty].
    split; simpl; unfold received; simpl.
    + done.
    + intros h [x Hx]. by rewrite lookup_empty in Hx.
    + intros h Hh. by rewrite lookup_union, !lookup_empty.
    + intros h data. rewrite lookup_union, !lookup_empty. done.
    + intros p c (data & Hp & _). rewrite lookup_union, !lookup_empty in Hp. done.
    + done.
    + intros p c (data & Hp & _). by rewrite lookup_empty in Hp.
    + intros h [[x Hx]|Hh].
      * rewrite lookup_union, !lookup_empty in Hx. done.
      * apply elem_of_singleton in Hh as ->. apply Reach_refl.
    + intros p c. split.
      * intros Hin. by apply not_elem_of_empty in Hin.
      * intros [(_ & data & Hp & _)|(_ & _ & _ & [He|[x Hx]])].
        -- by rewrite lookup_empty in Hp.
        -- done.
        -- by rewrite lookup_empty in Hx.
    + right. right. by apply elem_of_singleton.
    + done.
Qed.

Lemma Missing_safe max s :
  safe s -> settled s ->
  safe (Missing max s).2 /\ settled (Missing max s).2.
Proof. intros [] Hs. split; [by split|done]. Qed.

(** A result is taken off the requests and kept. *)
Lemma keep_safe s h data :
  safe s -> h ∈ requests s -> srcDb !! h = Some data ->
  Safe (fun c => c ∈ children data)
    {| database := database s; held := <[h := data]> (held s);
       requests := requests s ∖ {[ h ]}; queue := queue s;
       target := target s; referrer := referrer s |}.
Proof.
  intros [H1 H2 H3 H4 H5 H6 H7 H8 H9 H10 H11] Hreq Hsrc.
  pose proof (H3 h Hreq) as Hfresh.
  assert (Hrec : forall x, received
            {| database := database s; held := <[h := data]> (held s);
               requests := requests s ∖ {[ h ]}; queue := queue s;
               target := target s; referrer := referrer s |} !! x =
            <[h := data]> (received s) !! x).
  { intros x. unfold received. simpl. by rewrite insert_union_l. }
  split; simpl.
  - done.
  - intros x Hx. destruct (decide (x = h)) as [->|Hne].
    + unfold received in Hfresh. by apply lookup_union_None in Hfresh as [_ ?].
    + rewrite lookup_insert_ne in Hx by done. by apply H2.
  - intros x Hx. apply elem_of_difference in Hx as [Hx Hne].
    rewrite Hrec, lookup_insert_ne; [by apply H3|].
    intros ->. apply Hne. by apply elem_of_singleton.
  - intros x d. rewrite Hrec. destruct (decide (x = h)) as [->|Hne].
    + rewrite lookup_insert_eq. by intros [= <-].
    + rewrite lookup_insert_ne by done. apply H4.
  - intros p c (d & Hp & Hc). rewrite Hrec in Hp.
    destruct (decide (p = h)) as [->|Hne].
    + rewrite lookup_insert_eq in Hp. injection Hp as <-. by left.
    + rewrite lookup_insert_ne in Hp by done. right.
      destruct (H5 p c) as [[]|[Hin|Hin]]; [by exists d| |].
      * left. rewrite Hrec. apply lookup_insert_is_Some'. by right.
      * destruct (decide (c = h)) as [->|Hch].
        -- left. rewrite Hrec, lookup_insert_eq. by eexists.
        -- right. apply elem_of_difference. split; [done|].
           by intros ?%elem_of_singleton.
  - intros c Hc. split.
    + eapply Reach_right; [apply H8; by right|]. by exists data.
    + intros He. destruct (H11 He) as [Hreqs _]. rewrite Hreqs in Hreq.
      by apply not_elem_of_empty in Hreq.
  - done.
  - intros x [Hx|Hx].
    + rewrite Hrec in Hx. apply lookup_insert_is_Some' in Hx as [->|Hx].
      * apply H8. by right.
      * apply H8. by left.
    + apply H8. right. by apply elem_of_difference in Hx as [? _].
  - done.
  - destruct H10 as [He|[Hin|Hin]]; [by left| |].
    + right. left. rewrite Hrec. apply lookup_insert_is_Some'. by right.
    + right. destruct (decide (root = h)) as [->|Hne].
      * left. rewrite Hrec, lookup_insert_eq. by eexists.
      * right. apply elem_of_difference. split; [done|]. by intros ?%elem_of_singleton.
  - intros He. destruct (H11 He) as [Hreqs _]. rewrite Hreqs in Hreq.
    by apply not_elem_of_empty in Hreq.
Qed.

(** A child is looked at. *)
Lemma discover_safe s c l :
  Safe (fun x => x ∈ c :: l) s -> Safe (fun x => x ∈ l) (discover s c).
Proof.
  intros [H1 H2 H3 H4 H5 H6 H7 H8 H9 H10 H11]. unfold discover.
  destruct (decide _) as [Hknown|Hnew].
  - split; try done.
    + intros p x Hpx. destruct (H5 p x Hpx) as [Hopen|Hk]; [|by right].
      apply elem_of_cons in Hopen as [->|Hin]; [by right|by left].
    + intros x Hx. apply H6. by apply list_elem_of_further.
  - assert (Hfresh : received s !! c = None).
    { destruct (received s !! c) eqn:Hc; [|done]. exfalso. apply Hnew. left. by eexists. }
    destruct (H6 c (list_elem_of_here _ _)) as [Hreach Hne].
    split; simpl; try done.
    + intros h Hh. apply elem_of_union in Hh as [Hh|Hh]; [|by apply H3].
      by apply elem_of_singleton in Hh as ->.
    + intros p x Hpx. destruct (H5 p x Hpx) as [Hopen|[Hk|Hk]].
      * apply elem_of_cons in Hopen as [->|Hin]; [|by left].
        right. right. apply elem_of_union. left. by apply elem_of_singleton.
      * by right; left.
      * right. right. apply elem_of_union. by right.
    + intros x Hx. apply H6. by apply list_elem_of_further.
    + intros h [Hh|Hh]; [apply H8; by left|].
      apply elem_of_union in Hh as [Hh|Hh]; [|apply H8; by right].
      by apply elem_of_singleton in Hh as ->.
    + destruct H10 as [He|[Hin|Hin]]; [by left|by right; left|].
      right. right. apply elem_of_union. by right.
Qed.

Lemma discovers_safe s l :
  Safe (fun x => x ∈ l) s -> safe (foldl discover s l).
Proof.
  revert s. induction l as [|c l IH]; intros s Hs; simpl.
  - destruct Hs as [H1 H2 H3 H4 H5 H6 H7 H8 H9 H10 H11]. split; try done.
    + intros p c Hpc. destruct (H5 p c Hpc) as [Hopen|Hk]; [|by right].
      by apply elem_of_nil in Hopen.
  - apply IH. by apply discover_safe.
Qed.

(** Committing keeps the invariant: the nodes written are complete. *)
Lemma commit_safe s : safe s -> safe (commit s).
Proof.
  intros [H1 H2 H3 H4 H5 H6 H7 H8 H9 H10 H11].
  assert (Hnew : forall h data,
            (ready s ∪ nodes (database s)) !! h = Some data <->
            ready s !! h = Some data \/ nodes (database s) !! h = Some data).
  { intros h data. rewrite lookup_union_Some_raw. split; [tauto|].
    intros [Hr|Hn]; [by left|]. right. split; [|done].
    destruct (ready s !! h) as [d|] eqn:Hr; [|done].
    apply lookup_ready in Hr as [Hh _].
    rewrite H2 in Hn by by eexists. done. }
  assert (Hsome : forall h,
            is_Some ((ready s ∪ nodes (database s)) !! h) <->
            is_Some (ready s !! h) \/ is_Some (nodes (database s) !! h)).
  { intros h. apply lookup_union_is_Some. }
  split; rewrite ?received_commit; simpl; try done.
  - intros h [data Hw]. apply lookup_waiting in Hw as [Hh Hc].
    apply lookup_union_None_2.
    + destruct (ready s !! h) as [d|] eqn:Hr; [|done].
      apply lookup_ready in Hr as [Hd Hr]. congruence.
    + apply H2. by eexists.
  - intros p c (data & Hp & Hc). apply Hsome. apply Hnew in Hp as [Hp|Hp].
    + right. apply lookup_ready in Hp as [_ Hcomplete].
      by apply (proj1 (complete_spec _ _) Hcomplete).
    + right. apply (H7 p c). by exists data.
  - intros p c. rewrite elem_of_union, elem_of_list_to_set, elem_of_entries.
    rewrite H9. destruct H1 as [-> ->]. split.
    + intros [[(Hnz & data & Hp & Hc)|(-> & -> & Hnz & Hroot)]|
              (h & data & Hr & [(Hnz & -> & Hc)|(-> & Hnz & -> & ->)])].
      * left. split; [done|]. exists data. split; [|done]. apply Hnew. by right.
      * right. split; [done|]. split; [done|]. split; [done|].
        destruct Hroot as [He|Hin]; [by left|]. right. apply Hsome. by right.
      * left. split; [done|]. exists data. split; [|done]. apply Hnew. by left.
      * right. split; [done|]. split; [done|]. split; [done|].
        right. apply Hsome. left. by eexists.
    + intros [(Hnz & data & Hp & Hc)|(-> & -> & Hnz & Hroot)].
      * apply Hnew in Hp as [Hp|Hp].
        -- right. exists p, data. split; [done|]. by left.
        -- left. left. split; [done|]. by exists data.
      * destruct Hroot as [He|Hin].
        -- left. right. split; [done|]. split; [done|]. split; [done|by left].
        -- apply Hsome in Hin as [[data Hr]|Hin].
           ++ right. exists root, data. split; [done|]. by right.
           ++ left. right. split; [done|]. split; [done|]. split; [done|by right].
Qed.

Lemma settle_safe fuel s : safe s -> safe (settle fuel s).
Proof.
  revert s. induction fuel as [|fuel IH]; intros s Hs; simpl; [done|].
  destruct (decide (ready s = ∅)); [done|]. by apply IH, commit_safe.
Qed.

Lemma commit_shrinks s : ready s <> ∅ -> (size (held (commit s)) < size (held s))%nat.
Proof.
  intros Hne. simpl. apply map_subset_size, map_subset_alt. split.
  - apply map_filter_subseteq.
  - apply map_choose in Hne as (h & data & Hr). exists h.
    pose proof (ready_or_waiting s h) as Hcase.
    apply lookup_ready in Hr as [Hh Hc]. rewrite Hh, Hc in Hcase.
    destruct Hcase as [_ Hw]. split; [done|]. rewrite Hh. by eexists.
Qed.

Lemma settle_settled fuel s : (size (held s) <= fuel)%nat -> settled (settle fuel s).
Proof.
  revert s. induction fuel as [|fuel IH]; intros s Hsize; simpl.
  - assert (Hempty : held s = ∅) by (apply map_size_empty_inv; lia).
    intros h data Hh. rewrite Hempty, lookup_empty in Hh. done.
  - destruct (decide (ready s = ∅)) as [Hr|Hr]; [by apply settled_ready|].
    apply IH. pose proof (commit_shrinks s Hr). lia.
Qed.

(** One result from the source. *)
Lemma processOne_safe h data s s' :
  safe s -> srcDb !! h = Some data -> processOne h data s = inr s' ->
  safe s' /\ settled s'.
Proof.
  intros Hs Hsrc. unfold processOne.
  destruct (decide (h ∈ requests s)) as [Hreq|]; [|done].
  destruct (decide (Keccak256 data = h)); [|done].
  intros [= <-]. split.
  - apply settle_safe, discovers_safe. by apply keep_safe.
  - by apply settle_settled.
Qed.

(** *** The driver *)

(** Every missing hash is in the queue of the scheduler or handed out. *)
Definition covered (P : gset Z) (s : StateSync) : Prop :=
  forall h, h ∈ requests s -> h ∈ queue s \/ h ∈ P.

Lemma discovers_covered P s l : covered P s -> covered P (foldl discover s l).
Proof.
  revert s. induction l as [|c l IH]; intros s Hs; simpl; [done|].
  apply IH. unfold discover. destruct (decide _); [done|].
  intros h Hh. simpl in *. apply elem_of_union in Hh as [Hh|Hh].
  - apply elem_of_singleton in Hh as ->. left. apply elem_of_app. right.
    apply list_elem_of_here.
  - destruct (Hs h Hh) as [Hq|HP]; [|by right]. left. apply elem_of_app. by left.
Qed.

Lemma processOne_covered P h data s s' :
  covered P s -> processOne h data s = inr s' -> covered P s'.
Proof.
  intros Hs. unfold processOne.
  destruct (decide (h ∈ requests s)); [|done].
  destruct (decide (Keccak256 data = h)); [|done].
  intros [= <-]. intros x. rewrite requests_settle, queue_settle. revert x.
  apply discovers_covered. intros x Hx. simpl in *.
  apply elem_of_difference in Hx as [Hx _]. by apply Hs.
Qed.

Lemma processOne_received h data s s' :
  processOne h data s = inr s' -> received s' = <[h := data]> (received s).
Proof.
  unfold processOne.
  destruct (decide (h ∈ requests s)); [|done].
  destruct (decide (Keccak256 data = h)); [|done].
  intros [= <-]. rewrite received_settle, received_discovers.
  unfold received. simpl. by rewrite insert_union_l.
Qed.

Lemma fetch_results batch results :
  fetch srcDb batch = Some results ->
  Forall (fun r => srcDb !! r.1 = Some r.2) results /\ results.*1 = batch.
Proof.
  unfold fetch. intros Hf. apply mapM_Some in Hf.
  induction Hf as [|h r batch results Hr _ [IH1 IH2]]; [done|].
  destruct (srcDb !! h) as [data|] eqn:Hh; [|done]. injection Hr as <-.
  split; [by constructor|]. rewrite fmap_cons. simpl. by f_equal.
Qed.

Lemma ProcessFrom_inv P i results s s' :
  safe s -> settled s -> covered P s ->
  Forall (fun r => srcDb !! r.1 = Some r.2) results ->
  ProcessFrom i results s = (None, s') ->
  safe s' /\ settled s' /\ covered P s' /\
  forall h, h ∈ results.*1 -> is_Some (received s' !! h).
Proof.
  intros Hs Hset Hcov Hres. revert i s Hs Hset Hcov.
  induction Hres as [|[h data] results Hr _ IH]; intros i s Hs Hset Hcov; simpl.
  - intros [= <-]. split; [done|]. split; [done|]. split; [done|].
    intros h Hh. by apply elem_of_nil in Hh.
  - destruct (processOne h data s) as [err|s1] eqn:Hone; [done|].
    intros Hrest. simpl in Hr.
    destruct (processOne_safe _ _ _ _ Hs Hr Hone) as [Hs1 Hset1].
    pose proof (processOne_covered P _ _ _ _ Hcov Hone) as Hcov1.
    destruct (IH _ _ Hs1 Hset1 Hcov1 Hrest) as (Hs' & Hset' & Hcov' & Hin).
    split; [done|]. split; [done|]. split; [done|].
    intros x Hx. apply elem_of_cons in Hx as [->|Hx]; [|by apply Hin].
    assert (Hkept : forall r rest j t t',
              ProcessFrom j rest t = (None, t') ->
              is_Some (received t !! r) -> is_Some (received t' !! r)).
    { intros r rest. induction rest as [|[h' d'] rest IHr]; intros j t t'; simpl.
      - by intros [= <-].
      - destruct (processOne h' d' t) as [err|t1] eqn:Ht; [done|].
        intros Hrun Hsome. eapply IHr; [exact Hrun|].
        rewrite (processOne_received _ _ _ _ Ht).
        apply lookup_insert_is_Some'. by right. }
    eapply Hkept; [exact Hrest|].
    rewrite (processOne_received _ _ _ _ Hone), lookup_insert_eq. by eexists.
Qed.

Definition driverInv (d : driver) : Prop :=
  safe (sched d) /\ settled (sched d) /\ covered (pending d) (sched d) /\
  (pending d = ∅ -> queue (sched d) = []).

Lemma Missing_nothing max (q : list Z) :
  take (match max with O => length q | _ => max end) q = [] ->
  drop (match max with O => length q | _ => max end) q = [].
Proof.
  destruct max as [|max].
  - rewrite firstn_all. by intros ->.
  - by destruct q.
Qed.

Lemma Missing_covered P max s :
  covered P s -> covered (P ∪ list_to_set (Missing max s).1) (Missing max s).2.
Proof.
  intros Hcov h Hh. simpl in *. destruct (Hcov h Hh) as [Hq|HP].
  - rewrite <- (take_drop (match max with O => length (queue s) | _ => max end) (queue s))
      in Hq.
    apply elem_of_app in Hq as [Hq|Hq]; [|by left].
    right. apply elem_of_union. right. by apply elem_of_list_to_set.
  - right. apply elem_of_union. by left.
Qed.

Lemma start_inv max : driverInv (start root origin max).
Proof.
  unfold start.
  destruct NewStateSync_safe as [Hs Hset].
  pose proof (Missing_safe max _ Hs Hset) as [Hs' Hset'].
  assert (Hcov : covered ∅ (NewStateSync root NewMemDatabase origin)).
  { intros h Hh. left. unfold NewStateSync in *.
    destruct (decide (root = emptyRoot)); simpl in *.
    - by apply not_elem_of_empty in Hh.
    - apply elem_of_singleton in Hh as ->. apply list_elem_of_here. }
  pose proof (Missing_covered _ max _ Hcov) as Hcov'.
  destruct (Missing max (NewStateSync root NewMemDatabase origin)) as [hashes s] eqn:HM.
  simpl in *. split; [done|]. split; [done|]. split.
  - intros h Hh. destruct (Hcov' h Hh) as [Hq|HP]; [by left|].
    right. apply elem_of_union in HP as [HP|HP]; [by apply not_elem_of_empty in HP|done].
  - intros Hnone. injection HM as <- <-. simpl.
    apply Missing_nothing.
    destruct (take _ _) as [|x l] eqn:Ht; [done|].
    assert (Hx : x ∈ (∅ : gset Z)).
    { rewrite <- Hnone. apply elem_of_list_to_set. apply list_elem_of_here. }
    by apply not_elem_of_empty in Hx.
Qed.

Lemma round_inv batch max d d' :
  driverInv d -> round srcDb batch max d = Some d' -> driverInv d'.
Proof.
  intros (Hs & Hset & Hcov & _). unfold round, Process.
  destruct (fetch srcDb batch) as [results|] eqn:Hfetch; [|done].
  destruct (fetch_results _ _ Hfetch) as [Hres Hbatch].
  destruct (ProcessFrom 0 results (sched d)) as [[err|] s1] eqn:Hrun; [done|].
  destruct (ProcessFrom_inv (pending d) _ _ _ _ Hs Hset Hcov Hres Hrun)
    as (Hs1 & Hset1 & Hcov1 & Hin).
  pose proof (Missing_safe max _ Hs1 Hset1) as [Hs' Hset'].
  pose proof (Missing_covered _ max _ Hcov1) as Hcov'.
  destruct (Missing max s1) as [hashes s'] eqn:HM. intros [= <-]. simpl in *.
  split; [done|]. split; [done|]. split.
  - intros h Hh. destruct (Hcov' h Hh) as [Hq|HP]; [by left|]. right.
    apply elem_of_union in HP as [HP|HP]; [|apply elem_of_union; by right].
    apply elem_of_union. left. apply elem_of_difference. split; [done|].
    rewrite elem_of_list_to_set. intros Hb.
    assert (Hsame : requests s' = requests s1) by (injection HM as _ <-; done).
    assert (Hrec : received s' = received s1) by (injection HM as _ <-; done).
    simpl in Hh. rewrite Hsame in Hh. rewrite <- Hbatch in Hb.
    destruct (Hin h Hb) as [x Hx]. rewrite (sf_req _ _ Hs1 h Hh) in Hx. done.
  - intros Hnone. injection HM as <- <-. simpl. apply Missing_nothing.
    destruct (take _ _) as [|x l] eqn:Ht; [done|].
    assert (Hx : x ∈ (∅ : gset Z)).
    { rewrite <- Hnone. apply elem_of_union. right.
      apply elem_of_list_to_set. apply list_elem_of_here. }
    by apply not_elem_of_empty in Hx.
Qed.

Lemma rounds_inv turns d d' :
  driverInv d -> rounds srcDb turns d = Some d' -> driverInv d'.
Proof.
  revert d. induction turns as [|[batch max] turns IH]; intros d Hd; simpl.
  - by intros [= <-].
  - destruct (round srcDb batch max d) as [d1|] eqn:Hround; [|done].
    apply IH. by eapply round_inv.
Qed.

(** *** The end of a synchronisation *)

Lemma incomplete_child db data :
  complete db data = false -> exists c, c ∈ children data /\ db !! c = None.
Proof.
  unfold complete. induction (children data) as [|c l IH]; simpl; [done|].
  destruct (db !! c) as [x|] eqn:Hc.
  - rewrite bool_decide_eq_true_2 by by eexists. simpl. intros Hl.
    destruct (IH Hl) as (c' & Hin & Hnone). exists c'.
    split; [by apply list_elem_of_further|done].
  - intros _. exists c. split; [apply list_elem_of_here|done].
Qed.

(** A source without cycles: the references go down a rank. *)
Definition acyclic : Prop :=
  exists rank : Z -> nat, forall p c, refersTo srcDb p c -> (rank c < rank p)%nat.

(** When nothing is missing any more, nothing is held back. *)
Lemma nothing_held s :
  acyclic -> safe s -> settled s -> (forall h, h ∉ requests s) -> held s = ∅.
Proof.
  intros [rank Hrank] Hs Hset Hnone.
  assert (Hall : forall n h, (rank h < n)%nat -> held s !! h = None).
  { induction n as [|n IH]; intros h Hn; [lia|].
    destruct (held s !! h) as [data|] eqn:Hh; [|done]. exfalso.
    destruct (incomplete_child _ _ (Hset _ _ Hh)) as (c & Hc & Hmissing).
    assert (Hrec : received s !! h = Some data).
    { unfold received. by apply lookup_union_Some_l. }
    assert (Hedge : refersTo srcDb h c).
    { exists data. split; [|done]. by apply (sf_src _ _ Hs). }
    destruct (sf_known _ _ Hs h c) as [[]|[Hin|Hin]].
    - by exists data.
    - unfold received in Hin. apply lookup_union_is_Some in Hin as [[x Hx]|[x Hx]].
      + rewrite (IH c) in Hx; [done|]. specialize (Hrank _ _ Hedge). lia.
      + congruence.
    - by apply (Hnone c). }
  apply map_empty. intros h. apply (Hall (S (rank h))). lia.
Qed.

Lemma Reach_within db a b :
  (forall h data, db !! h = Some data -> srcDb !! h = Some data) ->
  (forall p c, refersTo db p c -> is_Some (db !! c)) ->
  is_Some (db !! a) -> Reach srcDb a b -> Reach db a b.
Proof.
  intros Hsub Hclosed Ha Hreach.
  induction Hreach as [h|h c p Hedge _ IH]; [apply Reach_refl|].
  destruct Ha as [data Hh]. destruct Hedge as (data' & Hh' & Hc).
  rewrite (Hsub _ _ Hh) in Hh'. injection Hh' as <-.
  assert (Hin : refersTo db h c) by by exists data.
  eapply Reach_step; [exact Hin|]. apply IH. by apply (Hclosed h c).
Qed.

Lemma elem_of_expectedIndex entries parent e :
  e ∈ expectedIndex entries root parent <->
  (e ∈ entries /\ e.2 <> 0 /\ e.1 <> 0) \/ (parent <> 0 /\ e = (parent, root)).
Proof.
  unfold expectedIndex. rewrite elem_of_union, elem_of_list_to_set, list_elem_of_filter.
  destruct (decide (parent = 0)) as [Hz|Hnz].
  - rewrite elem_of_empty. split; [intros [[? ?]|[]]; by left|].
    intros [[? ?]|[? _]]; [by left|done].
  - rewrite elem_of_singleton. split.
    + intros [[? ?]|?]; [by left|by right].
    + intros [[? ?]|[_ ?]]; [by left|by right].
Qed.

(** A driver whose queue is empty: the destination holds the state of the
    source and exactly the index of its offline iteration, with the entry of
    the root under the origin. *)
Lemma completed_synced d :
  acyclic -> driverInv d -> pending d = ∅ ->
  synced srcDb root origin (database (sched d)).
Proof.
  intros Hacyclic (Hs & Hset & Hcov & Hqueue) Hdone.
  assert (Hnone : forall h, h ∉ requests (sched d)).
  { intros h Hh. destruct (Hcov h Hh) as [Hq|HP].
    - rewrite (Hqueue Hdone) in Hq. by apply elem_of_nil in Hq.
    - rewrite Hdone in HP. by apply not_elem_of_empty in HP. }
  pose proof (nothing_held _ Hacyclic Hs Hset Hnone) as Hheld.
  assert (Hrec : received (sched d) = nodes (database (sched d))).
  { unfold received. rewrite Hheld. apply (left_id ∅ (∪)). }
  destruct Hs as [H1 H2 H3 H4 H5 H6 H7 H8 H9 H10 H11]. rewrite Hrec in *.
  set (db := nodes (database (sched d))) in *.
  destruct (decide (root = emptyRoot)) as [He|Hne].
  - destruct (H11 He) as [_ Hempty].
    split; [|split].
    { intros fuel address. unfold stateAccount, stateAt. by rewrite !decide_True. }
    { intros fuel. unfold stateAt, iteration. by rewrite !decide_True. }
    intros fuel entries. unfold iteration. rewrite decide_True by done.
    intros [= <-]. split; [|done].
    apply set_eq. intros [p c]. rewrite elem_of_expectedIndex, H9. split.
    + intros [(_ & data & Hp & _)|(-> & -> & Hnz & _)].
      * by rewrite Hempty, lookup_empty in Hp.
      * by right.
    + intros [[Hin _]|[Hnz [= -> ->]]]; [by apply elem_of_nil in Hin|].
      right. split; [done|]. split; [done|]. split; [done|by left].
  - assert (Hroot : is_Some (db !! root)).
    { destruct H10 as [?|[?|Hin]]; [done|done|]. by apply Hnone in Hin. }
    assert (Hstate : forall fuel, reconstruct fuel db root = reconstruct fuel srcDb root).
    { intros fuel. by apply reconstruct_agree. }
    assert (Hiter : forall fuel,
              nodeIterator fuel db 0 root = nodeIterator fuel srcDb 0 root).
    { intros fuel. by apply nodeIterator_agree. }
    split; [|split].
    { intros fuel address. unfold stateAccount, stateAt.
      rewrite !decide_False by done. by rewrite Hstate. }
    { intros fuel. unfold stateAt, iteration.
      rewrite !decide_False by done. by rewrite Hstate, Hiter. }
    intros fuel entries. unfold iteration at 1. rewrite decide_False by done.
    intros Hentries.
    assert (Hidx : refs (database (sched d)) = expectedIndex entries root origin).
    { apply set_eq. intros [p c]. rewrite elem_of_expectedIndex, H9.
      rewrite (nodeIterator_entries _ _ _ _ _ p c Hentries). simpl. split.
      - intros [(Hnz & Hedge)|(-> & -> & Hnz & _)]; [|by right].
        left. split; [|split; [|done]].
        + right. split; [|done]. apply Reach_within; [done|done|done|].
          apply H8. left. destruct Hedge as (data & Hp & _). by eexists.
        + destruct Hedge as (data & _ & Hc). by eapply children_nonzero.
      - intros [[[[-> ->]|[Hreach Hedge]] [Hc Hp]]|[Hnz [= -> ->]]].
        + done.
        + by left.
        + right. split; [done|]. split; [done|]. split; [done|by right]. }
    split; [done|]. intros _. subst db. unfold checkStateIndex, iteration.
    rewrite decide_False by done. destruct Hroot as [rdata ->].
    rewrite Hentries. cbv zeta. rewrite <- Hidx.
    by rewrite !bool_decide_eq_true_2.
Qed.

(** The store of the destination never holds an incomplete sub-tree: at every
    turn of a run, each child of a stored node is stored. *)
Lemma rounds_never_incomplete max turns d :
  rounds srcDb turns (start root origin max) = Some d ->
  forall p c, refersTo (nodes (database (sched d))) p c ->
    is_Some (nodes (database (sched d)) !! c).
Proof.
  intros Hrun. destruct (rounds_inv _ _ _ (start_inv max) Hrun) as (Hs & _).
  apply Hs.
Qed.

(** *** Convergence *)

(** A source tree: the root and every child named by a node are stored, each
    under the hash of its data, and no node is below itself. *)
Record wellFormed : Prop := {
  wf_root : root <> emptyRoot -> is_Some (srcDb !! root);
  wf_closed : forall p c, refersTo srcDb p c -> is_Some (srcDb !! c);
  wf_hash : forall h data, srcDb !! h = Some data -> Keccak256 data = h;
  wf_acyclic : acyclic
}.

(** A batch that a test may deliver: some of the hashes of its queue, each
    once, in any order. *)
Definition validBatch (P : gset Z) (batch : list Z) : Prop :=
  batch <> [] /\ NoDup batch /\ forall h, h ∈ batch -> h ∈ P.

(** What is queued or handed out is still missing, and nothing is both. *)
Record live (P : gset Z) (s : StateSync) : Prop := {
  live_handed : forall h, h ∈ P -> h ∈ requests s;
  live_queue : forall h, h ∈ queue s -> h ∈ requests s;
  live_apart : forall h, h ∈ queue s -> h ∉ P;
  live_once : NoDup (queue s)
}.

Lemma live_ext (P Q : gset Z) s s' :
  (forall x, x ∈ P <-> x ∈ Q) -> requests s' = requests s -> queue s' = queue s ->
  live P s -> live Q s'.
Proof.
  intros Heq Hr Hq [L1 L2 L3 L4]. split; rewrite ?Hr, ?Hq; [| done | |done].
  - intros h Hh. apply L1. by apply Heq.
  - intros h Hh HQ. apply (L3 h Hh). by apply Heq.
Qed.

Lemma discovers_live P s l : live P s -> live P (foldl discover s l).
Proof.
  revert s. induction l as [|c l IH]; intros s Hs; simpl; [done|].
  apply IH. unfold discover. destruct (decide _) as [Hknown|Hnew]; [done|].
  destruct Hs as [L1 L2 L3 L4].
  assert (Hfresh : c ∉ requests s) by (intros Hc; apply Hnew; by right).
  split; simpl.
  - intros h Hh. apply elem_of_union. right. by apply L1.
  - intros h Hh. apply elem_of_union. apply elem_of_app in Hh as [Hh|Hh].
    + right. by apply L2.
    + left. apply list_elem_of_singleton in Hh as ->. by apply elem_of_singleton.
  - intros h Hh. apply elem_of_app in Hh as [Hh|Hh]; [by apply L3|].
    apply list_elem_of_singleton in Hh as ->. intros HP. by apply Hfresh, L1.
  - apply NoDup_app. split; [done|]. split; [|apply NoDup_singleton].
    intros h Hh Hc. apply list_elem_of_singleton in Hc as ->. by apply Hfresh, L2.
Qed.

Lemma source_holds a b :
  wellFormed -> is_Some (srcDb !! a) -> Reach srcDb a b -> is_Some (srcDb !! b).
Proof.
  intros Hwf Ha Hreach. induction Hreach as [h|h c p Hedge _ IH]; [done|].
  apply IH. by apply (wf_closed Hwf h c).
Qed.

Lemma requested_in_source s h :
  wellFormed -> safe s -> h ∈ requests s -> is_Some (srcDb !! h).
Proof.
  intros Hwf Hs Hh. apply (source_holds root); [done| |].
  - apply (wf_root Hwf). intros He. destruct (sf_empty _ _ Hs He) as [Hreqs _].
    rewrite Hreqs in Hh. by apply not_elem_of_empty in Hh.
  - apply (sf_reach _ _ Hs). by right.
Qed.

Lemma processOne_succeeds P h data s :
  wellFormed -> safe s -> live P s -> h ∈ P -> srcDb !! h = Some data ->
  exists s', processOne h data s = inr s' /\ live (P ∖ {[ h ]}) s' /\
    size (received s') = S (size (received s)).
Proof.
  intros Hwf Hs Hlive HP Hsrc.
  pose proof (live_handed _ _ Hlive h HP) as Hreq.
  assert (Hone : exists s', processOne h data s = inr s').
  { unfold processOne. rewrite decide_True by done.
    rewrite decide_True by by apply (wf_hash Hwf). by eexists. }
  destruct Hone as [s' Hone]. exists s'. split; [done|]. split.
  - revert Hone. unfold processOne. rewrite decide_True by done.
    destruct (decide (Keccak256 data = h)); [|done]. intros [= <-].
    eapply (live_ext (P ∖ {[ h ]}) (P ∖ {[ h ]}));
      [done|apply requests_settle|apply queue_settle|].
    apply discovers_live. destruct Hlive as [L1 L2 L3 L4]. split; simpl.
    + intros x Hx. apply elem_of_difference in Hx as [Hx Hne].
      apply elem_of_difference. split; [by apply L1|done].
    + intros x Hx. apply elem_of_difference. split; [by apply L2|].
      intros Heq%elem_of_singleton. subst x. by apply (L3 h Hx).
    + intros x Hx Hin. apply elem_of_difference in Hin as [Hin _]. by apply (L3 x Hx).
    + done.
  - rewrite (processOne_received _ _ _ _ Hone).
    apply map_size_insert_None. by apply (sf_req _ _ Hs).
Qed.

Lemma ProcessFrom_succeeds P i results s :
  wellFormed -> safe s -> settled s -> live P s ->
  Forall (fun r => srcDb !! r.1 = Some r.2) results ->
  NoDup results.*1 -> (forall h, h ∈ results.*1 -> h ∈ P) ->
  exists s', ProcessFrom i results s = (None, s') /\
    live (P ∖ list_to_set results.*1) s' /\
    size (received s') = (size (received s) + length results)%nat.
Proof.
  intros Hwf Hs Hset Hlive Hres. revert P i s Hs Hset Hlive.
  induction Hres as [|[h data] results Hr _ IH]; intros P i s Hs Hset Hlive Hnd Hin; simpl.
  - exists s. split; [done|]. split; [|lia].
    eapply live_ext; [|done|done|exact Hlive].
    intros x. rewrite elem_of_difference, elem_of_empty. tauto.
  - simpl in Hr, Hnd. apply NoDup_cons in Hnd as [Hfresh Hnd].
    destruct (processOne_succeeds P h data s Hwf Hs Hlive) as (s1 & Hone & Hlive1 & Hsize1);
      [apply Hin, list_elem_of_here|done|].
    rewrite Hone.
    destruct (processOne_safe _ _ _ _ Hs Hr Hone) as [Hs1 Hset1].
    destruct (IH (P ∖ {[ h ]}) (S i) s1 Hs1 Hset1 Hlive1 Hnd) as (s' & Hrun & Hlive' & Hsize').
    { intros x Hx. apply elem_of_difference. split; [by apply Hin, list_elem_of_further|].
      intros Heq%elem_of_singleton. by subst x. }
    exists s'. split; [done|]. split; [|lia].
    eapply live_ext; [|done|done|exact Hlive'].
    intros x. rewrite !elem_of_difference, elem_of_union, elem_of_singleton. tauto.
Qed.

Lemma Missing_live P max s :
  live P s -> live (P ∪ list_to_set (Missing max s).1) (Missing max s).2.
Proof.
  intros [L1 L2 L3 L4]. simpl.
  set (n := match max with O => length (queue s) | _ => max end).
  assert (Hsplit : queue s = take n (queue s) ++ drop n (queue s))
    by by rewrite take_drop.
  rewrite Hsplit in L4. apply NoDup_app in L4 as (Htake & Hapart & Hdrop).
  assert (Hsub : forall x, x ∈ take n (queue s) \/ x ∈ drop n (queue s) -> x ∈ queue s).
  { intros x Hx. rewrite Hsplit. by apply elem_of_app. }
  split; simpl.
  - intros h Hh. apply elem_of_union in Hh as [Hh|Hh]; [by apply L1|].
    apply elem_of_list_to_set in Hh. apply L2, Hsub. by left.
  - intros h Hh. apply L2, Hsub. by right.
  - intros h Hh Hin. apply elem_of_union in Hin as [Hin|Hin].
    + apply (L3 h); [|done]. apply Hsub. by right.
    + apply elem_of_list_to_set in Hin. by apply (Hapart h).
  - done.
Qed.

Definition liveDriver (d : driver) : Prop :=
  driverInv d /\ live (pending d) (sched d).

Lemma start_live max : liveDriver (start root origin max).
Proof.
  split; [apply start_inv|]. unfold start.
  assert (Hlive : live ∅ (NewStateSync root NewMemDatabase origin)).
  { unfold NewStateSync. destruct (decide (root = emptyRoot)); split; simpl.
    - intros h Hh. by apply not_elem_of_empty in Hh.
    - intros h Hh. by apply elem_of_nil in Hh.
    - intros h Hh. by apply elem_of_nil in Hh.
    - constructor.
    - intros h Hh. by apply not_elem_of_empty in Hh.
    - intros h Hh. apply list_elem_of_singleton in Hh as ->. by apply elem_of_singleton.
    - intros h _. apply not_elem_of_empty.
    - apply NoDup_singleton. }
  pose proof (Missing_live _ max _ Hlive) as Hlive'.
  destruct (Missing max (NewStateSync root NewMemDatabase origin)) as [hashes s].
  simpl in *. eapply live_ext; [|done|done|exact Hlive'].
  intros x. rewrite elem_of_union, elem_of_empty. tauto.
Qed.

Lemma fetch_succeeds batch :
  (forall h, h ∈ batch -> is_Some (srcDb !! h)) ->
  exists results, fetch srcDb batch = Some results.
Proof.
  intros Hall. apply mapM_is_Some. apply Forall_forall. intros h Hh.
  destruct (Hall h Hh) as [data Hd]. simpl. rewrite Hd. by eexists.
Qed.

(** A turn on a valid batch succeeds and receives every node of the batch. *)
Lemma round_succeeds batch max d :
  wellFormed -> liveDriver d -> validBatch (pending d) batch ->
  exists d', round srcDb batch max d = Some d' /\ liveDriver d' /\
    size (received (sched d')) = (size (received (sched d)) + length batch)%nat.
Proof.
  intros Hwf [Hdrv Hlive] (Hne & Hnd & Hin).
  pose proof Hdrv as (Hs & Hset & _).
  destruct (fetch_succeeds batch) as [results Hfetch].
  { intros h Hh. apply (requested_in_source (sched d)); [done|done|].
    by apply (live_handed _ _ Hlive), Hin. }
  destruct (fetch_results _ _ Hfetch) as [Hres Hbatch].
  destruct (ProcessFrom_succeeds (pending d) 0 results (sched d) Hwf Hs Hset Hlive Hres)
    as (s & Hrun & Hlive1 & Hsize); [by rewrite Hbatch|by rewrite Hbatch|].
  assert (Hround : exists d', round srcDb batch max d = Some d').
  { unfold round, Process. rewrite Hfetch, Hrun.
    destruct (Missing max s). by eexists. }
  destruct Hround as [d' Hround]. exists d'. split; [done|].
  pose proof (round_inv _ _ _ _ Hdrv Hround) as Hdrv'.
  unfold round, Process in Hround. rewrite Hfetch, Hrun in Hround.
  pose proof (Missing_live _ max s Hlive1) as Hlive'.
  destruct (Missing max s) as [hashes s'] eqn:HM. injection Hround as <-.
  simpl in *. rewrite Hbatch in Hlive'. split; [by split|].
  assert (Hrec : received s' = received s) by (injection HM as _ <-; done).
  rewrite Hrec, Hsize. f_equal. rewrite <- Hbatch. by rewrite length_fmap.
Qed.

(** Whatever valid batches are chosen, the loop ends within as many turns as
    the source has nodes, without a failure and with an empty queue. *)
Lemma loop_converges (choose : nat -> driver -> list Z * nat) (fuel : nat) (d : driver) :
  wellFormed ->
  (forall n d, pending d <> ∅ -> validBatch (pending d) (choose n d).1) ->
  liveDriver d ->
  (size srcDb <= size (received (sched d)) + fuel)%nat ->
  exists d', loop srcDb choose fuel d = Some d' /\ pending d' = ∅ /\ driverInv d'.
Proof.
  intros Hwf Hchoose. revert d.
  induction fuel as [|fuel IH]; intros d Hlive Hsize; simpl;
    destruct (decide (pending d = ∅)) as [Hdone|Hmore];
    try (exists d; split; [done|split; [done|apply Hlive]]).
  - exfalso. apply set_choose_L in Hmore as [h Hh].
    destruct Hlive as ((Hs & _) & Hl).
    pose proof (live_handed _ _ Hl h Hh) as Hreq.
    assert (Hstrict : received (sched d) ⊂ srcDb).
    { apply map_subset_alt. split.
      - apply map_subseteq_spec. apply Hs.
      - exists h. split; [by apply (sf_req _ _ Hs)|].
        by apply (requested_in_source (sched d)). }
    apply map_subset_size in Hstrict. lia.
  - destruct (round_succeeds (choose (S fuel) d).1 (choose (S fuel) d).2 d
                Hwf Hlive (Hchoose _ _ Hmore)) as (d' & Hround & Hlive' & Hgrow).
    rewrite Hround. apply IH; [done|].
    destruct (Hchoose (S fuel) d Hmore) as (Hne & _ & _).
    destruct ((choose (S fuel) d).1); [done|]. simpl in Hgrow. lia.
Qed.

(** The offline iteration of a source tree ends. *)
Lemma nodeIterator_ends :
  wellFormed -> exists fuel entries, iteration fuel srcDb root = Some entries.
Proof.
  intros Hwf. unfold iteration. destruct (decide (root = emptyRoot)) as [He|Hne].
  - by exists 0%nat, [].
  - destruct (wf_acyclic Hwf) as [rank Hrank].
    assert (Hall : forall fuel parent h,
              (rank h < fuel)%nat -> is_Some (srcDb !! h) ->
              is_Some (nodeIterator fuel srcDb parent h)).
    { induction fuel as [|fuel IH]; intros parent h Hfuel [data Hh]; [lia|].
      simpl. rewrite Hh.
      assert (Hkids : is_Some (mapM (nodeIterator fuel srcDb h) (children data))).
      { apply mapM_is_Some. apply Forall_forall. intros c Hc.
        assert (Hedge : refersTo srcDb h c) by by exists data.
        apply IH; [specialize (Hrank _ _ Hedge); lia|by apply (wf_closed Hwf h c)]. }
      destruct Hkids as [below ->]. by eexists. }
    destruct (Hall (S (rank root)) 0 root) as [entries Hentries];
      [lia|by apply (wf_root Hwf)|].
    by exists (S (rank root)), entries.
Qed.

End Invariant.

(** C1: for every source tree, a run of the loop of the tests that ends with
    an empty queue, whatever the batches, their order, their sizes and the
    delays, leaves a destination whose accounts and state are those of the
    source and whose index entries are exactly those of the offline iteration
    of the tree, plus the entry of the root under the origin when an origin
    was given; every such run does end, within as many turns as the source
    has nodes; and the offline iteration that the index is compared with
    exists. *)
Theorem sync_reconstructs_state (srcDb : gmap Z (list Z)) (root origin : Z) :
  wellFormed srcDb root ->
  (forall max turns d,
     rounds srcDb turns (start root origin max) = Some d -> pending d = ∅ ->
     synced srcDb root origin (database (sched d))) /\
  (forall choose max,
     (forall n d, pending d <> ∅ -> validBatch (pending d) (choose n d).1) ->
     exists d, loop srcDb choose (size srcDb) (start root origin max) = Some d /\
       pending d = ∅ /\ synced srcDb root origin (database (sched d))) /\
  (exists fuel entries, iteration fuel srcDb root = Some entries).
Proof.
  intros Hwf. split; [|split].
  - intros max turns d Hrun Hdone.
    apply completed_synced; [apply Hwf| |done].
    by apply (rounds_inv srcDb root origin turns _ d (start_inv srcDb root origin max)).
  - intros choose max Hchoose.
    destruct (loop_converges srcDb root origin choose (size srcDb)
                (start root origin max) Hwf Hchoose) as (d & Hloop & Hdone & Hdrv).
    + by apply start_live.
    + lia.
    + exists d. split; [done|]. split; [done|].
      apply completed_synced; [apply Hwf|done|done].
  - by apply nodeIterator_ends.
Qed.
End Scheduler.

(** A small source to run the synchronizer on: the data of a node is its own
    name followed by the names of its children, and the name stands for the
    hash; node 4 is shared by 2 and 3. *)
Definition nameOf (data : list Z) : Z := hd 0 data.
Definition namesBelow (data : list Z) : list Z := tl data.

Definition sampleSource : gmap Z (list Z) :=
  {[ 1 := [1; 2; 3]; 2 := [2; 4]; 3 := [3; 4]; 4 := [4] ]}.

Definition sampleAccount (state : tree) (address : Z) : option testAccount :=
  match state with
  | EmptyTree => None
  | Node data _ =>
      if decide (nameOf data = address) then
        Some {| balance := 11 * address; nonce := 42 * address; code := data |}
      else None
  end.

(** Three turns with delays and a batch out of order, and the driver that
    delivers its whole queue at each turn and asks for one hash at a time. *)
Definition sampleTurns : list (list Z * nat) :=
  [([1], 0%nat); ([3], 0%nat); ([4; 2], 0%nat)].

Definition sampleEnd : driver :=
  default (start 1 9 0) (rounds nameOf namesBelow sampleSource sampleTurns (start 1 9 0)).

Definition deliverAll (_ : nat) (d : driver) : list Z * nat :=
  (elements (pending d), 1%nat).

(** Case analysis on membership in an explicit list. *)
Ltac enumerate H tac :=
  repeat (apply elem_of_cons in H as [H|H]; [tac|]); try (by apply elem_of_nil in H).

Lemma sampleSource_wellFormed (root : Z) :
  (root <> emptyRoot -> root = 1) ->
  wellFormed nameOf namesBelow sampleSource root.
Proof.
  intros Hroot. split.
  - intros Hne. rewrite (Hroot Hne). exists [1; 2; 3]. reflexivity.
  - intros p c (data & Hp & Hc). apply elem_of_map_to_list in Hp.
    vm_compute map_to_list in Hp.
    enumerate Hp ltac:(injection Hp as -> ->; vm_compute in Hc;
                       enumerate Hc ltac:(rewrite Hc; by eexists)).
  - intros h data Hh. apply elem_of_map_to_list in Hh.
    vm_compute map_to_list in Hh. enumerate Hh ltac:(by injection Hh as -> ->).
  - exists (fun h => Z.to_nat (10 - h)). intros p c (data & Hp & Hc).
    apply elem_of_map_to_list in Hp. vm_compute map_to_list in Hp.
    enumerate Hp ltac:(injection Hp as -> ->; vm_compute in Hc;
                       enumerate Hc ltac:(rewrite Hc; lia)).
Qed.

Lemma deliverAll_valid n d :
  pending d <> ∅ -> validBatch (pending d) (deliverAll n d).1.
Proof.
  intros Hmore. simpl. split; [|split].
  - intros Hnil. apply Hmore. by apply elements_empty_inv, leibniz_equiv in Hnil.
  - apply NoDup_elements.
  - intros h. by rewrite elem_of_elements.
Qed.

Lemma sync_reconstructs_state_witness :
  synced namesBelow sampleAccount sampleSource 1 9 (database (sched sampleEnd)) /\
  (exists d,
     loop nameOf namesBelow sampleSource deliverAll (size sampleSource) (start 1 9 1) = Some d /\
     pending d = ∅ /\
     synced namesBelow sampleAccount sampleSource 1 9 (database (sched d))) /\
  synced namesBelow sampleAccount sampleSource emptyRoot 9
    (database (sched (start emptyRoot 9 1))).
Proof.
  destruct (sync_reconstructs_state nameOf namesBelow sampleAccount sampleSource 1 9)
    as (Hany & Hconverges & _); [by apply sampleSource_wellFormed|].
  destruct (sync_reconstructs_state nameOf namesBelow sampleAccount sampleSource emptyRoot 9)
    as (Hempty & _ & _); [by apply sampleSource_wellFormed|].
  split; [|split].
  - apply (Hany 0%nat sampleTurns sampleEnd); vm_compute; reflexivity.
  - apply Hconverges. apply deliverAll_valid.
  - apply (Hempty 1%nat [] (start emptyRoot 9 1)); reflexivity.
Defined.

End StateSync.
